(** * The falling-block engine of the display page and the socket relay

    A shallow embedding of the game engine that lives in the display page
    (the [TetrisGame] component: [collide], [merge], [clearLines], [drop],
    [move], [rotate], [hardDrop], [startGame], [pauseGame], [restartGame],
    [handleAction]) and of the relay of [server/routes.ts].

    Conventions of the embedding.
    - A JavaScript number that the engine only uses as a small integer is a
      [Z]; the score, which grows without bound, is a [jsnum]: a double,
      whose sums are rounded from [2 ^ 53] on and can reach an infinity.
    - An array is a [list]; a write through an index builds the new list.
    - The game state is the object held by [gameStateRef]; the functions of
      the component mutate it in place, the embedding passes it along.
    - A call either returns, raises a [TypeError] ([Throw]) or does not come
      back ([OutOfFuel]).
    - The calls that play a sound, set React state for the page chrome or
      store the high score do not touch the game state and are left out,
      but for one consequence: a new high score renders the page again, and
      the cleanup of the transport effect then clears the gravity timer
      ([effectCleanup]).
      So is [draw()], which most actions end with: it only reads the state;
      [draw] below keeps what of it decides whether the call returns, and
      [draw_returns] shows that it does on every host the game can be in.

    Further parts, each with its own conventions where it is defined: the
    controller page and the two transports between it and the display
    ([Controller], [displayRuns]); the background music of [lib/sounds]
    ([Music]) and the calls of it that the handlers of the display make,
    given apart from the handlers as [handle_music]; the network address
    the server reports and the home page shows ([Network]). *)

From Stdlib Require Import String ZArith List Bool Lia.
Import ListNotations.
Local Open Scope Z_scope.

(** ** Outcomes of a call *)

Inductive res (A : Type) : Type :=
| Ok (a : A)
| Throw
| OutOfFuel.

Arguments Ok {A} a.
Arguments Throw {A}.
Arguments OutOfFuel {A}.

Definition bind {A B : Type} (m : res A) (f : A -> res B) : res B :=
  match m with
  | Ok a => f a
  | Throw => Throw
  | OutOfFuel => OutOfFuel
  end.

Notation "x <- m ;; k" := (bind m (fun x => k))
  (at level 61, m at next level, right associativity).

(** ** JavaScript numbers

    The score is a double.  The doubles it can hold are integers, [NaN] and
    the two infinities; [Num z] is the double of value [z].  A sum or a
    product of integers that is not a double is rounded to the nearest
    double, a tie going to the one whose mantissa is even, and to an
    infinity once the rounded value reaches [2 ^ 1024]. *)

Inductive jsnum : Type :=
| Num (z : Z)
| NaN
| Infinity (negative : bool).

(** The distance between the doubles next to [z]: 1 below [2 ^ 53], and
    [2 ^ (e - 52)] when [2 ^ e <= |z| < 2 ^ (e + 1)]. *)
Definition ulp (z : Z) : Z := 2 ^ Z.max 0 (Z.log2 (Z.abs z) - 52).

(** The multiple of [ulp z] nearest to [z], the even one of two that are
    equally near. *)
Definition roundEven (z : Z) : Z :=
  let u := ulp z in
  let q := z / u in
  let r := z mod u in
  if 2 * r <? u then q * u
  else if u <? 2 * r then (q + 1) * u
  else if Z.even q then q * u else (q + 1) * u.

(** The double that an exact integer result becomes. *)
Definition toDouble (z : Z) : jsnum :=
  let r := roundEven z in
  if 2 ^ 1024 <=? Z.abs r then Infinity (r <? 0) else Num r.

Arguments roundEven : simpl never.
Arguments toDouble : simpl never.

(** [a + b] on numbers. *)
Definition jadd (a b : jsnum) : jsnum :=
  match a, b with
  | Num u, Num v => toDouble (u + v)
  | NaN, _ => NaN
  | _, NaN => NaN
  | Infinity n, Infinity n' => if Bool.eqb n n' then Infinity n else NaN
  | Infinity n, Num _ => Infinity n
  | Num _, Infinity n => Infinity n
  end.

(** [Number.isSafeInteger]: the integers on which the arithmetic of doubles
    is exact. *)
Definition safeInteger (z : Z) : Prop := - (2 ^ 53) < z < 2 ^ 53.

(** An integer that is a double. *)
Definition representable (z : Z) : Prop :=
  roundEven z = z /\ Z.abs z < 2 ^ 1024.

(** What a score can be when points that are not negative are added to 0. *)
Definition scoreOk (s : jsnum) : Prop :=
  match s with
  | Num v => 0 <= v /\ representable v
  | NaN => False
  | Infinity negative => negative = false
  end.

(** ** Arrays *)

(** [l.splice(i, 1)] for [0 <= i]: the element at [i], if any, is removed. *)
Definition splice1 {A : Type} (i : nat) (l : list A) : list A :=
  firstn i l ++ skipn (S i) l.

(** [l[i] = v] for an existing index. *)
Fixpoint setNth {A : Type} (i : nat) (v : A) (l : list A) : list A :=
  match l, i with
  | [], _ => []
  | _ :: t, O => v :: t
  | a :: t, S j => a :: setNth j v t
  end.

(** [row[c] = v] for any integer [c].  A negative [c] names a property of the
    array object and leaves its elements alone.  An index past the end
    lengthens the array; the indices in between are holes, which every test
    of the engine treats as it treats [hole]. *)
Definition arrayWrite {A : Type} (hole : A) (c : Z) (v : A) (row : list A) : list A :=
  if c <? 0 then row
  else if c <? Z.of_nat (length row) then setNth (Z.to_nat c) v row
  else row ++ repeat hole (Z.to_nat c - length row) ++ [v].

(** [l.some((a, i) => f a i)], the index counted from [i]. *)
Fixpoint someFrom {A : Type} (i : Z) (f : A -> Z -> bool) (l : list A) : bool :=
  match l with
  | [] => false
  | a :: t => f a i || someFrom (i + 1) f t
  end.

(** [l.forEach((a, i) => ...)] over a state [S], stopping at an exception. *)
Fixpoint forEachFrom {A S : Type} (i : Z) (f : A -> Z -> S -> res S)
    (l : list A) (s : S) : res S :=
  match l with
  | [] => Ok s
  | a :: t => s' <- f a i s ;; forEachFrom (i + 1) f t s'
  end.

(** ** Data model *)

Definition COLS : Z := 10.
Definition ROWS : Z := 20.

Definition Row := list Z.
Definition Board := list Row.
Definition ColorRow := list (option string).
Definition ColorBoard := list ColorRow.

Record Piece : Type := mkPiece {
  shape : list (list Z);
  color : string;
  x : Z;
  y : Z
}.

Record GameState : Type := mkGameState {
  board : Board;
  boardColors : ColorBoard;
  piece : Piece;
  nextPiece : Piece;
  score : jsnum;
  lines : Z;
  level : Z;
  isRunning : bool;
  isPaused : bool;
  isGameOver : bool
}.

Definition SHAPES : list (list (list Z) * string) :=
  [ ([[1; 1; 1; 1]], "#00f5ff"%string);
    ([[1; 1]; [1; 1]], "#ffd700"%string);
    ([[0; 1; 0]; [1; 1; 1]], "#a855f7"%string);
    ([[1; 0; 0]; [1; 1; 1]], "#ff6b2c"%string);
    ([[0; 0; 1]; [1; 1; 1]], "#3b82f6"%string);
    ([[1; 1; 0]; [0; 1; 1]], "#22c55e"%string);
    ([[0; 1; 1]; [1; 1; 0]], "#ef4444"%string) ].

Definition emptyRow : Row := repeat 0 (Z.to_nat COLS).
Definition emptyColorRow : ColorRow := repeat None (Z.to_nat COLS).

Definition createEmptyBoard : Board := repeat emptyRow (Z.to_nat ROWS).
Definition createEmptyColorBoard : ColorBoard := repeat emptyColorRow (Z.to_nat ROWS).

(** [randomPiece()], where [k] is the value of
    [Math.floor(Math.random() * SHAPES.length)], a number below 7. *)
Definition randomPiece (k : nat) : Piece :=
  let '(sh, col) := nth k SHAPES ([], EmptyString) in
  {| shape := sh;
     color := col;
     x := COLS / 2 - Z.of_nat (length (hd [] sh)) / 2;
     y := 0 |}.

(** ** Collision, merging and line clearing *)

(** [board[newY]?.[newX] !== 0], used with [0 <= newY] and [0 <= newX]. *)
Definition cellNonZero (b : Board) (newY newX : Z) : bool :=
  match nth_error b (Z.to_nat newY) with
  | None => true
  | Some row =>
      match nth_error row (Z.to_nat newX) with
      | None => true
      | Some cell => negb (cell =? 0)
      end
  end.

Definition collide (p : Piece) (b : Board) : bool :=
  someFrom 0 (fun row dy =>
    someFrom 0 (fun value dx =>
      if value =? 0 then false
      else
        let newX := x p + dx in
        let newY := y p + dy in
        (newX <? 0) || (newX >=? COLS) || (newY >=? ROWS)
        || ((newY >=? 0) && cellNonZero b newY newX)) row) (shape p).

(** [m[r][c] = v]; [m[r]] must exist. *)
Definition writeCell {A : Type} (hole : A) (r c : Z) (v : A)
    (m : list (list A)) : res (list (list A)) :=
  match nth_error m (Z.to_nat r) with
  | None => Throw
  | Some row => Ok (setNth (Z.to_nat r) (arrayWrite hole c v row) m)
  end.

(** A hole in a board row is not [0] for [collide] and is skipped by
    [every], as a non-zero cell is: it is kept as [-1].  A hole in a colour
    row reads as no colour. *)
Definition merge (p : Piece) (b : Board) (bc : ColorBoard) : res (Board * ColorBoard) :=
  forEachFrom 0 (fun row dy acc =>
    forEachFrom 0 (fun value dx acc' =>
      if negb (value =? 0) && (y p + dy >=? 0) then
        b' <- writeCell (-1) (y p + dy) (x p + dx) 1 (fst acc') ;;
        bc' <- writeCell None (y p + dy) (x p + dx) (Some (color p)) (snd acc') ;;
        Ok (b', bc')
      else Ok acc') row acc) (shape p) (b, bc).

(** [row.every((cell) => cell !== 0)] *)
Definition fullRow (row : Row) : bool :=
  forallb (fun cell => negb (cell =? 0)) row.

(** The [for] loop of [clearLines]: [y] is the loop variable on entry to the
    test [y >= 0]; after a cleared row [y++] and the loop's [y--] cancel. *)
Fixpoint clearLines_loop (fuel : nat) (y : Z) (b : Board) (bc : ColorBoard)
    (linesCleared : Z) : res (Z * Board * ColorBoard) :=
  match fuel with
  | O => OutOfFuel
  | S fuel' =>
      if y >=? 0 then
        match nth_error b (Z.to_nat y) with
        | None => Throw
        | Some row =>
            if fullRow row then
              clearLines_loop fuel' y
                (emptyRow :: splice1 (Z.to_nat y) b)
                (emptyColorRow :: splice1 (Z.to_nat y) bc)
                (linesCleared + 1)
            else clearLines_loop fuel' (y - 1) b bc linesCleared
        end
      else Ok (linesCleared, b, bc)
  end.

(** Every turn of the loop either lowers [y] or takes a full row out of the
    board, so [length b + ROWS + 1] turns are enough ([clearLines_returns]). *)
Definition clearLines (b : Board) (bc : ColorBoard) : res (Z * Board * ColorBoard) :=
  clearLines_loop (length b + Z.to_nat ROWS + 1) (ROWS - 1) b bc 0.

(** The rows of the colour board that sit beside a row of the board that is
    not full. *)
Fixpoint keepColors (b : Board) (bc : ColorBoard) : ColorBoard :=
  match b, bc with
  | row :: b', crow :: bc' =>
      if fullRow row then keepColors b' bc' else crow :: keepColors b' bc'
  | _, _ => []
  end.

Definition countFull (b : Board) : nat :=
  length (filter fullRow b).

Definition notFull (row : Row) : bool := negb (fullRow row).

(** ** The display host: game state and gravity timer *)

(** [timers] are the interval timers of the page that call [drop], each with
    its handle and its period in milliseconds; [window.setInterval] hands out
    positive handles, [nextHandle] first.  [dropIntervalRef] is
    [dropIntervalRef.current], [None] for [null]. *)
Record Host : Type := mkHost {
  state : GameState;
  dropIntervalRef : option positive;
  timers : list (positive * Z);
  nextHandle : positive
}.

Definition setY (p : Piece) (v : Z) : Piece :=
  {| shape := shape p; color := color p; x := x p; y := v |}.

Definition setX (p : Piece) (v : Z) : Piece :=
  {| shape := shape p; color := color p; x := v; y := y p |}.

Definition setShape (p : Piece) (sh : list (list Z)) : Piece :=
  {| shape := sh; color := color p; x := x p; y := y p |}.

Definition setPiece (st : GameState) (p : Piece) : GameState :=
  {| board := board st; boardColors := boardColors st; piece := p;
     nextPiece := nextPiece st; score := score st; lines := lines st;
     level := level st; isRunning := isRunning st; isPaused := isPaused st;
     isGameOver := isGameOver st |}.

Definition setNextPiece (st : GameState) (p : Piece) : GameState :=
  {| board := board st; boardColors := boardColors st; piece := piece st;
     nextPiece := p; score := score st; lines := lines st;
     level := level st; isRunning := isRunning st; isPaused := isPaused st;
     isGameOver := isGameOver st |}.

Definition setBoards (st : GameState) (b : Board) (bc : ColorBoard) : GameState :=
  {| board := b; boardColors := bc; piece := piece st;
     nextPiece := nextPiece st; score := score st; lines := lines st;
     level := level st; isRunning := isRunning st; isPaused := isPaused st;
     isGameOver := isGameOver st |}.

Definition setScore (st : GameState) (v : jsnum) : GameState :=
  {| board := board st; boardColors := boardColors st; piece := piece st;
     nextPiece := nextPiece st; score := v; lines := lines st;
     level := level st; isRunning := isRunning st; isPaused := isPaused st;
     isGameOver := isGameOver st |}.

Definition setLines (st : GameState) (ln lv : Z) : GameState :=
  {| board := board st; boardColors := boardColors st; piece := piece st;
     nextPiece := nextPiece st; score := score st; lines := ln;
     level := lv; isRunning := isRunning st; isPaused := isPaused st;
     isGameOver := isGameOver st |}.

Definition setFlags (st : GameState) (running paused over : bool) : GameState :=
  {| board := board st; boardColors := boardColors st; piece := piece st;
     nextPiece := nextPiece st; score := score st; lines := lines st;
     level := level st; isRunning := running; isPaused := paused;
     isGameOver := over |}.

Definition setState (h : Host) (st : GameState) : Host :=
  {| state := st; dropIntervalRef := dropIntervalRef h; timers := timers h;
     nextHandle := nextHandle h |}.

(** [clearInterval(id)] *)
Definition clearInterval (id : positive) (h : Host) : Host :=
  {| state := state h; dropIntervalRef := dropIntervalRef h;
     timers := filter (fun t => negb (fst t =? id)%positive) (timers h);
     nextHandle := nextHandle h |}.

(** [dropIntervalRef.current = null] *)
Definition forgetInterval (h : Host) : Host :=
  {| state := state h; dropIntervalRef := None; timers := timers h;
     nextHandle := nextHandle h |}.

(** [dropIntervalRef.current = window.setInterval(drop, ms)] *)
Definition scheduleDrop (ms : Z) (h : Host) : Host :=
  {| state := state h; dropIntervalRef := Some (nextHandle h);
     timers := (nextHandle h, ms) :: timers h;
     nextHandle := Pos.succ (nextHandle h) |}.

(** [Math.max(100, 700 - (level - 1) * 50)] *)
Definition speed (lvl : Z) : Z := Z.max 100 (700 - (lvl - 1) * 50).

Definition linePoints : list Z := [0; 100; 300; 500; 800].

(** [linePoints[linesCleared] * level]: a missing entry is [undefined] and
    the product [NaN]. *)
Definition lineScore (linesCleared lvl : Z) : jsnum :=
  match nth_error linePoints (Z.to_nat linesCleared) with
  | Some pts => toDouble (pts * lvl)
  | None => NaN
  end.

(** The branch of [drop] taken when the piece cannot go down and
    [state.piece.y <= 0]. *)
Definition gameOverStep (h : Host) : Host :=
  let h1 := setState h (setFlags (state h) (isRunning (state h)) (isPaused (state h)) true) in
  match dropIntervalRef h1 with
  | Some id => forgetInterval (clearInterval id h1)
  | None => h1
  end.

(** The part of [drop] after [clearLines] has returned [linesCleared];
    [k] is the draw of the [randomPiece()] that makes the new next piece. *)
Definition afterClear (k : nat) (h : Host) (linesCleared : Z) (b : Board)
    (bc : ColorBoard) : Host :=
  let st1 := setBoards (state h) b bc in
  let h2 :=
    if linesCleared >? 0 then
      let sc := jadd (score st1) (lineScore linesCleared (level st1)) in
      let ln := lines st1 + linesCleared in
      let lv := ln / 10 + 1 in
      let h1 := setState h (setLines (setScore st1 sc) ln lv) in
      match dropIntervalRef h1 with
      | Some id => scheduleDrop (speed lv) (clearInterval id h1)
      | None => h1
      end
    else setState h st1 in
  setState h2 (setNextPiece (setPiece (state h2) (nextPiece (state h2))) (randomPiece k)).

Definition drop (k : nat) (h : Host) : res Host :=
  let st := state h in
  if isPaused st || isGameOver st then Ok h
  else
    let newPiece := setY (piece st) (y (piece st) + 1) in
    if collide newPiece (board st) then
      if y (piece st) <=? 0 then Ok (gameOverStep h)
      else
        m <- merge (piece st) (board st) (boardColors st) ;;
        c <- clearLines (fst m) (snd m) ;;
        Ok (afterClear k h (fst (fst c)) (snd (fst c)) (snd c))
    else Ok (setState h (setPiece st newPiece)).

Definition move (dir : Z) (h : Host) : res Host :=
  let st := state h in
  if negb (isRunning st) || isPaused st || isGameOver st then Ok h
  else
    let newPiece := setX (piece st) (x (piece st) + dir) in
    if negb (collide newPiece (board st)) then Ok (setState h (setPiece st newPiece))
    else Ok h.

(** [shape[0].map((_, i) => shape.map((row) => row[i]).reverse())]; a row too
    short for [i] gives [undefined], which is falsy as [0] is, and the cells
    of a shape are only ever tested for truth: it is read as [0]. *)
Definition rotatedCells (sh : list (list Z)) : list (list Z) :=
  map (fun i => rev (map (fun row => nth i row 0) sh)) (seq 0 (length (hd [] sh))).

(** The [for ... of] loop over the wall-kick offsets. *)
Fixpoint kick (newPiece : Piece) (b : Board) (offsets : list Z) : option Piece :=
  match offsets with
  | [] => None
  | offset :: rest =>
      let kicked := setX newPiece (x newPiece + offset) in
      if negb (collide kicked b) then Some kicked else kick newPiece b rest
  end.

Definition rotate (h : Host) : res Host :=
  let st := state h in
  if negb (isRunning st) || isPaused st || isGameOver st then Ok h
  else
    match shape (piece st) with
    | [] => Throw
    | _ :: _ =>
        let newPiece := setShape (piece st) (rotatedCells (shape (piece st))) in
        if negb (collide newPiece (board st)) then Ok (setState h (setPiece st newPiece))
        else
          match kick newPiece (board st) [-1; 1; -2; 2] with
          | Some kicked => Ok (setState h (setPiece st kicked))
          | None => Ok h
          end
    end.

(** The [while] loop of [hardDrop]. *)
Fixpoint hardDrop_loop (fuel : nat) (st : GameState) : res GameState :=
  match fuel with
  | O => OutOfFuel
  | S fuel' =>
      if negb (collide (setY (piece st) (y (piece st) + 1)) (board st)) then
        hardDrop_loop fuel'
          (setScore (setPiece st (setY (piece st) (y (piece st) + 1)))
                    (jadd (score st) (Num 2)))
      else Ok st
  end.

(** A piece with an occupied cell collides once it reaches the floor, after
    at most [ROWS - y] turns; a piece without one never collides and the loop
    does not end ([hardDrop_loop_returns], [hardDrop_loop_diverges]). *)
Definition hardDrop (k : nat) (h : Host) : res Host :=
  let st := state h in
  if negb (isRunning st) || isPaused st || isGameOver st then Ok h
  else
    st' <- hardDrop_loop (Z.to_nat (ROWS - y (piece st)) + 1) st ;;
    drop k (setState h st').

(** The state [startGame] and [restartGame] assign field by field;
    [isRunning] is not among the fields they reset. *)
Definition freshRun (st : GameState) (k1 k2 : nat) : GameState :=
  {| board := createEmptyBoard; boardColors := createEmptyColorBoard;
     piece := randomPiece k1; nextPiece := randomPiece k2;
     score := Num 0; lines := 0; level := 1;
     isRunning := isRunning st; isPaused := false; isGameOver := false |}.

Definition startGame (k1 k2 : nat) (h : Host) : Host :=
  let st := state h in
  let st1 := if isGameOver st || negb (isRunning st) then freshRun st k1 k2 else st in
  let h1 := setState h (setFlags st1 true false (isGameOver st1)) in
  let h2 := match dropIntervalRef h1 with
            | Some id => clearInterval id h1
            | None => h1
            end in
  scheduleDrop (speed (level (state h2))) h2.

Definition pauseGame (h : Host) : Host :=
  let st := state h in
  if negb (isRunning st) || isGameOver st then h
  else
    let h1 := setState h (setFlags st (isRunning st) (negb (isPaused st)) (isGameOver st)) in
    if isPaused (state h1) then
      match dropIntervalRef h1 with
      | Some id => forgetInterval (clearInterval id h1)
      | None => h1
      end
    else scheduleDrop (speed (level (state h1))) h1.

Definition restartGame (k1 k2 : nat) (h : Host) : Host :=
  setState h (setFlags (freshRun (state h) k1 k2) true false false).

(** [k1] and [k2] are the draws of the (at most two) [randomPiece()] calls the
    action makes, in order. *)
Definition handleAction (action : string) (k1 k2 : nat) (h : Host) : res Host :=
  if (action =? "start")%string then Ok (startGame k1 k2 h)
  else if (action =? "pause")%string then Ok (pauseGame h)
  else if (action =? "restart")%string then Ok (restartGame k1 k2 h)
  else if (action =? "left")%string then move (-1) h
  else if (action =? "right")%string then move 1 h
  else if (action =? "rotate")%string then rotate h
  else if (action =? "drop")%string then hardDrop k1 h
  else if (action =? "softdrop")%string then drop k1 h
  else Ok h.

(** [draw()] with the canvas mounted, as far as returning goes.  The board
    loop reads [boardColors[y][x]] at every cell of the board that is not
    [0], which raises when the colour board has no row [y].  While the run is
    not over the ghost piece is found by the loop
    [while (!collide({...piece, y: ghostY + 1}, board)) ghostY++]. *)
Definition drawCells (b : Board) (bc : ColorBoard) : res unit :=
  forEachFrom 0 (fun row y acc =>
    forEachFrom 0 (fun cell (_ : Z) acc' =>
      if cell =? 0 then Ok acc'
      else
        match nth_error bc (Z.to_nat y) with
        | None => Throw
        | Some _ => Ok acc'
        end) row acc) b tt.

Fixpoint ghost_loop (fuel : nat) (p : Piece) (b : Board) (ghostY : Z) : res Z :=
  match fuel with
  | O => OutOfFuel
  | S fuel' =>
      if negb (collide (setY p (ghostY + 1)) b) then ghost_loop fuel' p b (ghostY + 1)
      else Ok ghostY
  end.

Definition draw (st : GameState) : res unit :=
  _ <- drawCells (board st) (boardColors st) ;;
  if negb (isGameOver st) then
    _ <- ghost_loop (Z.to_nat (ROWS - y (piece st)) + 1) (piece st) (board st)
                    (y (piece st)) ;;
    Ok tt
  else Ok tt.

(** The object [useRef] is given on the first render, with no timer yet. *)
Definition initialHost (k1 k2 : nat) : Host :=
  {| state :=
       {| board := createEmptyBoard; boardColors := createEmptyColorBoard;
          piece := randomPiece k1; nextPiece := randomPiece k2;
          score := Num 0; lines := 0; level := 1;
          isRunning := false; isPaused := false; isGameOver := false |};
     dropIntervalRef := None; timers := []; nextHandle := 1%positive |}.

(** What the event loop can run on the host through [handleAction] and
    the timer: an action received from a transport or the keyboard, or a
    tick of a live gravity timer. *)
Inductive Event : Type :=
| Action (action : string)
| Tick (id : positive).

Definition fires (e : Event) (h : Host) : Prop :=
  match e with
  | Action _ => True
  | Tick id => exists ms, In (id, ms) (timers h)
  end.

Definition handle (e : Event) (k1 k2 : nat) (h : Host) : res Host :=
  match e with
  | Action action => handleAction action k1 k2 h
  | Tick _ => drop k1 h
  end.

(** The cleanup of the effect that registers the transports:
    [if (dropIntervalRef.current) clearInterval(dropIntervalRef.current)],
    which stops the timer and leaves its handle in the reference. *)
Definition effectCleanup (h : Host) : Host :=
  match dropIntervalRef h with
  | Some id => clearInterval id h
  | None => h
  end.

(** The hosts the page can be in.  The cleanup runs when React commits a
    render in which [handleAction] has changed, that is after [drop] has
    called [setHighScore] in its game-over branch, and other events can be
    handled in between, a [start] for one; when the render comes is for the
    stored high score and for React to decide, so here the cleanup may come
    at any point. *)
Inductive reachable : Host -> Prop :=
| reach_init (k1 k2 : nat) :
    (k1 < 7)%nat -> (k2 < 7)%nat -> reachable (initialHost k1 k2)
| reach_step (h h' : Host) (e : Event) (k1 k2 : nat) :
    reachable h -> fires e h -> (k1 < 7)%nat -> (k2 < 7)%nat ->
    handle e k1 k2 h = Ok h' -> reachable h'
| reach_cleanup (h : Host) :
    reachable h -> reachable (effectCleanup h).

(** A run of events with their draws, from a given host. *)
Fixpoint run (evs : list (Event * nat * nat)) (h : Host) : res Host :=
  match evs with
  | [] => Ok h
  | (e, k1, k2) :: rest => h' <- handle e k1 k2 h ;; run rest h'
  end.

(** ** Notions used to state the properties *)

(** Rotation as the design describes it: the transpose, each row reversed. *)
Fixpoint zipCons (row : list Z) (cols : list (list Z)) : list (list Z) :=
  match row, cols with
  | v :: row', c :: cols' => (v :: c) :: zipCons row' cols'
  | _, _ => []
  end.

Fixpoint transpose (m : list (list Z)) : list (list Z) :=
  match m with
  | [] => []
  | [row] => map (fun v => [v]) row
  | row :: rest => zipCons row (transpose rest)
  end.

Definition rotateClockwise (m : list (list Z)) : list (list Z) :=
  map (@rev Z) (transpose m).

(** A cell matrix with at least one row, all rows as long as the first. *)
Definition rectangular (m : list (list Z)) : Prop :=
  m <> [] /\ Forall (fun row => length row = length (hd [] m)) m.

(** The four orientations of the seven shapes. *)
Definition orientations : list (list (list Z)) :=
  flat_map (fun s =>
    let a := fst s in
    [a; rotatedCells a; rotatedCells (rotatedCells a);
     rotatedCells (rotatedCells (rotatedCells a))]) SHAPES.

Definition rowOccupied (row : list Z) : bool :=
  existsb (fun v => negb (v =? 0)) row.

Definition hasCell (p : Piece) : bool := existsb rowOccupied (shape p).

(** The board row of the topmost occupied cell of a piece. *)
Fixpoint firstOccupied (sh : list (list Z)) : option nat :=
  match sh with
  | [] => None
  | row :: rest =>
      if rowOccupied row then Some O else option_map S (firstOccupied rest)
  end.

Definition topRow (p : Piece) : option Z :=
  option_map (fun i => y p + Z.of_nat i) (firstOccupied (shape p)).

(** No occupied cell of the piece lies left or right of the board or below
    its floor: the three bound tests of [collide]. *)
Definition inBounds (p : Piece) : bool :=
  negb (someFrom 0 (fun row dy =>
    someFrom 0 (fun value dx =>
      if value =? 0 then false
      else (x p + dx <? 0) || (x p + dx >=? COLS) || (y p + dy >=? ROWS)) row)
    (shape p)).

Definition gridDims {A : Type} (m : list (list A)) : Prop :=
  length m = Z.to_nat ROWS /\ Forall (fun row => length row = Z.to_nat COLS) m.

(** The rows of the board that lie above or below the piece. *)
Definition outside (p : Piece) (i : nat) : Prop :=
  Z.of_nat i < y p \/ y p + Z.of_nat (length (shape p)) <= Z.of_nat i.

(** What holds of the host at every point of the event loop. *)
Record Inv (h : Host) : Prop := mkInv {
  inv_level : level (state h) = lines (state h) / 10 + 1;
  inv_board : gridDims (board (state h));
  inv_colors : gridDims (boardColors (state h));
  inv_shape : In (shape (piece (state h))) orientations;
  inv_bounds : inBounds (piece (state h)) = true;
  inv_next : exists k, (k < 7)%nat /\ nextPiece (state h) = randomPiece k;
  inv_timers :
    match dropIntervalRef h with
    | Some id => timers h = [] \/ exists ms, timers h = [(id, ms)]
    | None => timers h = []
    end;
  inv_paused : isPaused (state h) = true -> dropIntervalRef h = None;
  inv_over : isGameOver (state h) = true -> dropIntervalRef h = None;
  inv_running : dropIntervalRef h <> None -> isRunning (state h) = true;
  inv_nofull : countFull (board (state h)) = 0%nat;
  inv_score : scoreOk (score (state h));
  inv_lines : 0 <= lines (state h)
}.

(** The host on entry to [drop], for the events that get as far as calling
    it: a tick, a soft drop, and a hard drop once its loop has ended. *)
Definition gravityEntry (e : Event) (h : Host) : option Host :=
  match e with
  | Tick _ => Some h
  | Action action =>
      if (action =? "softdrop")%string then Some h
      else if (action =? "drop")%string then
        if negb (isRunning (state h)) || isPaused (state h) || isGameOver (state h)
        then None
        else
          match hardDrop_loop (Z.to_nat (ROWS - y (piece (state h))) + 1) (state h) with
          | Ok st' => Some (setState h st')
          | _ => None
          end
      else None
  end.

(** A list of events made of actions only, with draws below 7. *)
Definition allActions (evs : list (Event * nat * nat)) : bool :=
  forallb (fun ev =>
    match ev with
    | (Action _, k1, k2) => (k1 <? 7)%nat && (k2 <? 7)%nat
    | (Tick _, _, _) => false
    end) evs.

(** ** The relay of [server/routes.ts]

    [connected] is socket.io's registry of the sockets of the namespace;
    [socket.broadcast.emit(ev, data)] sends [ev] with [data] to every socket
    of the registry but [socket] itself.  The handlers registered by
    [registerRoutes] keep no variable of their own. *)
Module Relay.

Definition SocketId := string.

Inductive Effect : Type :=
| Log (message source : string)
| Emit (target : SocketId) (event : string) (payload : string).

Record Server : Type := mkServer { connected : list SocketId }.

Definition broadcastEmit (srv : Server) (sender : SocketId)
    (event payload : string) : list Effect :=
  map (fun target => Emit target event payload)
      (filter (fun target => negb (target =? sender)%string) (connected srv)).

(** [io.on("connection", ...)]: socket.io has added the socket. *)
Definition onConnection (srv : Server) (id : SocketId) : Server * list Effect :=
  ({| connected := id :: connected srv |},
   [Log ("Client connected: " ++ id) "socket.io"]).

(** [socket.on("control", ...)] *)
Definition onControl (srv : Server) (sender : SocketId) (action : string)
    : Server * list Effect :=
  (srv,
   Log ("Control action received: " ++ action ++ " from " ++ sender) "socket.io"
     :: broadcastEmit srv sender "control" action).

(** [socket.on("disconnect", ...)]: socket.io has dropped the socket. *)
Definition onDisconnect (srv : Server) (id : SocketId) : Server * list Effect :=
  ({| connected := filter (fun s => negb (s =? id)%string) (connected srv) |},
   [Log ("Client disconnected: " ++ id) "socket.io"]).

(** What a peer is sent by a list of effects. *)
Definition delivered (target : SocketId) (effs : list Effect) : list (string * string) :=
  flat_map (fun e =>
    match e with
    | Emit t ev payload => if (t =? target)%string then [(ev, payload)] else []
    | Log _ _ => []
    end) effs.

End Relay.

(** The cell in row [dy], column [dx] of the matrix is occupied. *)
Definition occupied (sh : list (list Z)) (dy dx : nat) : Prop :=
  exists row v, nth_error sh dy = Some row /\ nth_error row dx = Some v /\ v <> 0.

(** What [g] is when the loop of [hardDrop] has taken [st] down [d] rows,
    adding 2 to the score once for each row. *)
Definition descended (st g : GameState) (d : Z) : Prop :=
  0 <= d
  /\ piece g = setY (piece st) (y (piece st) + d)
  /\ score g = Nat.iter (Z.to_nat d) (fun s => jadd s (Num 2)) (score st)
  /\ board g = board st /\ boardColors g = boardColors st
  /\ nextPiece g = nextPiece st /\ lines g = lines st /\ level g = level st
  /\ isRunning g = isRunning st /\ isPaused g = isPaused st
  /\ isGameOver g = isGameOver st
  /\ (forall j, 1 <= j <= d ->
        collide (setY (piece st) (y (piece st) + j)) (board st) = false)
  /\ collide (setY (piece st) (y (piece st) + d + 1)) (board st) = true.

(** ** Sample inputs *)

(** A board whose two lowest rows are full, under a row with one cell. *)
Definition sampleBoard : Board :=
  repeat emptyRow 17 ++ [[0; 0; 0; 1; 0; 0; 0; 0; 0; 0]; repeat 1 10; repeat 1 10].

Definition sampleColors : ColorBoard :=
  repeat emptyColorRow 17
  ++ [repeat (Some "#a855f7"%string) 10; repeat (Some "#ffd700"%string) 10;
      repeat (Some "#00f5ff"%string) 10].

(** The host after a first [start] that drew the T shape, then the bar. *)
Definition startedHost : Host := startGame 2 0 (initialHost 0 0).

(** The same host with the bar upright one column off the right wall, where
    the turned bar fits only after the kick by -2. *)
Definition wallHost : Host :=
  setState startedHost
    (setPiece (state startedHost)
       {| shape := [[1]; [1]; [1]; [1]]; color := "#00f5ff"%string; x := 8; y := 5 |}).

(** The started host, paused. *)
Definition pausedHost : Host := pauseGame startedHost.

(** A first [start], the bar moved to the left wall and dropped, the next
    bar moved one column right and dropped, the square moved to the right
    wall and dropped: the bottom row is complete and cleared. *)
Definition lineEvents : list (Event * nat * nat) :=
  [ (Action "start", 0, 0); (Action "left", 0, 0); (Action "left", 0, 0);
    (Action "left", 0, 0); (Action "drop", 1, 0); (Action "right", 0, 0);
    (Action "drop", 2, 0); (Action "right", 0, 0); (Action "right", 0, 0);
    (Action "right", 0, 0); (Action "right", 0, 0); (Action "drop", 3, 0) ]%nat.

(** A first [start] and nine hard drops, every draw the square: the
    squares pile up in columns 4 and 5 to row 2, and the tenth square sits
    at the top with no room to fall. *)
Definition pileEvents : list (Event * nat * nat) :=
  (Action "start", 1, 1)%nat :: repeat (Action "drop", 1, 1)%nat 9.

Definition pileHost : Host :=
  match run pileEvents (initialHost 1 1) with
  | Ok h => h
  | _ => initialHost 1 1
  end.

(** A run at level 3 whose bottom row is full but for columns 3 to 6, with
    the bar at the top, and the same run with the bar taken down 19 rows. *)
Definition gapBoard : Board :=
  repeat emptyRow 19 ++ [[1; 1; 1; 0; 0; 0; 0; 1; 1; 1]].

Definition gapHost : Host :=
  setState startedHost
    (setLines (setBoards (setPiece (state startedHost) (randomPiece 0))
                         gapBoard createEmptyColorBoard) 25 3).

Definition landedHost : Host :=
  setState gapHost
    (setScore (setPiece (state gapHost) (setY (randomPiece 0) 19)) (Num 38)).

(** Every timer of [h'] was a timer of [h] already or has the period that
    goes with the level of [h']. *)
Definition rescheduled (h h' : Host) : Prop :=
  forall id ms, In (id, ms) (timers h') ->
    In (id, ms) (timers h) \/ ms = speed (level (state h')).

(** Three peers on the relay. *)
Definition sampleServer : Relay.Server :=
  {| Relay.connected := ["display"; "pad-a"; "pad-b"]%string |}.

(** ** Notions used by the further properties *)

(** The element at row [r], column [c] of a grid, when there is one. *)
Definition cellAt {A : Type} (m : list (list A)) (r c : nat) : option A :=
  match nth_error m r with
  | Some row => nth_error row c
  | None => None
  end.

(** Every occupied cell of the piece is inside the columns of the board,
    above its floor and, from row 0 down, on a free cell of the board. *)
Definition fits (p : Piece) (b : Board) : Prop :=
  forall dy dx, occupied (shape p) dy dx ->
    0 <= x p + Z.of_nat dx < COLS
    /\ y p + Z.of_nat dy < ROWS
    /\ (0 <= y p + Z.of_nat dy ->
        cellAt b (Z.to_nat (y p + Z.of_nat dy)) (Z.to_nat (x p + Z.of_nat dx)) = Some 0).

(** The board cell at row [r], column [c] lies under an occupied cell of the
    piece. *)
Definition covered (p : Piece) (r c : nat) : Prop :=
  exists dy dx, occupied (shape p) dy dx
    /\ y p + Z.of_nat dy = Z.of_nat r /\ x p + Z.of_nat dx = Z.of_nat c.

(** It lies under an occupied cell that [merge] visits before the cell in
    row [dy], column [dx] of the shape. *)
Definition coveredBefore (p : Piece) (dy dx : nat) (r c : nat) : Prop :=
  exists dy' dx', occupied (shape p) dy' dx'
    /\ (dy' < dy \/ (dy' = dy /\ dx' < dx))%nat
    /\ y p + Z.of_nat dy' = Z.of_nat r /\ x p + Z.of_nat dx' = Z.of_nat c.

(** The boards while [merge] is about to visit the cell in row [dy], column
    [dx] of the shape: the cells visited so far are written, the others are
    as they were in [b] and [bc]. *)
Definition mergedUpTo (p : Piece) (b : Board) (bc : ColorBoard) (dy dx : nat)
    (acc : Board * ColorBoard) : Prop :=
  gridDims (fst acc) /\ gridDims (snd acc)
  /\ forall r c,
       (coveredBefore p dy dx r c ->
          cellAt (fst acc) r c = Some 1
          /\ cellAt (snd acc) r c = Some (Some (color p)))
       /\ (~ coveredBefore p dy dx r c ->
          cellAt (fst acc) r c = cellAt b r c
          /\ cellAt (snd acc) r c = cellAt bc r c).

(** The bar lying on the floor of [gapBoard]'s host. *)
Definition landedBar : Piece := setY (randomPiece 0) 19.

(** A board cell is occupied exactly when its colour is set. *)
Definition cellAgrees (v : Z) (col : option string) : Prop :=
  v <> 0 <-> col <> None.

Definition coloursAgree (b : Board) (bc : ColorBoard) : Prop :=
  Forall2 (Forall2 cellAgrees) b bc.

(** What every reachable host satisfies besides [Inv]. *)
Definition Inv2 (h : Host) : Prop :=
  coloursAgree (board (state h)) (boardColors (state h))
  /\ 0 <= lines (state h)
  /\ 0 <= y (piece (state h)).

(** The pile's host once the next tick has ended the run. *)
Definition overHost : Host := gameOverStep pileHost.

(** [a <= b] on scores that are numbers, the positive infinity above all. *)
Definition scoreLe (a b : jsnum) : Prop :=
  match a, b with
  | Num v, Num w => v <= w
  | Num _, Infinity false => True
  | Infinity false, Infinity false => True
  | _, _ => False
  end.

(** A matrix of [h] rows of [w] cells. *)
Definition hasDims (m : list (list Z)) (h w : nat) : Prop :=
  length m = h /\ Forall (fun row => length row = w) m.

(** ** The transports between the controller and the display *)

(** What the pages post on the [BroadcastChannel] named
    [madx-tetris-controls]: a controller posts [{ action }], a display posts
    [{ type: 'gameState', isRunning, isPaused, isGameOver }]. *)
Inductive ChannelData : Type :=
| ActionData (action : string)
| StateData (running paused over : bool).

(** [broadcastState] of the display, called every 500 ms. *)
Definition broadcastState (st : GameState) : ChannelData :=
  StateData (isRunning st) (isPaused st) (isGameOver st).

(** [channel.onmessage] of the display: [event.data?.action] is [undefined]
    for a state message and falsy for the empty string. *)
Definition displayOnMessage (d : ChannelData) (k1 k2 : nat) (h : Host) : res Host :=
  match d with
  | ActionData action =>
      if (action =? "")%string then Ok h else handleAction action k1 k2 h
  | StateData _ _ _ => Ok h
  end.

(** The one listener of the display's socket:
    [socket.on("control", handleAction)]. *)
Definition displayOnSocket (event payload : string) (k1 k2 : nat) (h : Host)
    : res Host :=
  if (event =? "control")%string then handleAction payload k1 k2 h else Ok h.

(** The [switch (e.key)] of [handleKeyDown], which reads the same on the
    display and on the controller; [None] when no case matches. *)
Definition keyAction (key : string) : option string :=
  if (key =? "ArrowLeft")%string || (key =? "a")%string then Some "left"%string
  else if (key =? "ArrowRight")%string || (key =? "d")%string then Some "right"%string
  else if (key =? "ArrowUp")%string || (key =? "w")%string then Some "rotate"%string
  else if (key =? "ArrowDown")%string || (key =? "s")%string then Some "softdrop"%string
  else if (key =? " ")%string then Some "drop"%string
  else if (key =? "Enter")%string then Some "start"%string
  else if (key =? "Escape")%string || (key =? "p")%string then Some "pause"%string
  else None.

(** The action [handleKeyDown] passes to [sendAction], if any: a repeated
    key is dropped. *)
Definition handleKeyDown (repeat : bool) (key : string) : option string :=
  if repeat then None else keyAction key.

(** The cases of the [switch] of [handleAction]. *)
Definition handledActions : list string :=
  ["start"; "pause"; "restart"; "left"; "right"; "rotate"; "drop"; "softdrop"]%string.

Module Controller.

(** The React state of the controller page that its logic reads. *)
Record State : Type := mkState {
  isConnected : bool;
  isRunning : bool;
  isPaused : bool;
  isGameOver : bool
}.

(** What [sendAction] does to the outside, in order. *)
Inductive Out : Type :=
| SocketEmit (event payload : string)
| ChannelPost (d : ChannelData)
| Sound (name : string).

(** The state of the first render. *)
Definition firstRender : State :=
  {| isConnected := false; isRunning := false; isPaused := false;
     isGameOver := false |}.

(** [sendAction(action)], once the mount effect has set [socketRef] and
    [channelRef]; [isPaused] is the value of the last render. *)
Definition sendAction (action : string) (c : State) : list Out * State :=
  let sent := [SocketEmit "control" action; ChannelPost (ActionData action)] in
  if (action =? "start")%string then
    (sent ++ [Sound "playStartSound"],
     {| isConnected := isConnected c; isRunning := true; isPaused := false;
        isGameOver := false |})
  else if (action =? "pause")%string then
    (sent,
     {| isConnected := isConnected c; isRunning := isRunning c;
        isPaused := negb (isPaused c); isGameOver := isGameOver c |})
  else if (action =? "left")%string || (action =? "right")%string
          || (action =? "up")%string || (action =? "down")%string
          || (action =? "softdrop")%string then
    (sent ++ [Sound "playMoveSound"], c)
  else if (action =? "rotate")%string then (sent ++ [Sound "playRotateSound"], c)
  else if (action =? "drop")%string then (sent ++ [Sound "playDropSound"], c)
  else (sent, c).

(** [channel.onmessage]: only a message with [type === 'gameState'] is
    read. *)
Definition onChannelMessage (d : ChannelData) (c : State) : State :=
  match d with
  | StateData running paused over =>
      {| isConnected := true; isRunning := running; isPaused := paused;
         isGameOver := over |}
  | ActionData _ => c
  end.

(** [socket.on("gameState", ...)] *)
Definition onGameState (running paused over : bool) (c : State) : State :=
  {| isConnected := isConnected c; isRunning := running; isPaused := paused;
     isGameOver := over |}.

(** The [disabled] attribute of the direction, rotate and drop buttons. *)
Definition disabled (c : State) : bool :=
  negb (isRunning c) || isPaused c || isGameOver c.

(** The buttons of the pad with the action each sends and whether it
    carries the [disabled] attribute. *)
Definition buttons : list (string * string * bool) :=
  [ ("button-up", "up", true); ("button-down", "down", true);
    ("button-left", "left", true); ("button-right", "right", true);
    ("button-pause", "pause", false); ("button-start", "start", false);
    ("button-restart", "restart", false); ("button-rotate", "rotate", true);
    ("button-drop", "drop", true) ]%string.

End Controller.

(** The flags of the controller are those of the game state. *)
Definition flagsAgree (c : Controller.State) (st : GameState) : Prop :=
  Controller.isRunning c = isRunning st
  /\ Controller.isPaused c = isPaused st
  /\ Controller.isGameOver c = isGameOver st.

(** The display's socket listener run on the messages the relay sends it,
    in order. *)
Fixpoint socketDeliveries (msgs : list (string * string)) (k1 k2 : nat) (h : Host)
    : res Host :=
  match msgs with
  | [] => Ok h
  | (event, payload) :: rest =>
      h' <- displayOnSocket event payload k1 k2 h ;;
      socketDeliveries rest k1 k2 h'
  end.

(** What one output of the controller's [sendAction] makes the display do.
    The socket leg goes through the relay's [control] handler, the one event
    the relay listens to, and the display is sent what [Relay.delivered]
    says; the channel leg reaches the display when both pages are open in
    the same browser.  [k1] and [k2] are the draws of the call of
    [handleAction], if one is made. *)
Definition displayReceives (srv : Relay.Server) (pad display : Relay.SocketId)
    (sameBrowser : bool) (out : Controller.Out) (k1 k2 : nat) (h : Host)
    : res Host :=
  match out with
  | Controller.SocketEmit event payload =>
      if (event =? "control")%string then
        socketDeliveries
          (Relay.delivered display (snd (Relay.onControl srv pad payload))) k1 k2 h
      else Ok h
  | Controller.ChannelPost d =>
      if sameBrowser then displayOnMessage d k1 k2 h else Ok h
  | Controller.Sound _ => Ok h
  end.

(** One press on the controller, seen from the display: the outputs of
    [sendAction] in order, with the draws [ks] of the calls they lead to. *)
Fixpoint displayRuns (srv : Relay.Server) (pad display : Relay.SocketId)
    (sameBrowser : bool) (outs : list Controller.Out) (ks : list (nat * nat))
    (h : Host) : res Host :=
  match outs, ks with
  | [], _ => Ok h
  | out :: outs', (k1, k2) :: ks' =>
      h' <- displayReceives srv pad display sameBrowser out k1 k2 h ;;
      displayRuns srv pad display sameBrowser outs' ks' h'
  | out :: outs', [] =>
      h' <- displayReceives srv pad display sameBrowser out 0 0 h ;;
      displayRuns srv pad display sameBrowser outs' [] h'
  end.

(** A relay with the display and one controller connected. *)
Definition pairServer : Relay.Server :=
  {| Relay.connected := ["display"; "pad"]%string |}.

(** ** The background music of [lib/sounds]

    The module keeps [isMusicPlaying], [musicNoteIndex] and [musicInterval],
    the handle of the last timeout it made.  [pending] are the timeouts of
    the page that will call [playMusicNote], each with its handle and its
    delay in milliseconds; [sounded] are the frequencies of the oscillators
    started so far, the first one first. *)
Module Music.

(** [musicNotes]: frequency in Hz and [dur * 1000], the delay to the next
    note in milliseconds; frequency 0 is a rest. *)
Definition musicNotes : list (Z * Z) :=
  [ (659, 200); (494, 100); (523, 100); (587, 200); (523, 100); (494, 100);
    (440, 200); (440, 100); (523, 100); (659, 200); (587, 100); (523, 100);
    (494, 300); (523, 100); (587, 200); (659, 200); (523, 200); (440, 200);
    (440, 300); (0, 200); (587, 200); (698, 100); (880, 200); (784, 100);
    (698, 100); (659, 300); (523, 100); (659, 200); (587, 100); (523, 100);
    (494, 200); (494, 100); (523, 100); (587, 200); (659, 200); (523, 200);
    (440, 200); (440, 300); (0, 300) ].

Record State : Type := mkState {
  isMusicPlaying : bool;
  musicNoteIndex : nat;
  musicInterval : option positive;
  pending : list (positive * Z);
  nextHandle : positive;
  sounded : list Z
}.

(** The module as loaded. *)
Definition loaded : State :=
  {| isMusicPlaying := false; musicNoteIndex := 0; musicInterval := None;
     pending := []; nextHandle := 1%positive; sounded := [] |}.

(** [playMusicNote()].  [audio] tells whether the Web Audio calls of the
    [try] block go through; when one raises, or when there is no note at the
    index, the [catch] swallows it before the index moves and before the
    next note is scheduled. *)
Definition playMusicNote (audio : bool) (s : State) : State :=
  if negb (isMusicPlaying s) then s
  else if negb audio then s
  else
    match nth_error musicNotes (musicNoteIndex s) with
    | None => s
    | Some (freq, dur) =>
        {| isMusicPlaying := isMusicPlaying s;
           musicNoteIndex := (musicNoteIndex s + 1) mod length musicNotes;
           musicInterval := Some (nextHandle s);
           pending := (nextHandle s, dur) :: pending s;
           nextHandle := Pos.succ (nextHandle s);
           sounded := if freq >? 0 then sounded s ++ [freq] else sounded s |}
    end.

Definition startBackgroundMusic (audio : bool) (s : State) : State :=
  if isMusicPlaying s then s
  else
    playMusicNote audio
      {| isMusicPlaying := true; musicNoteIndex := 0;
         musicInterval := musicInterval s; pending := pending s;
         nextHandle := nextHandle s; sounded := sounded s |}.

Definition stopBackgroundMusic (s : State) : State :=
  match musicInterval s with
  | Some id =>
      {| isMusicPlaying := false; musicNoteIndex := musicNoteIndex s;
         musicInterval := None;
         pending := filter (fun t => negb (fst t =? id)%positive) (pending s);
         nextHandle := nextHandle s; sounded := sounded s |}
  | None =>
      {| isMusicPlaying := false; musicNoteIndex := musicNoteIndex s;
         musicInterval := None; pending := pending s;
         nextHandle := nextHandle s; sounded := sounded s |}
  end.

Definition isMusicActive (s : State) : bool := isMusicPlaying s.

(** A timeout that comes due leaves the pending ones and runs its
    callback. *)
Definition expire (id : positive) (s : State) : State :=
  {| isMusicPlaying := isMusicPlaying s; musicNoteIndex := musicNoteIndex s;
     musicInterval := musicInterval s;
     pending := filter (fun t => negb (fst t =? id)%positive) (pending s);
     nextHandle := nextHandle s; sounded := sounded s |}.

Inductive Trigger : Type :=
| Start (audio : bool)
| Stop
| NoteDue (id : positive) (audio : bool).

Definition enabled (e : Trigger) (s : State) : Prop :=
  match e with
  | NoteDue id _ => exists delay, In (id, delay) (pending s)
  | _ => True
  end.

Definition step (e : Trigger) (s : State) : State :=
  match e with
  | Start audio => startBackgroundMusic audio s
  | Stop => stopBackgroundMusic s
  | NoteDue id audio => playMusicNote audio (expire id s)
  end.

Inductive reached : State -> Prop :=
| reached_loaded : reached loaded
| reached_step (s : State) (e : Trigger) :
    reached s -> enabled e s -> reached (step e s).

(** The pending timeout comes due [n] times in a row, the audio working. *)
Fixpoint playOn (n : nat) (s : State) : State :=
  match n with
  | O => s
  | S n' =>
      match pending s with
      | (id, _) :: _ => playOn n' (step (NoteDue id true) s)
      | [] => s
      end
  end.

(** The frequencies of [n] notes of the melody from index [i] on, going
    round the table, the rests left out. *)
Definition melody (i n : nat) : list Z :=
  filter (fun freq => freq >? 0)
    (map (fun j => fst (nth ((i + j) mod length musicNotes) musicNotes (0, 0)))
         (seq 0 n)).

(** What holds of the module at every point. *)
Definition Wf (s : State) : Prop :=
  (musicNoteIndex s < length musicNotes)%nat
  /\ (pending s = []
      \/ exists id delay,
           pending s = [(id, delay)] /\ musicInterval s = Some id
           /\ isMusicPlaying s = true).

End Music.

(** ** The music calls of the display

    The display turns the music on and off as it goes: [startGame] calls
    [startBackgroundMusic], [pauseGame] calls [stopBackgroundMusic] when it
    pauses and [startBackgroundMusic] when it resumes, and [drop] calls
    [stopBackgroundMusic] in its game-over branch.  The functions below give
    the calls each handler makes on a host, in order, following the
    branches of the handler. *)
Inductive MusicCall : Type :=
| StartMusic
| StopMusic.

Definition drop_music (h : Host) : list MusicCall :=
  let st := state h in
  if isPaused st || isGameOver st then []
  else if collide (setY (piece st) (y (piece st) + 1)) (board st) then
    if y (piece st) <=? 0 then [StopMusic] else []
  else [].

Definition pauseGame_music (h : Host) : list MusicCall :=
  let st := state h in
  if negb (isRunning st) || isGameOver st then []
  else if negb (isPaused st) then [StopMusic] else [StartMusic].

Definition hardDrop_music (h : Host) : list MusicCall :=
  let st := state h in
  if negb (isRunning st) || isPaused st || isGameOver st then []
  else
    match hardDrop_loop (Z.to_nat (ROWS - y (piece st)) + 1) st with
    | Ok st' => drop_music (setState h st')
    | _ => []
    end.

Definition handleAction_music (action : string) (h : Host) : list MusicCall :=
  if (action =? "start")%string then [StartMusic]
  else if (action =? "pause")%string then pauseGame_music h
  else if (action =? "restart")%string then []
  else if (action =? "left")%string then []
  else if (action =? "right")%string then []
  else if (action =? "rotate")%string then []
  else if (action =? "drop")%string then hardDrop_music h
  else if (action =? "softdrop")%string then drop_music h
  else [].

Definition handle_music (e : Event) (h : Host) : list MusicCall :=
  match e with
  | Action action => handleAction_music action h
  | Tick _ => drop_music h
  end.

Definition applyCall (audio : bool) (m : Music.State) (c : MusicCall) : Music.State :=
  match c with
  | StartMusic => Music.startBackgroundMusic audio m
  | StopMusic => Music.stopBackgroundMusic m
  end.

Definition applyCalls (audio : bool) (calls : list MusicCall) (m : Music.State)
    : Music.State :=
  fold_left (applyCall audio) calls m.

(** The display page with its music: an event of the game runs its handler
    and the music calls the handler makes; a note of the music comes due;
    the cleanup of the transport effect runs, which calls nothing of the
    music. *)
Inductive pageReachable : Host -> Music.State -> Prop :=
| page_init (k1 k2 : nat) :
    (k1 < 7)%nat -> (k2 < 7)%nat -> pageReachable (initialHost k1 k2) Music.loaded
| page_game (h h' : Host) (m : Music.State) (e : Event) (k1 k2 : nat) (audio : bool) :
    pageReachable h m -> fires e h -> (k1 < 7)%nat -> (k2 < 7)%nat ->
    handle e k1 k2 h = Ok h' ->
    pageReachable h' (applyCalls audio (handle_music e h) m)
| page_note (h : Host) (m : Music.State) (id : positive) (audio : bool) :
    pageReachable h m -> Music.enabled (Music.NoteDue id audio) m ->
    pageReachable h (Music.step (Music.NoteDue id audio) m)
| page_cleanup (h : Host) (m : Music.State) :
    pageReachable h m -> pageReachable (effectCleanup h) m.

(** ** The network address of [server/routes.ts] and the home page *)
Module Network.

(** An entry of [os.networkInterfaces()], as far as the server reads it. *)
Record Interface : Type := mkInterface {
  family : string;
  internal : bool;
  address : string
}.

(** [networkInterfaces()]: the names in the order of [Object.keys], each
    with [nets[name]], [None] for [undefined]. *)
Definition Nets := list (string * option (list Interface)).

Definition external (net : Interface) : bool :=
  (family net =? "IPv4")%string && negb (internal net).

(** The inner [for ... of] loop. *)
Fixpoint firstExternal (l : list Interface) : option string :=
  match l with
  | [] => None
  | net :: rest => if external net then Some (address net) else firstExternal rest
  end.

Fixpoint getLocalNetworkAddress (nets : Nets) : option string :=
  match nets with
  | [] => None
  | (_, entry) :: rest =>
      match firstExternal (match entry with Some l => l | None => [] end) with
      | Some a => Some a
      | None => getLocalNetworkAddress rest
      end
  end.

(** The body of the answer to [GET /api/network-info]. *)
Record Info : Type := mkInfo {
  localIP : option string;
  port : string;
  connectionUrl : option string
}.

(** [envPort] is [process.env.PORT]; [port] is kept as the text the template
    string and the JSON number or string show. *)
Definition networkInfo (nets : Nets) (envPort : option string) : Info :=
  let ip := getLocalNetworkAddress nets in
  let p := match envPort with
           | Some v => if (v =? "")%string then "5000"%string else v
           | None => "5000"%string
           end in
  {| localIP := ip;
     port := p;
     connectionUrl :=
       match ip with
       | Some a =>
           if (a =? "")%string then None
           else Some ("http://" ++ a ++ ":" ++ p)%string
       | None => None
       end |}.

(** The home page: [networkInfo] is [None] until the answer has come and
    when the request failed; the panel with the address is rendered when
    [networkInfo?.connectionUrl] is truthy. *)
Definition panelShown (info : option Info) : option string :=
  match info with
  | Some i =>
      match connectionUrl i with
      | Some url => if (url =? "")%string then None else Some url
      | None => None
      end
  | None => None
  end.

(** All the entries in the order the loops visit them. *)
Definition visited (nets : Nets) : list Interface :=
  flat_map (fun e => match snd e with Some l => l | None => [] end) nets.

(** A host with a loopback, an IPv6 and two IPv4 addresses. *)
Definition sampleNets : Nets :=
  [ ("lo", Some [ {| family := "IPv4"; internal := true; address := "127.0.0.1" |} ]);
    ("eth0", Some [ {| family := "IPv6"; internal := false; address := "fe80::1" |};
                    {| family := "IPv4"; internal := false; address := "192.168.1.20" |} ]);
    ("wlan0", Some [ {| family := "IPv4"; internal := false; address := "10.0.0.7" |} ]) ]%string.

End Network.

(** The piece of [st] can fall through [d] rows and no further. *)
Definition descends (st : GameState) (d : Z) : Prop :=
  0 <= d
  /\ (forall j, 1 <= j <= d ->
        collide (setY (piece st) (y (piece st) + j)) (board st) = false)
  /\ collide (setY (piece st) (y (piece st) + d + 1)) (board st) = true.

(** [gapHost] with a score of [2 ^ 54], where the doubles are 4 apart. *)
Definition bigHost : Host :=
  setState gapHost (setScore (state gapHost) (Num (2 ^ 54))).

(** The host after 99 soft drops from the first render, every draw the
    square and no run ever started: nine squares are piled in columns 4 and
    5 and the tenth sits at the top. *)
Definition idleHost : Host :=
  match run (repeat (Action "softdrop", 1, 1)%nat 99) (initialHost 1 1) with
  | Ok h => h
  | _ => initialHost 1 1
  end.

(** The host when the run of [overHost] has been started again and the
    cleanup of the transport effect has then run: the reference holds the
    handle of the new timer, which the cleanup has stopped. *)
Definition staleHost : Host := effectCleanup (startGame 1 1 overHost).

(** The music along a run of events from [h], the audio working. *)
Fixpoint runMusic (evs : list (Event * nat * nat)) (h : Host) (m : Music.State)
    : Music.State :=
  match evs with
  | [] => m
  | (e, k1, k2) :: rest =>
      match handle e k1 k2 h with
      | Ok h' => runMusic rest h' (applyCalls true (handle_music e h) m)
      | _ => m
      end
  end.

(** The music that goes with [staleHost]: the pile is built, a tick ends
    the run, and the run is started again. *)
Definition staleMusic : Music.State :=
  applyCalls true (handle_music (Action "start") overHost)
    (applyCalls true (handle_music (Tick 1) pileHost)
       (runMusic pileEvents (initialHost 1 1) Music.loaded)).

(** * Properties *)

(** ** Doubles *)

Lemma ulp_pos (z : Z) : 0 < ulp z.
Proof. unfold ulp. apply Z.pow_pos_nonneg; lia. Qed.

Lemma roundEven_cases (z : Z) :
  roundEven z = z / ulp z * ulp z \/ roundEven z = (z / ulp z + 1) * ulp z.
Proof.
  unfold roundEven. cbv zeta.
  destruct (2 * (z mod ulp z) <? ulp z); [now left|].
  destruct (ulp z <? 2 * (z mod ulp z)); [now right|].
  destruct (Z.even (z / ulp z)); auto.
Qed.

Lemma roundEven_multiple (z : Z) : z mod ulp z = 0 -> roundEven z = z.
Proof.
  intros E. pose proof (ulp_pos z) as U. unfold roundEven. cbv zeta. rewrite E.
  replace (2 * 0 <? ulp z) with true by (symmetry; apply Z.ltb_lt; lia).
  pose proof (Z.div_mod z (ulp z)). lia.
Qed.

Lemma roundEven_safe (z : Z) : Z.abs z < 2 ^ 53 -> roundEven z = z.
Proof.
  intros B. apply roundEven_multiple.
  assert (E : ulp z = 1).
  { unfold ulp. destruct (Z.eq_dec z 0) as [->|N]; [reflexivity|].
    assert (Z.log2 (Z.abs z) < 53) by (apply Z.log2_lt_pow2; lia).
    now replace (Z.max 0 (Z.log2 (Z.abs z) - 52)) with 0 by lia. }
  rewrite E. apply Z.mod_1_r.
Qed.

Lemma floor_le (z : Z) : z / ulp z * ulp z <= z.
Proof.
  pose proof (ulp_pos z). pose proof (Z.div_mod z (ulp z)).
  pose proof (Z.mod_pos_bound z (ulp z)). lia.
Qed.

Lemma roundEven_floor (z : Z) : z / ulp z * ulp z <= roundEven z.
Proof.
  pose proof (ulp_pos z). destruct (roundEven_cases z) as [-> | ->]; lia.
Qed.

Lemma pow2_divide (a b : Z) : 0 <= a <= b -> (2 ^ b) mod (2 ^ a) = 0.
Proof.
  intros R. replace b with ((b - a) + a) by lia.
  rewrite Z.pow_add_r by lia. apply Z.mod_mul.
  apply Z.pow_nonzero; lia.
Qed.

(** The doubles below and above a positive [z] lie between the powers of 2
    around it. *)
Lemma roundEven_window (z : Z) :
  0 < z ->
  let k := Z.log2 z in
  2 ^ k <= z / ulp z * ulp z /\ (z / ulp z + 1) * ulp z <= 2 ^ (k + 1).
Proof.
  intros P k. pose proof (ulp_pos z) as U.
  destruct (Z.log2_spec z P) as [Lo Hi]. fold k in Lo, Hi.
  assert (K : 0 <= k) by apply Z.log2_nonneg.
  assert (E : ulp z = 2 ^ Z.max 0 (k - 52)).
  { unfold ulp. now rewrite Z.abs_eq by lia. }
  set (e := Z.max 0 (k - 52)) in *.
  assert (D1 : 2 ^ k mod ulp z = 0) by (rewrite E; apply pow2_divide; lia).
  assert (D2 : 2 ^ (k + 1) mod ulp z = 0) by (rewrite E; apply pow2_divide; lia).
  apply Z.mod_divide in D1; [|lia]. apply Z.mod_divide in D2; [|lia].
  destruct D1 as [m1 M1]. destruct D2 as [m2 M2].
  replace (Z.succ k) with (k + 1) in Hi by lia.
  split.
  - rewrite M1. apply Z.mul_le_mono_nonneg_r; [lia|].
    apply Z.div_le_lower_bound; lia.
  - rewrite M2. apply Z.mul_le_mono_nonneg_r; [lia|].
    assert (z / ulp z < m2); [|lia].
    apply Z.div_lt_upper_bound; lia.
Qed.

Lemma roundEven_nonneg (z : Z) : 0 <= z -> 0 <= roundEven z.
Proof.
  intros P. pose proof (roundEven_floor z). pose proof (ulp_pos z).
  assert (0 <= z / ulp z) by (apply Z.div_pos; lia). nia.
Qed.

Lemma roundEven_idem (z : Z) : 0 <= z -> roundEven (roundEven z) = roundEven z.
Proof.
  intros P. destruct (Z.eq_dec z 0) as [->|N]; [reflexivity|].
  assert (Pz : 0 < z) by lia.
  pose proof (roundEven_window z Pz) as [W1 W2]. cbv zeta in W1, W2.
  pose proof (ulp_pos z) as U.
  set (k := Z.log2 z) in *.
  assert (K : 0 <= k) by apply Z.log2_nonneg.
  assert (Pk : 0 < 2 ^ k) by (apply Z.pow_pos_nonneg; lia).
  assert (E : ulp z = 2 ^ Z.max 0 (k - 52)).
  { unfold ulp. now rewrite Z.abs_eq by lia. }
  set (r := roundEven z).
  assert (Rr : 2 ^ k <= r <= 2 ^ (k + 1)).
  { unfold r. destruct (roundEven_cases z) as [-> | ->]; lia. }
  assert (Mr : r mod ulp z = 0).
  { unfold r. destruct (roundEven_cases z) as [-> | ->]; apply Z.mod_mul; lia. }
  apply roundEven_multiple.
  destruct (Z.eq_dec r (2 ^ (k + 1))) as [Top|NT].
  - rewrite Top. unfold ulp. rewrite Z.abs_eq by (apply Z.pow_nonneg; lia).
    rewrite Z.log2_pow2 by lia. apply pow2_divide. lia.
  - assert (L : Z.log2 r = k).
    { apply Z.log2_unique; [lia|]. replace (Z.succ k) with (k + 1) by lia. lia. }
    replace (ulp r) with (ulp z); [exact Mr|].
    unfold ulp at 2. rewrite Z.abs_eq by lia. rewrite L. exact E.
Qed.

Lemma roundEven_above (s z : Z) :
  0 <= s -> roundEven s = s -> s <= z -> s <= roundEven z.
Proof.
  intros P Rs Le. destruct (Z.eq_dec s 0) as [->|N].
  - apply roundEven_nonneg. lia.
  - assert (Ps : 0 < s) by lia. assert (Pz : 0 < z) by lia.
    pose proof (roundEven_floor z) as F.
    pose proof (roundEven_window z Pz) as [W1 _]. cbv zeta in W1.
    destruct (Z.log2_spec s Ps) as [_ Hs].
    pose proof (Z.log2_le_mono s z Le) as Lm.
    destruct (Z.eq_dec (Z.log2 s) (Z.log2 z)) as [Eq|Ne].
    + assert (Eu : ulp s = ulp z).
      { unfold ulp. rewrite !Z.abs_eq by lia. now rewrite Eq. }
      assert (Ms : s mod ulp z = 0).
      { assert (M0 : roundEven s mod ulp s = 0)
          by (destruct (roundEven_cases s) as [-> | ->]; apply Z.mod_mul;
              pose proof (ulp_pos s); lia).
        now rewrite Rs, Eu in M0. }
      pose proof (ulp_pos z) as U.
      apply Z.mod_divide in Ms; [|lia]. destruct Ms as [m M].
      assert (m <= z / ulp z) by (apply Z.div_le_lower_bound; lia).
      assert (s <= z / ulp z * ulp z) by (rewrite M; nia). lia.
    + assert (2 ^ Z.succ (Z.log2 s) <= 2 ^ Z.log2 z)
        by (apply Z.pow_le_mono_r; lia).
      lia.
Qed.

Lemma pow2_53_1024 : 2 ^ 53 < 2 ^ 1024.
Proof. apply Z.pow_lt_mono_r; lia. Qed.

Lemma toDouble_safe (z : Z) : safeInteger z -> toDouble z = Num z.
Proof.
  intros S. unfold safeInteger in S. pose proof pow2_53_1024 as B.
  unfold toDouble. cbv zeta. rewrite roundEven_safe by lia.
  replace (2 ^ 1024 <=? Z.abs z) with false; [reflexivity|].
  symmetry. apply Z.leb_gt. lia.
Qed.

Lemma toDouble_ok (z : Z) : 0 <= z -> scoreOk (toDouble z).
Proof.
  intros P. pose proof (roundEven_nonneg z P) as N.
  unfold toDouble. cbv zeta.
  destruct (Z.leb_spec (2 ^ 1024) (Z.abs (roundEven z))) as [L|L]; cbn [scoreOk].
  - apply Z.ltb_ge. exact N.
  - split; [exact N|]. split; [now apply roundEven_idem | exact L].
Qed.

Lemma scoreOk_safe (v : Z) : 0 <= v < 2 ^ 53 -> scoreOk (Num v).
Proof.
  intros R. pose proof pow2_53_1024. cbn [scoreOk]. split; [lia|].
  split; [apply roundEven_safe; lia | lia].
Qed.

Lemma jadd_ok (a b : jsnum) : scoreOk a -> scoreOk b -> scoreOk (jadd a b).
Proof.
  destruct a as [u| |n], b as [v| |n']; cbn [scoreOk jadd]; try tauto.
  - intros [Pu _] [Pv _]. apply toDouble_ok. lia.
  - intros -> ->. reflexivity.
Qed.

Lemma iter_add2_ok (n : nat) (s : jsnum) :
  scoreOk s -> scoreOk (Nat.iter n (fun a => jadd a (Num 2)) s).
Proof.
  intros S. induction n as [|n IH]; [exact S|]. rewrite Nat.iter_succ.
  apply jadd_ok; [exact IH|]. apply scoreOk_safe.
  split; [lia|]. now apply (Z.pow_lt_mono_r 2 1 53).
Qed.

Lemma iter_add2_safe (n : nat) (s : Z) :
  safeInteger s -> safeInteger (s + 2 * Z.of_nat n) ->
  Nat.iter n (fun a => jadd a (Num 2)) (Num s) = Num (s + 2 * Z.of_nat n).
Proof.
  unfold safeInteger. intros S. induction n as [|n IH]; intros T.
  - change (Num s = Num (s + 2 * Z.of_nat 0)). f_equal. lia.
  - rewrite Nat.iter_succ, IH by lia. cbn [jadd].
    rewrite toDouble_safe by (unfold safeInteger; lia). f_equal. lia.
Qed.

Lemma hardDrop_score_step (n : nat) (s : jsnum) :
  Nat.iter n (fun a => jadd a (Num 2)) (jadd s (Num 2))
  = Nat.iter (S n) (fun a => jadd a (Num 2)) s.
Proof.
  induction n as [|n IH]; [reflexivity|].
  rewrite (Nat.iter_succ (S n)), <- IH. apply Nat.iter_succ.
Qed.

(** ** Lists *)

Lemma repeat_shift {A : Type} (a : A) (n : nat) (l : list A) :
  repeat a n ++ a :: l = repeat a (n + 1) ++ l.
Proof.
  induction n as [|n IH]; simpl.
  - reflexivity.
  - now rewrite IH.
Qed.

Lemma splice1_middle {A : Type} (l1 l2 : list A) (a : A) :
  splice1 (length l1) (l1 ++ a :: l2) = l1 ++ l2.
Proof.
  unfold splice1.
  induction l1 as [|b l1 IH]; simpl.
  - reflexivity.
  - simpl in IH. now rewrite IH.
Qed.

Lemma nth_error_middle {A : Type} (l1 l2 : list A) (a : A) :
  nth_error (l1 ++ a :: l2) (length l1) = Some a.
Proof.
  induction l1 as [|b l1 IH]; simpl; auto.
Qed.

Lemma snoc_cases {A : Type} (l : list A) :
  l = [] \/ exists l' a, l = l' ++ [a].
Proof.
  destruct l as [|b l].
  - now left.
  - right. destruct (exists_last (l := b :: l)) as (l' & a & E); [discriminate|].
    now exists l', a.
Qed.

(** ** Line clearing *)

Lemma fullRow_emptyRow : fullRow emptyRow = false.
Proof. reflexivity. Qed.

Lemma countFull_app (b1 b2 : Board) :
  countFull (b1 ++ b2) = (countFull b1 + countFull b2)%nat.
Proof.
  unfold countFull. now rewrite filter_app, length_app.
Qed.

Lemma countFull_le (b : Board) : (countFull b <= length b)%nat.
Proof. apply filter_length_le. Qed.

Lemma keepColors_app (b1 b2 : Board) (c1 c2 : ColorBoard) :
  length c1 = length b1 ->
  keepColors (b1 ++ b2) (c1 ++ c2) = keepColors b1 c1 ++ keepColors b2 c2.
Proof.
  revert c1.
  induction b1 as [|row b1 IH]; intros [|crow c1] L; simpl in *; try discriminate.
  - reflexivity.
  - injection L as L. rewrite (IH _ L). now destruct (fullRow row).
Qed.

(** The loop, started at the last row of [top] with [bot] below it, clears
    the full rows of [top] and leaves [bot] alone. *)
Lemma clearLines_loop_spec (fuel : nat) :
  forall (top bot : Board) (ctop cbot : ColorBoard) (n : Z),
    length ctop = length top ->
    (countFull top + length top < fuel)%nat ->
    clearLines_loop fuel (Z.of_nat (length top) - 1) (top ++ bot) (ctop ++ cbot) n
    = Ok (n + Z.of_nat (countFull top),
          repeat emptyRow (countFull top) ++ filter notFull top ++ bot,
          repeat emptyColorRow (countFull top) ++ keepColors top ctop ++ cbot).
Proof.
  induction fuel as [|fuel IH]; intros top bot ctop cbot n L F; [lia|].
  destruct (snoc_cases top) as [-> | (init & row & ->)].
  - destruct ctop; [|discriminate]. simpl.
    now rewrite Z.add_0_r.
  - destruct (snoc_cases ctop) as [-> | (cinit & crow & ->)].
    { rewrite length_app in L. simpl in L. lia. }
    rewrite !length_app in L. simpl in L.
    assert (Li : length cinit = length init) by lia.
    rewrite length_app in *. simpl length in *.
    rewrite countFull_app in *.
    replace (Z.of_nat (length init + 1) - 1) with (Z.of_nat (length init)) by lia.
    cbn [clearLines_loop].
    replace (Z.of_nat (length init) >=? 0) with true by (symmetry; apply Z.geb_le; lia).
    rewrite Nat2Z.id.
    rewrite <- !app_assoc. simpl app.
    rewrite nth_error_middle.
    rewrite filter_app, keepColors_app by exact Li.
    replace (splice1 (length init) (cinit ++ crow :: cbot)) with (cinit ++ cbot)
      by (rewrite <- Li; symmetry; apply splice1_middle).
    rewrite splice1_middle.
    assert (C1 : countFull [row] = if fullRow row then 1%nat else 0%nat)
      by (unfold countFull; simpl; now destruct (fullRow row)).
    rewrite C1 in *. unfold notFull at 2. simpl filter. simpl keepColors.
    destruct (fullRow row) eqn:Frow.
    + specialize (IH (emptyRow :: init) bot (emptyColorRow :: cinit) cbot (n + 1)).
      simpl length in IH. simpl app in IH.
      replace (Z.of_nat (S (length init)) - 1) with (Z.of_nat (length init)) in IH by lia.
      assert (C2 : countFull (emptyRow :: init) = countFull init)
        by reflexivity.
      rewrite C2 in IH.
      rewrite IH by (simpl; lia).
      simpl negb. cbv iota. rewrite !app_nil_r, !repeat_shift.
      do 3 f_equal. lia.
    + specialize (IH init (row :: bot) cinit (crow :: cbot) n Li).
      rewrite IH by lia.
      rewrite !Nat.add_0_r. simpl negb. cbv iota.
      rewrite <- !app_assoc. reflexivity.
Qed.

Lemma countFull_splice1 (b : Board) (i : nat) (row : Row) :
  nth_error b i = Some row -> fullRow row = true ->
  (countFull (splice1 i b) + 1 = countFull b)%nat.
Proof.
  intros E F.
  destruct (nth_error_split _ _ E) as (l1 & l2 & -> & <-).
  rewrite splice1_middle, !countFull_app.
  assert (C : countFull (row :: l2) = S (countFull l2))
    by (unfold countFull; simpl; now rewrite F).
  lia.
Qed.

Lemma clearLines_loop_returns (fuel : nat) :
  forall (y : Z) (b : Board) (bc : ColorBoard) (n : Z),
    (countFull b + Z.to_nat (y + 1) < fuel)%nat ->
    clearLines_loop fuel y b bc n <> OutOfFuel.
Proof.
  induction fuel as [|fuel IH]; intros y b bc n F; [lia|].
  cbn [clearLines_loop].
  destruct (y >=? 0) eqn:Y; [|discriminate].
  apply Z.geb_le in Y.
  destruct (nth_error b (Z.to_nat y)) as [row|] eqn:E; [|discriminate].
  destruct (fullRow row) eqn:Frow.
  - apply IH.
    pose proof (countFull_splice1 _ _ _ E Frow) as C.
    change (countFull (emptyRow :: splice1 (Z.to_nat y) b))
      with (countFull (splice1 (Z.to_nat y) b)).
    lia.
  - apply IH. lia.
Qed.

Lemma clearLines_returns (b : Board) (bc : ColorBoard) :
  clearLines b bc <> OutOfFuel.
Proof.
  apply clearLines_loop_returns.
  pose proof (countFull_le b). change (Z.to_nat (ROWS - 1 + 1)) with (Z.to_nat ROWS).
  lia.
Qed.

Lemma clearLines_spec (b : Board) (bc : ColorBoard) :
  length b = Z.to_nat ROWS -> length bc = Z.to_nat ROWS ->
  clearLines b bc
  = Ok (Z.of_nat (countFull b),
        repeat emptyRow (countFull b) ++ filter notFull b,
        repeat emptyColorRow (countFull b) ++ keepColors b bc).
Proof.
  intros Lb Lc.
  pose proof (clearLines_loop_spec (length b + Z.to_nat ROWS + 1) b [] bc [] 0) as S.
  rewrite !app_nil_r in S. unfold clearLines.
  replace (ROWS - 1) with (Z.of_nat (length b) - 1) by (rewrite Lb; reflexivity).
  rewrite S.
  - reflexivity.
  - congruence.
  - pose proof (countFull_le b). lia.
Qed.

(** C3.  On a board of [ROWS] rows of which exactly [k] are full (any [k],
    so in particular [0 <= k <= 4]), [clearLines] returns [k]; the board it leaves
    is [k] fresh empty rows on top of the rows that were not full, in their
    old order, and the colour board is cut the same way. *)
Theorem clearLines_correct (b : Board) (bc : ColorBoard) (k : nat) :
  length b = Z.to_nat ROWS -> length bc = Z.to_nat ROWS ->
  countFull b = k ->
  clearLines b bc
  = Ok (Z.of_nat k,
        repeat emptyRow k ++ filter notFull b,
        repeat emptyColorRow k ++ keepColors b bc).
Proof.
  intros Lb Lc <-. now apply clearLines_spec.
Qed.

Lemma clearLines_correct_witness :
  countFull sampleBoard = 2%nat /\
  clearLines sampleBoard sampleColors
  = Ok (2,
        repeat emptyRow 2 ++ filter notFull sampleBoard,
        repeat emptyColorRow 2 ++ keepColors sampleBoard sampleColors).
Proof.
  split; [reflexivity|].
  apply (clearLines_correct sampleBoard sampleColors 2); reflexivity.
Defined.

Example clearLines_sample :
  clearLines sampleBoard sampleColors
  = Ok (2,
        repeat emptyRow 19 ++ [[0; 0; 0; 1; 0; 0; 0; 0; 0; 0]],
        repeat emptyColorRow 19 ++ [repeat (Some "#a855f7"%string) 10]).
Proof. reflexivity. Qed.

(** ** Rotation *)

Lemma map_via_seq {A B : Type} (f : A -> B) (d : A) (l : list A) :
  map f l = map (fun i => f (nth i l d)) (seq 0 (length l)).
Proof.
  induction l as [|a l IH]; simpl.
  - reflexivity.
  - f_equal. rewrite <- seq_shift, map_map. exact IH.
Qed.

Lemma zipCons_seq (row : list Z) :
  forall (g : nat -> list Z),
    zipCons row (map g (seq 0 (length row)))
    = map (fun i => nth i row 0 :: g i) (seq 0 (length row)).
Proof.
  induction row as [|v row IH]; intros g; simpl.
  - reflexivity.
  - f_equal. rewrite <- seq_shift, !map_map. apply IH.
Qed.

Lemma transpose_columns (m : list (list Z)) :
  rectangular m ->
  transpose m = map (fun i => map (fun row => nth i row 0) m) (seq 0 (length (hd [] m))).
Proof.
  intros [NE R].
  induction m as [|row rest IH]; [congruence|].
  simpl hd in *.
  destruct rest as [|row' rest].
  - simpl. apply (map_via_seq (fun v => [v]) 0 row).
  - assert (E : length row' = length row).
    { inversion R as [|? ? _ R']. inversion R' as [|? ? E _]. exact E. }
    change (transpose (row :: row' :: rest))
      with (zipCons row (transpose (row' :: rest))).
    rewrite IH.
    + simpl hd. rewrite E. rewrite zipCons_seq. reflexivity.
    + discriminate.
    + simpl hd. inversion R as [|? ? _ R']. rewrite E.
      exact R'.
Qed.

Lemma rotated_is_clockwise (m : list (list Z)) :
  rectangular m -> rotatedCells m = rotateClockwise m.
Proof.
  intros R. unfold rotateClockwise, rotatedCells.
  rewrite (transpose_columns m R), map_map. reflexivity.
Qed.

(** The turn is the clockwise one: row [i] of the turned matrix is column
    [i] of the old one read from the bottom row up. *)
Lemma rotateClockwise_cell (m : list (list Z)) (i j : nat) :
  rectangular m -> (i < length (hd [] m))%nat -> (j < length m)%nat ->
  nth j (nth i (rotateClockwise m) []) 0
  = nth i (nth (length m - 1 - j) m []) 0.
Proof.
  intros R I J. rewrite <- (rotated_is_clockwise m R). unfold rotatedCells.
  set (f := fun k : nat => rev (map (fun row : list Z => nth k row 0) m)).
  rewrite (nth_indep _ [] (f O)) by (rewrite length_map, length_seq; exact I).
  rewrite map_nth, seq_nth by exact I. simpl Nat.add. unfold f.
  rewrite rev_nth by (rewrite length_map; exact J).
  rewrite length_map.
  replace (length m - S j)%nat with (length m - 1 - j)%nat by lia.
  transitivity (nth (length m - 1 - j) (map (fun row : list Z => nth i row 0) m)
                    (nth i [] 0)).
  - apply nth_indep. rewrite length_map. lia.
  - apply (map_nth (fun row : list Z => nth i row 0)).
Qed.

Example rotateClockwise_T :
  rotateClockwise [[0; 1; 0]; [1; 1; 1]] = [[1; 0]; [1; 1]; [1; 0]].
Proof. reflexivity. Qed.

Lemma setX_same (p : Piece) : setX p (x p + 0) = p.
Proof. destruct p. unfold setX. simpl. now rewrite Z.add_0_r. Qed.

(** C4.  In a running, unpaused run that is not over, [rotate] turns the cell
    matrix of the active piece clockwise (its transpose with every row
    reversed), tries it at the origin and then at the horizontal offsets
    -1, +1, -2, +2 in this order, takes the first placement that does not
    collide, and leaves the whole host as it was when all five collide. *)
Theorem rotate_wall_kick (h : Host) :
  isRunning (state h) = true -> isPaused (state h) = false ->
  isGameOver (state h) = false ->
  rectangular (shape (piece (state h))) ->
  let turned := setShape (piece (state h)) (rotateClockwise (shape (piece (state h)))) in
  rotate h
  = Ok match find (fun offset => negb (collide (setX turned (x turned + offset))
                                              (board (state h))))
                  [0; -1; 1; -2; 2] with
       | Some offset => setState h (setPiece (state h) (setX turned (x turned + offset)))
       | None => h
       end.
Proof.
  intros Hr Hp Ho R turned.
  unfold rotate. rewrite Hr, Hp, Ho. simpl orb. cbv iota.
  rewrite (rotated_is_clockwise _ R). fold turned.
  destruct R as [NE _].
  destruct (shape (piece (state h))) as [|row rest] eqn:Esh; [congruence|].
  cbn [find kick].
  rewrite (setX_same turned).
  destruct (collide turned (board (state h))); simpl negb; cbv iota;
    [|now rewrite (setX_same turned)].
  repeat match goal with
  | |- context [collide ?p ?b] =>
      destruct (collide p b); simpl negb; cbv iota; try reflexivity
  end.
Qed.

Lemma rotate_wall_kick_witness :
  rectangular (shape (piece (state wallHost))) /\
  rotate wallHost
  = Ok (setState wallHost
          (setPiece (state wallHost)
             {| shape := [[1; 1; 1; 1]]; color := "#00f5ff"%string; x := 6; y := 5 |})).
Proof.
  assert (R : rectangular (shape (piece (state wallHost)))).
  { split; [discriminate | repeat constructor]. }
  split; [exact R|].
  exact (rotate_wall_kick wallHost eq_refl eq_refl eq_refl R).
Defined.

(** ** Actions outside a live run *)

(** C6.  When the run is not running, or is paused, or is over, each of
    [move] (left and right), [rotate] and [hardDrop] returns normally and
    leaves the host, hence board, piece, score, lines and level, as it was;
    so do the actions [left], [right], [rotate] and [drop] that dispatch to them. *)
Theorem guarded_actions_are_noops (h : Host) (k1 k2 : nat) :
  isRunning (state h) = false \/ isPaused (state h) = true
  \/ isGameOver (state h) = true ->
  (move (-1) h = Ok h /\ move 1 h = Ok h /\ rotate h = Ok h /\ hardDrop k1 h = Ok h)
  /\ handleAction "left" k1 k2 h = Ok h
  /\ handleAction "right" k1 k2 h = Ok h
  /\ handleAction "rotate" k1 k2 h = Ok h
  /\ handleAction "drop" k1 k2 h = Ok h.
Proof.
  intros G.
  assert (E : negb (isRunning (state h)) || isPaused (state h) || isGameOver (state h) = true).
  { destruct G as [-> | [-> | ->]]; simpl;
      rewrite ?orb_true_r; reflexivity. }
  cbn [handleAction String.eqb Ascii.eqb Bool.eqb].
  unfold move, rotate, hardDrop. rewrite E. repeat split; reflexivity.
Qed.

Lemma guarded_actions_are_noops_witness :
  isPaused (state pausedHost) = true /\
  move (-1) pausedHost = Ok pausedHost /\
  handleAction "drop" 0 0 pausedHost = Ok pausedHost.
Proof.
  pose proof (guarded_actions_are_noops pausedHost 0 0
                (or_intror (or_introl eq_refl))) as W.
  split; [reflexivity|].
  split; [exact (proj1 (proj1 W)) | exact (proj2 (proj2 (proj2 (proj2 W))))].
Defined.

(** The soft drop of a player is [drop] itself, and [drop] reads [isPaused]
    and [isGameOver] only: with either flag set the host is left alone. *)
Lemma softdrop_paused_or_over (h : Host) (k1 k2 : nat) :
  isPaused (state h) = true \/ isGameOver (state h) = true ->
  handleAction "softdrop" k1 k2 h = Ok h.
Proof.
  intros G. cbn [handleAction String.eqb Ascii.eqb Bool.eqb].
  unfold drop.
  destruct G as [-> | ->]; rewrite ?orb_true_r; reflexivity.
Qed.

(** Whatever [isRunning] is, [softdrop] takes the piece down a row when there
    is room below it. *)
Lemma softdrop_unguarded (h : Host) (k1 k2 : nat) :
  isPaused (state h) = false -> isGameOver (state h) = false ->
  collide (setY (piece (state h)) (y (piece (state h)) + 1)) (board (state h)) = false ->
  handleAction "softdrop" k1 k2 h
  = Ok (setState h (setPiece (state h)
                      (setY (piece (state h)) (y (piece (state h)) + 1)))).
Proof.
  intros Hp Ho C. cbn [handleAction String.eqb Ascii.eqb Bool.eqb].
  unfold drop. now rewrite Hp, Ho, C.
Qed.

(** Soft drops alone, with no run ever started, pile the squares up to the
    top and end in a state that is over and was never running. *)
Example softdrop_pile_before_start :
  match run (repeat (Action "softdrop", 1, 1)%nat 99) (initialHost 1 1),
        run (repeat (Action "softdrop", 1, 1)%nat 100) (initialHost 1 1) with
  | Ok h99, Ok h100 =>
      isGameOver (state h99) = false
      /\ isRunning (state h100) = false /\ isGameOver (state h100) = true
  | _, _ => False
  end.
Proof. vm_compute. repeat split. Qed.

(** C2.  The soft drop of a player is not guarded by [isRunning], as [move],
    [rotate] and [hardDrop] are: on the host as first rendered, where no run
    has been started, [softdrop] takes the piece from row 0 to row 1. *)
Theorem softdrop_ignores_isRunning :
  isRunning (state (initialHost 0 0)) = false /\
  y (piece (state (initialHost 0 0))) = 0 /\
  exists h', handleAction "softdrop" 0 0 (initialHost 0 0) = Ok h' /\
             y (piece (state h')) = 1.
Proof.
  split; [reflexivity|]. split; [reflexivity|].
  eexists. split; reflexivity.
Qed.

(** C8.  [start] on a run that is running and not over keeps the board, the
    colour board, the piece, the next piece, the score, the lines and the
    level, and leaves the run running and not paused; [start] when nothing
    runs or when the run is over begins a run on a board of 20 rows of 10
    cells that are all 0, with no colour anywhere, two newly drawn pieces,
    score 0, no lines and level 1.  In both cases it returns normally. *)
Theorem start_frame (h : Host) (k1 k2 : nat) :
  handleAction "start" k1 k2 h = Ok (startGame k1 k2 h)
  /\ isRunning (state (startGame k1 k2 h)) = true
  /\ isPaused (state (startGame k1 k2 h)) = false
  /\ (isRunning (state h) = true -> isGameOver (state h) = false ->
      board (state (startGame k1 k2 h)) = board (state h)
      /\ boardColors (state (startGame k1 k2 h)) = boardColors (state h)
      /\ piece (state (startGame k1 k2 h)) = piece (state h)
      /\ nextPiece (state (startGame k1 k2 h)) = nextPiece (state h)
      /\ score (state (startGame k1 k2 h)) = score (state h)
      /\ lines (state (startGame k1 k2 h)) = lines (state h)
      /\ level (state (startGame k1 k2 h)) = level (state h)
      /\ isGameOver (state (startGame k1 k2 h)) = false)
  /\ (isRunning (state h) = false \/ isGameOver (state h) = true ->
      board (state (startGame k1 k2 h)) = createEmptyBoard
      /\ board (state (startGame k1 k2 h)) = repeat (repeat 0 10%nat) 20%nat
      /\ boardColors (state (startGame k1 k2 h)) = createEmptyColorBoard
      /\ boardColors (state (startGame k1 k2 h)) = repeat (repeat None 10%nat) 20%nat
      /\ piece (state (startGame k1 k2 h)) = randomPiece k1
      /\ y (piece (state (startGame k1 k2 h))) = 0
      /\ nextPiece (state (startGame k1 k2 h)) = randomPiece k2
      /\ score (state (startGame k1 k2 h)) = Num 0
      /\ lines (state (startGame k1 k2 h)) = 0
      /\ level (state (startGame k1 k2 h)) = 1
      /\ isGameOver (state (startGame k1 k2 h)) = false).
Proof.
  split; [reflexivity|].
  unfold startGame.
  destruct (dropIntervalRef h) as [id|] eqn:R; simpl; rewrite R; simpl.
  all: split; [reflexivity|]; split; [reflexivity|]; split.
  all: try (intros Hr Ho; rewrite Hr, Ho; simpl; repeat split; exact Ho).
  all: intros G;
    assert (E : isGameOver (state h) || negb (isRunning (state h)) = true)
      by (destruct G as [-> | ->]; rewrite ?orb_true_r; reflexivity);
    rewrite E; cbn [freshRun setFlags board boardColors piece nextPiece score
                    lines level isGameOver];
    repeat split; unfold randomPiece; now destruct (nth k1 SHAPES ([], EmptyString)).
Qed.

Lemma start_frame_witness :
  (isRunning (state pausedHost) = true /\ isGameOver (state pausedHost) = false
   /\ board (state (startGame 3 4 pausedHost)) = board (state pausedHost)
   /\ piece (state (startGame 3 4 pausedHost)) = piece (state pausedHost)
   /\ score (state (startGame 3 4 pausedHost)) = score (state pausedHost))
  /\ (isRunning (state (initialHost 0 0)) = false
      /\ board (state (startGame 3 4 (initialHost 0 0))) = repeat (repeat 0 10%nat) 20%nat
      /\ score (state (startGame 3 4 (initialHost 0 0))) = Num 0
      /\ lines (state (startGame 3 4 (initialHost 0 0))) = 0
      /\ level (state (startGame 3 4 (initialHost 0 0))) = 1)
  /\ (isGameOver (state overHost) = true
      /\ nth_error (board (state overHost)) 19 = Some [0; 0; 0; 0; 1; 1; 0; 0; 0; 0]
      /\ score (state overHost) = Num 180
      /\ board (state (startGame 3 4 overHost)) = repeat (repeat 0 10%nat) 20%nat
      /\ boardColors (state (startGame 3 4 overHost)) = repeat (repeat None 10%nat) 20%nat
      /\ score (state (startGame 3 4 overHost)) = Num 0
      /\ lines (state (startGame 3 4 overHost)) = 0
      /\ level (state (startGame 3 4 overHost)) = 1).
Proof.
  split; [|split].
  - pose proof (proj1 (proj2 (proj2 (proj2 (start_frame pausedHost 3 4))))
                  eq_refl eq_refl) as W.
    split; [reflexivity|]. split; [reflexivity|].
    split; [exact (proj1 W)|].
    split; [exact (proj1 (proj2 (proj2 W)))|].
    exact (proj1 (proj2 (proj2 (proj2 (proj2 W))))).
  - pose proof (proj2 (proj2 (proj2 (proj2 (start_frame (initialHost 0 0) 3 4))))
                  (or_introl eq_refl)) as W.
    split; [reflexivity|]. tauto.
  - assert (O : isGameOver (state overHost) = true) by (vm_compute; reflexivity).
    pose proof (proj2 (proj2 (proj2 (proj2 (start_frame overHost 3 4))))
                  (or_intror O)) as W.
    split; [exact O|]. split; [vm_compute; reflexivity|].
    split; [vm_compute; reflexivity|]. tauto.
Defined.

(** ** The game-over branch *)

Lemma firstOccupied_topRow (p : Piece) (r : Z) :
  topRow p = Some r -> y p <= r.
Proof.
  unfold topRow. destruct (firstOccupied (shape p)); simpl; [|discriminate].
  intros [= <-]. lia.
Qed.

Lemma drop_game_over (h : Host) (k : nat) :
  isPaused (state h) = false -> isGameOver (state h) = false ->
  collide (setY (piece (state h)) (y (piece (state h)) + 1)) (board (state h)) = true ->
  y (piece (state h)) <= 0 ->
  drop k h = Ok (gameOverStep h).
Proof.
  intros Hp Ho C Y. unfold drop. rewrite Hp, Ho, C. simpl.
  now replace (y (piece (state h)) <=? 0) with true by (symmetry; apply Z.leb_le; lia).
Qed.

Lemma gameOverStep_state (h : Host) :
  state (gameOverStep h)
  = setFlags (state h) (isRunning (state h)) (isPaused (state h)) true.
Proof.
  unfold gameOverStep. simpl. now destruct (dropIntervalRef h).
Qed.

Lemma gameOverStep_ref (h : Host) : dropIntervalRef (gameOverStep h) = None.
Proof.
  unfold gameOverStep. simpl. destruct (dropIntervalRef h) eqn:E; simpl; auto.
Qed.

Lemma gameOverStep_timers (h : Host) (id : positive) (ms : Z) :
  dropIntervalRef h = Some id -> ~ In (id, ms) (timers (gameOverStep h)).
Proof.
  intros E. unfold gameOverStep. simpl. rewrite E. simpl.
  rewrite filter_In. simpl. rewrite Pos.eqb_refl. intros [_ F]. discriminate.
Qed.

(** C9.  When [drop] finds the piece unable to go down with its topmost
    occupied row at row 0 or above it, it sets [isGameOver], clears the
    gravity timer, and leaves the board, the colour board, the score, the
    lines, the level, the next piece and the piece itself as they were:
    nothing is merged, no line is cleared, the next piece is not promoted. *)
Theorem game_over_frame (h : Host) (k : nat) (r : Z) :
  isPaused (state h) = false -> isGameOver (state h) = false ->
  collide (setY (piece (state h)) (y (piece (state h)) + 1)) (board (state h)) = true ->
  topRow (piece (state h)) = Some r -> r <= 0 ->
  exists h',
    drop k h = Ok h'
    /\ isGameOver (state h') = true
    /\ dropIntervalRef h' = None
    /\ (forall id ms, dropIntervalRef h = Some id -> ~ In (id, ms) (timers h'))
    /\ board (state h') = board (state h)
    /\ boardColors (state h') = boardColors (state h)
    /\ score (state h') = score (state h)
    /\ lines (state h') = lines (state h)
    /\ level (state h') = level (state h)
    /\ nextPiece (state h') = nextPiece (state h)
    /\ piece (state h') = piece (state h).
Proof.
  intros Hp Ho C T R.
  pose proof (firstOccupied_topRow _ _ T) as Y.
  exists (gameOverStep h).
  split; [apply drop_game_over; auto; lia|].
  rewrite gameOverStep_state, gameOverStep_ref. simpl.
  repeat split; auto.
  intros id ms E. now apply gameOverStep_timers.
Qed.

Lemma game_over_frame_witness :
  topRow (piece (state pileHost)) = Some 0 /\
  exists h',
    drop 1 pileHost = Ok h'
    /\ isGameOver (state h') = true
    /\ dropIntervalRef h' = None
    /\ (forall id ms, dropIntervalRef pileHost = Some id -> ~ In (id, ms) (timers h'))
    /\ board (state h') = board (state pileHost)
    /\ boardColors (state h') = boardColors (state pileHost)
    /\ score (state h') = score (state pileHost)
    /\ lines (state h') = lines (state pileHost)
    /\ level (state h') = level (state pileHost)
    /\ nextPiece (state h') = nextPiece (state pileHost)
    /\ piece (state h') = piece (state pileHost).
Proof.
  split; [reflexivity|].
  apply (game_over_frame pileHost 1 0); [reflexivity | reflexivity | | reflexivity | lia].
  vm_compute. reflexivity.
Defined.

(** ** Cells of a piece *)

Lemma someFrom_intro {A : Type} (f : A -> Z -> bool) (l : list A) :
  forall (i : Z) (n : nat) (a : A),
    nth_error l n = Some a -> f a (i + Z.of_nat n) = true -> someFrom i f l = true.
Proof.
  induction l as [|b l IH]; intros i n a E F.
  - destruct n; discriminate.
  - destruct n as [|n]; simpl in *.
    + injection E as ->. rewrite Z.add_0_r in F. now rewrite F.
    + apply orb_true_iff. right. apply (IH (i + 1) n a E).
      now replace (i + 1 + Z.of_nat n) with (i + Z.pos (Pos.of_succ_nat n)) by lia.
Qed.

Lemma someFrom_elim {A : Type} (f : A -> Z -> bool) (l : list A) :
  forall (i : Z),
    someFrom i f l = true ->
    exists (n : nat) (a : A), nth_error l n = Some a /\ f a (i + Z.of_nat n) = true.
Proof.
  induction l as [|b l IH]; intros i S; simpl in S; [discriminate|].
  apply orb_true_iff in S. destruct S as [S|S].
  - exists O, b. simpl. now rewrite Z.add_0_r.
  - destruct (IH _ S) as (n & a & E & F).
    exists (Datatypes.S n), a. split; [exact E|].
    now replace (i + Z.of_nat (Datatypes.S n)) with (i + 1 + Z.of_nat n) by lia.
Qed.

Lemma someFrom_mono {A : Type} (f g : A -> Z -> bool) (l : list A) :
  (forall a i, f a i = true -> g a i = true) ->
  forall i, someFrom i f l = true -> someFrom i g l = true.
Proof.
  intros M. induction l as [|b l IH]; intros i S; simpl in *; [discriminate|].
  apply orb_true_iff in S. apply orb_true_iff.
  destruct S as [S|S]; [left; now apply M | right; now apply IH].
Qed.

Lemma hasCell_occupied (p : Piece) :
  hasCell p = true -> exists dy dx, occupied (shape p) dy dx.
Proof.
  unfold hasCell. intros H.
  apply existsb_exists in H. destruct H as (row & Irow & O).
  apply existsb_exists in O. destruct O as (v & Iv & N).
  apply In_nth_error in Irow. destruct Irow as (dy & Erow).
  apply In_nth_error in Iv. destruct Iv as (dx & Ev).
  exists dy, dx, row, v. repeat split; auto.
  apply negb_true_iff, Z.eqb_neq in N. exact N.
Qed.

Lemma occupied_hasCell (p : Piece) (dy dx : nat) :
  occupied (shape p) dy dx -> hasCell p = true.
Proof.
  intros (row & v & Erow & Ev & N). unfold hasCell.
  apply existsb_exists. exists row. split; [eapply nth_error_In; eauto|].
  apply existsb_exists. exists v. split; [eapply nth_error_In; eauto|].
  now apply negb_true_iff, Z.eqb_neq.
Qed.

Lemma collide_false_inBounds (p : Piece) (b : Board) :
  collide p b = false -> inBounds p = true.
Proof.
  intros C. unfold inBounds. apply negb_true_iff, not_true_iff_false.
  intros S. rewrite <- not_true_iff_false in C. apply C. unfold collide.
  revert S. apply someFrom_mono. intros row dy.
  apply someFrom_mono. intros v dx.
  destruct (v =? 0); [auto|].
  intros ->. reflexivity.
Qed.

Lemma inBounds_cell (p : Piece) (dy dx : nat) :
  inBounds p = true -> occupied (shape p) dy dx ->
  0 <= x p + Z.of_nat dx < COLS /\ y p + Z.of_nat dy < ROWS.
Proof.
  intros I (row & v & Erow & Ev & N).
  unfold inBounds in I. apply negb_true_iff in I.
  destruct (Z_lt_dec (x p + Z.of_nat dx) 0) as [B1|B1];
    [|destruct (Z_ge_dec (x p + Z.of_nat dx) COLS) as [B2|B2];
      [|destruct (Z_ge_dec (y p + Z.of_nat dy) ROWS) as [B3|B3]; [|lia]]].
  all: exfalso; rewrite <- not_true_iff_false in I; apply I.
  all: apply (someFrom_intro _ _ 0 dy row Erow).
  all: apply (someFrom_intro _ _ 0 dx v Ev).
  all: simpl; apply Z.eqb_neq in N; rewrite N.
  - replace (x p + Z.of_nat dx <? 0) with true by (symmetry; apply Z.ltb_lt; lia).
    reflexivity.
  - replace (x p + Z.of_nat dx >=? COLS) with true by (symmetry; apply Z.geb_le; lia).
    now rewrite orb_true_r.
  - replace (y p + Z.of_nat dy >=? ROWS) with true by (symmetry; apply Z.geb_le; lia).
    now rewrite !orb_true_r.
Qed.

(** A piece that does not collide has every occupied cell inside the
    columns of the board and above its floor. *)
Lemma collide_false_cell (p : Piece) (b : Board) (dy dx : nat) :
  collide p b = false -> occupied (shape p) dy dx ->
  0 <= x p + Z.of_nat dx < COLS /\ y p + Z.of_nat dy < ROWS.
Proof.
  intros C O. apply inBounds_cell; [|exact O].
  eapply collide_false_inBounds. exact C.
Qed.

(** A piece without an occupied cell collides nowhere. *)
Lemma collide_no_cell (p : Piece) (b : Board) :
  hasCell p = false -> collide p b = false.
Proof.
  intros H. apply not_true_iff_false. intros C.
  unfold collide in C.
  apply someFrom_elim in C. destruct C as (dy & row & Erow & C).
  apply someFrom_elim in C. destruct C as (dx & v & Ev & C).
  destruct (v =? 0) eqn:N; [discriminate|].
  rewrite (occupied_hasCell p dy dx) in H; [discriminate|].
  exists row, v. repeat split; auto. now apply Z.eqb_neq.
Qed.

(** ** Hard drop *)

Lemma setY_same (p : Piece) : setY p (y p + 0) = p.
Proof. destruct p. unfold setY. simpl. now rewrite Z.add_0_r. Qed.

Lemma hardDrop_loop_returns (fuel : nat) :
  forall st : GameState,
    hasCell (piece st) = true ->
    (Z.to_nat (ROWS - y (piece st)) < fuel)%nat ->
    exists g d, hardDrop_loop fuel st = Ok g /\ descended st g d.
Proof.
  induction fuel as [|fuel IH]; intros st H F; [lia|].
  cbn [hardDrop_loop].
  destruct (collide (setY (piece st) (y (piece st) + 1)) (board st)) eqn:C;
    simpl negb; cbv iota.
  - exists st, 0. split; [reflexivity|].
    unfold descended. rewrite setY_same, Z.add_0_r.
    repeat split; auto; lia.
  - destruct (hasCell_occupied _ H) as (dy & dx & O).
    pose proof (collide_false_cell _ _ dy dx C O) as [_ B].
    cbn [setY y] in B.
    set (st' := setScore (setPiece st (setY (piece st) (y (piece st) + 1)))
                         (jadd (score st) (Num 2))).
    destruct (IH st') as (g & d & E & D).
    + exact H.
    + unfold st'. cbn [setScore setPiece setY piece y]. lia.
    + exists g, (d + 1). split; [exact E|].
      destruct D as (D0 & D1 & D2 & D3 & D4 & D5 & D6 & D7 & D8 & D9 & D10 & D11 & D12).
      unfold st' in *. cbn [setScore setPiece setY piece score board boardColors
        nextPiece lines level isRunning isPaused isGameOver shape color x y] in *.
      unfold descended. rewrite D1, D2, hardDrop_score_step.
      replace (S (Z.to_nat d)) with (Z.to_nat (d + 1)) by lia.
      unfold setY. cbn [shape color x y].
      replace (y (piece st) + 1 + d) with (y (piece st) + (d + 1)) by lia.
      repeat split; auto; try lia.
      * intros j J. destruct (Z.eq_dec j 1) as [->|NJ]; [exact C|].
        replace (y (piece st) + j) with (y (piece st) + 1 + (j - 1)) by lia.
        apply D11. lia.
      * replace (y (piece st) + (d + 1) + 1) with (y (piece st) + 1 + d + 1) by lia.
        exact D12.
Qed.

(** On a piece without a cell the loop goes on for any number of turns. *)
Lemma hardDrop_loop_diverges (fuel : nat) :
  forall st : GameState,
    hasCell (piece st) = false -> hardDrop_loop fuel st = OutOfFuel.
Proof.
  induction fuel as [|fuel IH]; intros st H; [reflexivity|].
  cbn [hardDrop_loop].
  rewrite collide_no_cell by exact H. simpl. apply IH. exact H.
Qed.

Lemma hardDrop_descent (h : Host) (k : nat) :
  isRunning (state h) = true -> isPaused (state h) = false ->
  isGameOver (state h) = false -> hasCell (piece (state h)) = true ->
  exists g d, descended (state h) g d /\ hardDrop k h = drop k (setState h g).
Proof.
  intros Hr Hp Ho H.
  destruct (hardDrop_loop_returns (Z.to_nat (ROWS - y (piece (state h))) + 1)
              (state h) H) as (g & d & E & D); [lia|].
  exists g, d. split; [exact D|].
  unfold hardDrop. rewrite Hr, Hp, Ho, E. reflexivity.
Qed.

Lemma lineScore_table (n lvl : Z) :
  0 <= n <= 4 -> lineScore n lvl = toDouble (nth (Z.to_nat n) linePoints 0 * lvl).
Proof.
  intros R. unfold lineScore.
  assert (C : n = 0 \/ n = 1 \/ n = 2 \/ n = 3 \/ n = 4) by lia.
  destruct C as [-> | [-> | [-> | [-> | ->]]]]; reflexivity.
Qed.

Lemma afterClear_score (k : nat) (h : Host) (n : Z) (b : Board) (bc : ColorBoard) :
  0 <= n <= 4 ->
  score (state (afterClear k h n b bc))
  = (if n >? 0
     then jadd (score (state h))
               (toDouble (nth (Z.to_nat n) linePoints 0 * level (state h)))
     else score (state h)).
Proof.
  intros R. unfold afterClear.
  destruct (n >? 0) eqn:P.
  - simpl. rewrite lineScore_table by exact R.
    destruct (dropIntervalRef h); reflexivity.
  - reflexivity.
Qed.

(** Within the safe integers the line score is added exactly; a lock that
    clears no line adds nothing. *)
Lemma afterClear_score_safe (k : nat) (h : Host) (n s : Z) (b : Board)
    (bc : ColorBoard) :
  0 <= n <= 4 -> score (state h) = Num s ->
  safeInteger (nth (Z.to_nat n) linePoints 0 * level (state h)) ->
  safeInteger (s + nth (Z.to_nat n) linePoints 0 * level (state h)) ->
  score (state (afterClear k h n b bc))
  = Num (s + nth (Z.to_nat n) linePoints 0 * level (state h)).
Proof.
  intros R E S1 S2. rewrite afterClear_score by exact R. rewrite E.
  destruct (n >? 0) eqn:P.
  - rewrite (toDouble_safe _ S1). cbn [jadd]. now apply toDouble_safe.
  - assert (n = 0) as -> by (rewrite Z.gtb_ltb in P; apply Z.ltb_ge in P; lia).
    cbn [Z.to_nat nth linePoints]. f_equal. lia.
Qed.

Lemma drop_lock (h : Host) (k : nat) (b1 b2 : Board) (c1 c2 : ColorBoard) (n : Z) :
  isPaused (state h) = false -> isGameOver (state h) = false ->
  collide (setY (piece (state h)) (y (piece (state h)) + 1)) (board (state h)) = true ->
  0 < y (piece (state h)) ->
  merge (piece (state h)) (board (state h)) (boardColors (state h)) = Ok (b1, c1) ->
  clearLines b1 c1 = Ok (n, b2, c2) ->
  drop k h = Ok (afterClear k h n b2 c2).
Proof.
  intros Hp Ho C Y M L. unfold drop. rewrite Hp, Ho, C. simpl orb. cbv iota.
  replace (y (piece (state h)) <=? 0) with false by (symmetry; apply Z.leb_gt; lia).
  rewrite M. simpl. rewrite L. reflexivity.
Qed.

Lemma descended_blocked (st g : GameState) (d : Z) :
  descended st g d ->
  collide (setY (piece g) (y (piece g) + 1)) (board g) = true.
Proof.
  intros (D0 & D1 & D2 & D3 & D4 & D5 & D6 & D7 & D8 & D9 & D10 & D11 & D12).
  rewrite D1, D3. unfold setY at 1 2. cbn [shape color x y].
  exact D12.
Qed.

Lemma descended_descends (st g : GameState) (d : Z) :
  descended st g d -> descends st d.
Proof.
  intros (D0 & D1 & D2 & D3 & D4 & D5 & D6 & D7 & D8 & D9 & D10 & D11 & D12).
  repeat split; assumption.
Qed.

Lemma descends_unique (st : GameState) (d d' : Z) :
  descends st d -> descends st d' -> d = d'.
Proof.
  intros (A0 & A1 & A2) (B0 & B1 & B2).
  destruct (Z.lt_trichotomy d d') as [L | [E | L]]; [|exact E|].
  - replace (y (piece st) + d + 1) with (y (piece st) + (d + 1)) in A2 by lia.
    rewrite (B1 (d + 1)) in A2 by lia. discriminate.
  - replace (y (piece st) + d' + 1) with (y (piece st) + (d' + 1)) in B2 by lia.
    rewrite (A1 (d' + 1)) in B2 by lia. discriminate.
Qed.


Lemma descends_gap : descends (state gapHost) 19.
Proof.
  split; [lia|]. split; [|vm_compute; reflexivity].
  intros j J.
  assert (C : In j [1; 2; 3; 4; 5; 6; 7; 8; 9; 10; 11; 12; 13; 14; 15; 16; 17; 18; 19])
    by (simpl; lia).
  simpl in C.
  repeat (destruct C as [<-|C]; [vm_compute; reflexivity|]).
  contradiction.
Qed.



Example hardDrop_sample :
  match hardDrop 4 gapHost with
  | Ok h' =>
      score (state h') = Num (2 * 19 + 100 * 3)
      /\ lines (state h') = 26 /\ level (state h') = 3
      /\ board (state h') = createEmptyBoard
      /\ piece (state h') = randomPiece 0 /\ nextPiece (state h') = randomPiece 4
  | _ => False
  end.
Proof. vm_compute. repeat split. Qed.

(** ** The shapes and their orientations *)

Ltac orientation_cases H :=
  unfold orientations in H; cbn [flat_map SHAPES fst app] in H;
  repeat (destruct H as [H|H]; [subst | ]); [.. | contradiction H].

Lemma orientations_rotate (sh : list (list Z)) :
  In sh orientations -> In (rotatedCells sh) orientations.
Proof.
  intros H. orientation_cases H.
  all: vm_compute; repeat (first [left; reflexivity | right]).
Qed.

Lemma orientation_facts (sh : list (list Z)) :
  In sh orientations ->
  sh <> [] /\ existsb rowOccupied sh = true /\ firstOccupied sh = Some O
  /\ rectangular sh /\ (length sh <= 4)%nat.
Proof.
  intros H. orientation_cases H.
  all: split; [discriminate|]; split; [reflexivity|]; split; [reflexivity|].
  all: split; [|simpl; lia].
  all: split; [discriminate | vm_compute; repeat constructor].
Qed.

Lemma randomPiece_facts (k : nat) :
  (k < 7)%nat ->
  In (shape (randomPiece k)) orientations /\ inBounds (randomPiece k) = true
  /\ y (randomPiece k) = 0.
Proof.
  intros K.
  do 7 (destruct k as [|k];
        [split; [vm_compute; repeat (first [left; reflexivity | right])
                | split; reflexivity] |]).
  lia.
Qed.

(** ** Merging keeps the grid *)

Lemma forEachFrom_inv {A S : Type} (P : S -> Prop) (f : A -> Z -> S -> res S)
    (l : list A) :
  forall (i : Z) (s : S),
    P s ->
    (forall n a s0, nth_error l n = Some a -> P s0 ->
       exists s1, f a (i + Z.of_nat n) s0 = Ok s1 /\ P s1) ->
    exists s', forEachFrom i f l s = Ok s' /\ P s'.
Proof.
  induction l as [|a l IH]; intros i s Ps F; simpl.
  - now exists s.
  - destruct (F O a s eq_refl Ps) as (s1 & E & P1).
    rewrite Z.add_0_r in E. rewrite E. simpl.
    apply IH; [exact P1|].
    intros n a' s0 En P0.
    replace (i + 1 + Z.of_nat n) with (i + Z.of_nat (Datatypes.S n)) by lia.
    now apply F.
Qed.

Lemma setNth_length {A : Type} (v : A) (l : list A) :
  forall i, length (setNth i v l) = length l.
Proof.
  induction l as [|a l IH]; intros [|i]; simpl; auto.
Qed.

Lemma setNth_Forall {A : Type} (Q : A -> Prop) (v : A) (l : list A) :
  Forall Q l -> Q v -> forall i, Forall Q (setNth i v l).
Proof.
  intros F Qv. induction F as [|a l Qa F IH]; intros [|i]; simpl; auto.
Qed.

Lemma setNth_other {A : Type} (v : A) (l : list A) :
  forall i j, i <> j -> nth_error (setNth j v l) i = nth_error l i.
Proof.
  induction l as [|a l IH]; intros [|i] [|j] N; simpl; auto; try congruence.
Qed.

Lemma writeCell_dims {A : Type} (hole v : A) (r c : Z) (m : list (list A)) :
  gridDims m -> 0 <= r < ROWS -> 0 <= c < COLS ->
  exists m',
    writeCell hole r c v m = Ok m' /\ gridDims m'
    /\ (forall i, Z.of_nat i <> r -> nth_error m' i = nth_error m i).
Proof.
  intros [L W] R C. unfold writeCell.
  destruct (nth_error m (Z.to_nat r)) as [row|] eqn:E.
  - eexists. split; [reflexivity|]. split; [split|].
    + now rewrite setNth_length.
    + apply setNth_Forall; [exact W|].
      assert (Lr : length row = Z.to_nat COLS).
      { rewrite Forall_forall in W. apply W. eapply nth_error_In; eauto. }
      unfold arrayWrite.
      replace (c <? 0) with false by (symmetry; apply Z.ltb_ge; lia).
      replace (c <? Z.of_nat (length row)) with true
        by (symmetry; apply Z.ltb_lt; rewrite Lr; unfold COLS in *; lia).
      now rewrite setNth_length.
    + intros i N. apply setNth_other. lia.
  - apply nth_error_None in E. rewrite L in E. unfold ROWS in *. lia.
Qed.

Lemma merge_dims (p : Piece) (b : Board) (bc : ColorBoard) :
  inBounds p = true -> gridDims b -> gridDims bc ->
  exists b' bc',
    merge p b bc = Ok (b', bc') /\ gridDims b' /\ gridDims bc'
    /\ (forall i, outside p i -> nth_error b' i = nth_error b i).
Proof.
  intros I Gb Gc.
  set (P := fun acc : Board * ColorBoard =>
              gridDims (fst acc) /\ gridDims (snd acc)
              /\ (forall i, outside p i -> nth_error (fst acc) i = nth_error b i)).
  assert (M : exists acc, merge p b bc = Ok acc /\ P acc).
  { unfold merge.
    apply (forEachFrom_inv P);
      [split; [exact Gb | split; [exact Gc | intros i _; reflexivity]]|].
    intros dy row acc Erow Pacc.
    apply (forEachFrom_inv P); [exact Pacc|].
    intros dx v [b0 c0] Ev (Gb' & Gc' & Out).
    cbn [fst snd] in *.
    rewrite !Z.add_0_l.
    destruct (v =? 0) eqn:N; simpl negb; simpl andb; cbv iota.
    - exists (b0, c0).
      split; [reflexivity | split; [exact Gb' | split; [exact Gc' | exact Out]]].
    - destruct (y p + Z.of_nat dy >=? 0) eqn:Y.
      + apply Z.geb_le in Y.
        assert (O : occupied (shape p) dy dx).
        { exists row, v. repeat split; auto. now apply Z.eqb_neq. }
        destruct (inBounds_cell p dy dx I O) as [Bx By].
        destruct (writeCell_dims (-1) 1 (y p + Z.of_nat dy) (x p + Z.of_nat dx)
                    b0 Gb') as (b1 & E1 & G1 & O1); [lia | lia |].
        destruct (writeCell_dims None (Some (color p)) (y p + Z.of_nat dy)
                    (x p + Z.of_nat dx) c0 Gc') as (c1 & E2 & G2 & _); [lia | lia |].
        rewrite E1. simpl. rewrite E2. simpl.
        exists (b1, c1). split; [reflexivity|]. split; [exact G1|]. split; [exact G2|].
        cbn [fst]. intros i Oi. rewrite O1; [now apply Out|].
        assert (dy < length (shape p))%nat
          by (apply nth_error_Some; congruence).
        unfold outside in Oi. lia.
      + exists (b0, c0).
        split; [reflexivity | split; [exact Gb' | split; [exact Gc' | exact Out]]]. }
  destruct M as ([b' bc'] & E & G1 & G2 & O).
  now exists b', bc'.
Qed.

(** Rows that changed inside a window of [hgt] rows add at most [hgt] full
    rows. *)
Lemma countFull_window (b1 : Board) :
  forall (b : Board) (lo : Z) (hgt : nat),
    length b1 = length b ->
    (forall i, Z.of_nat i < lo \/ lo + Z.of_nat hgt <= Z.of_nat i ->
               nth_error b1 i = nth_error b i) ->
    (countFull b1 <= countFull b + hgt)%nat.
Proof.
  induction b1 as [|r1 t1 IH]; intros [|r t] lo hgt L Out; simpl in L; try discriminate.
  - unfold countFull. simpl. lia.
  - injection L as L.
    assert (C1 : countFull (r1 :: t1)
                 = ((if fullRow r1 then 1 else 0) + countFull t1)%nat)
      by (unfold countFull; simpl; now destruct (fullRow r1)).
    assert (C2 : countFull (r :: t)
                 = ((if fullRow r then 1 else 0) + countFull t)%nat)
      by (unfold countFull; simpl; now destruct (fullRow r)).
    rewrite C1, C2.
    destruct (Z_lt_dec 0 lo) as [Lo|Lo]; [|destruct (Z_le_dec (lo + Z.of_nat hgt) 0) as [Hi|Hi]].
    + assert (E : r1 = r) by (specialize (Out 0%nat); simpl in Out; injection Out; auto; lia).
      subst r1.
      specialize (IH t (lo - 1) hgt L).
      assert (countFull t1 <= countFull t + hgt)%nat; [|lia].
      apply IH. intros i Oi. apply (Out (S i)). lia.
    + assert (E : r1 = r) by (specialize (Out 0%nat); simpl in Out; injection Out; auto; lia).
      subst r1.
      specialize (IH t (lo - 1) hgt L).
      assert (countFull t1 <= countFull t + hgt)%nat; [|lia].
      apply IH. intros i Oi. apply (Out (S i)). lia.
    + specialize (IH t 0 (Z.to_nat (lo + Z.of_nat hgt - 1)) L).
      assert (countFull t1 <= countFull t + Z.to_nat (lo + Z.of_nat hgt - 1))%nat.
      { apply IH. intros i Oi. apply (Out (S i)). lia. }
      destruct (fullRow r1), (fullRow r); lia.
Qed.

(** ** Line clearing keeps the grid *)

Lemma filter_notFull_length (b : Board) :
  (length (filter notFull b) + countFull b = length b)%nat.
Proof.
  unfold countFull, notFull.
  induction b as [|row b IH]; simpl; [reflexivity|].
  destruct (fullRow row); simpl; lia.
Qed.

Lemma keepColors_length (b : Board) :
  forall bc, length bc = length b ->
    length (keepColors b bc) = length (filter notFull b).
Proof.
  unfold notFull.
  induction b as [|row b IH]; intros [|crow bc] L; simpl in *; try discriminate; auto.
  injection L as L. destruct (fullRow row); simpl; auto.
Qed.

Lemma keepColors_Forall (Q : ColorRow -> Prop) (b : Board) :
  forall bc, Forall Q bc -> Forall Q (keepColors b bc).
Proof.
  induction b as [|row b IH]; intros bc F; simpl; [constructor|].
  destruct F as [|crow bc Qc F]; [constructor|].
  destruct (fullRow row); auto.
Qed.

Lemma countFull_cleared (b : Board) (k : nat) :
  countFull (repeat emptyRow k ++ filter notFull b) = 0%nat.
Proof.
  rewrite countFull_app.
  assert (A : countFull (repeat emptyRow k) = 0%nat).
  { induction k as [|k IH]; [reflexivity|]. exact IH. }
  assert (B : countFull (filter notFull b) = 0%nat).
  { unfold countFull, notFull. induction b as [|row b IH]; [reflexivity|].
    simpl. destruct (fullRow row) eqn:F; simpl; [exact IH|]. now rewrite F. }
  now rewrite A, B.
Qed.

Lemma clearLines_dims (b : Board) (bc : ColorBoard) :
  gridDims b -> gridDims bc ->
  exists n b' bc',
    clearLines b bc = Ok (n, b', bc') /\ n = Z.of_nat (countFull b)
    /\ gridDims b' /\ gridDims bc' /\ countFull b' = 0%nat.
Proof.
  intros [Lb Wb] [Lc Wc].
  exists (Z.of_nat (countFull b)),
         (repeat emptyRow (countFull b) ++ filter notFull b),
         (repeat emptyColorRow (countFull b) ++ keepColors b bc).
  split; [now apply clearLines_spec|]. split; [reflexivity|].
  pose proof (filter_notFull_length b) as F.
  split; [|split; [|apply countFull_cleared]]; split.
  - rewrite length_app, repeat_length, <- Lb, Nat.add_comm. exact F.
  - apply Forall_app. split.
    + apply Forall_forall. intros row Hin. apply repeat_spec in Hin. now subst.
    + rewrite Forall_forall in *. intros row Hin. apply filter_In in Hin. now apply Wb.
  - rewrite length_app, repeat_length, keepColors_length
      by (transitivity (Z.to_nat ROWS); [exact Lc | symmetry; exact Lb]).
    rewrite <- Lb, Nat.add_comm. exact F.
  - apply Forall_app. split.
    + apply Forall_forall. intros row Hin. apply repeat_spec in Hin. now subst.
    + now apply keepColors_Forall.
Qed.

(** ** The invariant of the host *)

Lemma gridDims_createEmptyBoard : gridDims createEmptyBoard.
Proof. split; [reflexivity | vm_compute; repeat constructor]. Qed.

Lemma gridDims_createEmptyColorBoard : gridDims createEmptyColorBoard.
Proof. split; [reflexivity | vm_compute; repeat constructor]. Qed.

Lemma scoreOk_zero : scoreOk (Num 0).
Proof. apply scoreOk_safe. split; [lia | apply Z.pow_pos_nonneg; lia]. Qed.

Lemma cleared_timers (id : positive) (tm : list (positive * Z)) :
  tm = [] \/ (exists ms, tm = [(id, ms)]) ->
  filter (fun t => negb (fst t =? id)%positive) tm = [].
Proof.
  intros [-> | (ms & ->)]; [reflexivity|]. simpl. now rewrite Pos.eqb_refl.
Qed.

Lemma initialHost_inv (k1 k2 : nat) :
  (k1 < 7)%nat -> (k2 < 7)%nat -> Inv (initialHost k1 k2).
Proof.
  intros K1 K2. destruct (randomPiece_facts k1 K1) as (S1 & B1 & _).
  constructor; cbn [initialHost state dropIntervalRef timers board boardColors
                    piece nextPiece score lines level isRunning isPaused isGameOver];
    auto using gridDims_createEmptyBoard, gridDims_createEmptyColorBoard,
      scoreOk_zero; try discriminate; try congruence; try lia.
  now exists k2.
Qed.

Lemma setPiece_inv (h : Host) (p : Piece) :
  Inv h -> In (shape p) orientations -> inBounds p = true ->
  Inv (setState h (setPiece (state h) p)).
Proof.
  intros [Hl Hb Hc Hs Hi Hn Ht Hpa Hov Hru Hnf Hsc Hln] S B. constructor; simpl; auto.
Qed.

Lemma gameOverStep_inv (h : Host) : Inv h -> Inv (gameOverStep h).
Proof.
  intros [Hl Hb Hc Hs Hi Hn Ht Hpa Hov Hru Hnf Hsc Hln].
  unfold gameOverStep. simpl.
  destruct (dropIntervalRef h) as [id|] eqn:R; constructor; simpl; auto;
    try congruence.
  - now apply cleared_timers.
  - now rewrite R.
Qed.

Lemma lineScore_ok (n lvl : Z) : 0 <= n <= 4 -> 0 <= lvl -> scoreOk (lineScore n lvl).
Proof.
  intros Rn Pl. rewrite lineScore_table by exact Rn. apply toDouble_ok.
  apply Z.mul_nonneg_nonneg; [|exact Pl].
  assert (C : n = 0 \/ n = 1 \/ n = 2 \/ n = 3 \/ n = 4) by lia.
  destruct C as [-> | [-> | [-> | [-> | ->]]]]; vm_compute; discriminate.
Qed.

Lemma afterClear_inv (k : nat) (h : Host) (n : Z) (b : Board) (bc : ColorBoard) :
  Inv h -> (k < 7)%nat -> gridDims b -> gridDims bc ->
  countFull b = 0%nat -> 0 <= n <= 4 ->
  isPaused (state h) = false -> isGameOver (state h) = false ->
  Inv (afterClear k h n b bc).
Proof.
  intros [Hl Hb Hc Hs Hi Hn Ht Hpa Hov Hru Hnf Hsc Hln] K Gb Gc Cb Rn Hp Ho.
  assert (Lv : 0 <= level (state h))
    by (rewrite Hl; pose proof (Z.div_pos (lines (state h)) 10); lia).
  assert (Sc : scoreOk (jadd (score (state h)) (lineScore n (level (state h)))))
    by (apply jadd_ok; [exact Hsc | now apply lineScore_ok]).
  destruct Hn as (k' & K' & En).
  destruct (randomPiece_facts k' K') as (S1 & B1 & _).
  unfold afterClear.
  destruct (n >? 0) eqn:Pn; simpl.
  - apply Z.gtb_lt in Pn.
    destruct (dropIntervalRef h) as [id|] eqn:R; constructor; simpl;
      rewrite ?En; auto; try congruence; try (now exists k); try lia.
    + right. rewrite (cleared_timers id (timers h) Ht). eexists. reflexivity.
    + intros _. apply Hru. congruence.
    + rewrite R. exact Ht.
  - constructor; simpl; rewrite ?En; auto; try congruence; now exists k.
Qed.

(** A lock on a board without full rows completes at most as many rows as
    the piece is high, and no piece is higher than four rows. *)
Lemma lock_clears_at_most_four (h : Host) (b1 : Board) :
  Inv h -> gridDims b1 ->
  (forall i, outside (piece (state h)) i -> nth_error b1 i = nth_error (board (state h)) i) ->
  0 <= Z.of_nat (countFull b1) <= 4.
Proof.
  intros I [L1 _] Out.
  destruct (orientation_facts _ (inv_shape h I)) as (_ & _ & _ & _ & H4).
  pose proof (countFull_window b1 (board (state h)) (y (piece (state h)))
                (length (shape (piece (state h))))) as W.
  rewrite (inv_nofull h I) in W.
  assert (countFull b1 <= 0 + length (shape (piece (state h))))%nat; [|lia].
  apply W; [|exact Out].
  destruct (inv_board h I) as [L _].
  transitivity (Z.to_nat ROWS); [exact L1 | symmetry; exact L].
Qed.

Lemma drop_inv (h : Host) (k : nat) :
  Inv h -> (k < 7)%nat -> exists h', drop k h = Ok h' /\ Inv h'.
Proof.
  intros I K. unfold drop.
  destruct (isPaused (state h)) eqn:Hp; simpl; [now exists h|].
  destruct (isGameOver (state h)) eqn:Ho; simpl; [now exists h|].
  destruct (collide _ _) eqn:C.
  - destruct (y (piece (state h)) <=? 0).
    + eexists. split; [reflexivity|]. now apply gameOverStep_inv.
    + destruct (merge_dims (piece (state h)) (board (state h)) (boardColors (state h)))
        as (b1 & c1 & M & G1 & G2 & Out); try apply I.
      destruct (clearLines_dims b1 c1 G1 G2) as (n & b2 & c2 & L & En & G3 & G4 & C0).
      rewrite M. simpl. rewrite L. simpl.
      eexists. split; [reflexivity|]. apply afterClear_inv; auto.
      rewrite En. apply (lock_clears_at_most_four h b1 I G1 Out).
  - eexists. split; [reflexivity|].
    apply setPiece_inv; [exact I | apply I |].
    eapply collide_false_inBounds. exact C.
Qed.

Lemma move_inv (h : Host) (dir : Z) :
  Inv h -> exists h', move dir h = Ok h' /\ Inv h'.
Proof.
  intros I. unfold move.
  destruct (negb (isRunning (state h)) || isPaused (state h) || isGameOver (state h));
    [now exists h|].
  destruct (collide _ _) eqn:C; simpl; [now exists h|].
  eexists. split; [reflexivity|].
  apply setPiece_inv; [exact I | apply I | eapply collide_false_inBounds; exact C].
Qed.

Lemma kick_some (np kp : Piece) (b : Board) (offsets : list Z) :
  kick np b offsets = Some kp -> shape kp = shape np /\ collide kp b = false.
Proof.
  induction offsets as [|offset rest IH]; simpl; [discriminate|].
  destruct (collide (setX np (x np + offset)) b) eqn:C; simpl.
  - exact IH.
  - intros [= <-]. split; [reflexivity | exact C].
Qed.

Lemma rotate_inv (h : Host) :
  Inv h -> exists h', rotate h = Ok h' /\ Inv h'.
Proof.
  intros I. unfold rotate.
  destruct (negb (isRunning (state h)) || isPaused (state h) || isGameOver (state h));
    [now exists h|].
  pose proof (inv_shape h I) as S.
  destruct (orientation_facts _ S) as (NE & _).
  pose proof (orientations_rotate _ S) as S'.
  destruct (shape (piece (state h))) as [|row rest] eqn:E; [congruence|].
  destruct (collide _ _) eqn:C; cbn [negb].
  - match goal with
    | |- context [kick ?np ?b ?offs] => destruct (kick np b offs) as [kp|] eqn:Ek
    end; [|now exists h].
    apply kick_some in Ek. destruct Ek as [Es Ec].
    eexists. split; [reflexivity|].
    apply setPiece_inv; [exact I | now rewrite Es | eapply collide_false_inBounds; exact Ec].
  - eexists. split; [reflexivity|].
    apply setPiece_inv; [exact I | exact S' | eapply collide_false_inBounds; exact C].
Qed.

Lemma descended_inv (h : Host) (g : GameState) (d : Z) :
  Inv h -> descended (state h) g d -> Inv (setState h g).
Proof.
  intros [Hl Hb Hc Hs Hi Hn Ht Hpa Hov Hru Hnf Hsc Hln]
         (D0 & D1 & D2 & D3 & D4 & D5 & D6 & D7 & D8 & D9 & D10 & D11 & D12).
  constructor; simpl; rewrite ?D1, ?D2, ?D3, ?D4, ?D5, ?D6, ?D7, ?D8, ?D9, ?D10;
    auto using iter_add2_ok.
  destruct (Z.eq_dec d 0) as [->|N].
  - now rewrite setY_same.
  - apply (collide_false_inBounds _ (board (state h))). apply D11. lia.
Qed.

Lemma hardDrop_inv (h : Host) (k : nat) :
  Inv h -> (k < 7)%nat -> exists h', hardDrop k h = Ok h' /\ Inv h'.
Proof.
  intros I K.
  destruct (negb (isRunning (state h)) || isPaused (state h) || isGameOver (state h))
    eqn:G.
  - exists h. unfold hardDrop. now rewrite G.
  - apply orb_false_iff in G. destruct G as [G Ho].
    apply orb_false_iff in G. destruct G as [Hr Hp].
    apply negb_false_iff in Hr.
    destruct (orientation_facts _ (inv_shape h I)) as (_ & H & _).
    destruct (hardDrop_descent h k Hr Hp Ho H) as (g & d & D & E).
    rewrite E. apply drop_inv; [|exact K].
    now apply (descended_inv h g d).
Qed.

Lemma startGame_inv (h : Host) (k1 k2 : nat) :
  Inv h -> (k1 < 7)%nat -> (k2 < 7)%nat -> Inv (startGame k1 k2 h).
Proof.
  intros [Hl Hb Hc Hs Hi Hn Ht Hpa Hov Hru Hnf Hsc Hln] K1 K2.
  destruct (randomPiece_facts k1 K1) as (S1 & B1 & _).
  unfold startGame.
  destruct (isGameOver (state h) || negb (isRunning (state h))) eqn:G.
  - destruct (dropIntervalRef h) as [id|] eqn:R; simpl; rewrite R;
      constructor; simpl;
      auto using gridDims_createEmptyBoard, gridDims_createEmptyColorBoard,
        scoreOk_zero;
      try discriminate; try (now exists k2); try lia; try exact scoreOk_zero.
    + right. rewrite (cleared_timers id (timers h) Ht). eexists. reflexivity.
    + right. rewrite Ht. eexists. reflexivity.
  - apply orb_false_iff in G. destruct G as [Ho Hr].
    destruct (dropIntervalRef h) as [id|] eqn:R; simpl; rewrite R;
      constructor; simpl; auto; try discriminate; try congruence.
    + right. rewrite (cleared_timers id (timers h) Ht). eexists. reflexivity.
    + right. rewrite Ht. eexists. reflexivity.
Qed.

Lemma pauseGame_inv (h : Host) : Inv h -> Inv (pauseGame h).
Proof.
  intros I. pose proof I as [Hl Hb Hc Hs Hi Hn Ht Hpa Hov Hru Hnf Hsc Hln].
  unfold pauseGame.
  destruct (negb (isRunning (state h)) || isGameOver (state h)) eqn:G; [exact I|].
  apply orb_false_iff in G. destruct G as [Hr Ho]. apply negb_false_iff in Hr.
  simpl.
  destruct (isPaused (state h)) eqn:Hp; simpl.
  - rewrite (Hpa eq_refl) in *.
    constructor; simpl; auto; try discriminate; try congruence.
    right. rewrite Ht. eexists. reflexivity.
  - destruct (dropIntervalRef h) as [id|] eqn:R; constructor; simpl; auto;
      try congruence.
    + now apply cleared_timers.
    + now rewrite R.
Qed.

Lemma restartGame_inv (h : Host) (k1 k2 : nat) :
  Inv h -> (k1 < 7)%nat -> (k2 < 7)%nat -> Inv (restartGame k1 k2 h).
Proof.
  intros [Hl Hb Hc Hs Hi Hn Ht Hpa Hov Hru Hnf Hsc Hln] K1 K2.
  destruct (randomPiece_facts k1 K1) as (S1 & B1 & _).
  constructor; simpl;
    auto using gridDims_createEmptyBoard, gridDims_createEmptyColorBoard,
      scoreOk_zero;
    try discriminate; try lia; try exact scoreOk_zero.
  now exists k2.
Qed.

(** Every event the host can receive returns, and keeps the invariant. *)
Lemma handle_inv (e : Event) (h : Host) (k1 k2 : nat) :
  Inv h -> (k1 < 7)%nat -> (k2 < 7)%nat ->
  exists h', handle e k1 k2 h = Ok h' /\ Inv h'.
Proof.
  intros I K1 K2. destruct e as [action|id]; simpl; [|now apply drop_inv].
  unfold handleAction.
  repeat match goal with
  | |- context [if ?c then _ else _] => destruct c
  end.
  - eexists. split; [reflexivity | now apply startGame_inv].
  - eexists. split; [reflexivity | now apply pauseGame_inv].
  - eexists. split; [reflexivity | now apply restartGame_inv].
  - now apply move_inv.
  - now apply move_inv.
  - now apply rotate_inv.
  - now apply hardDrop_inv.
  - now apply drop_inv.
  - now exists h.
Qed.

Lemma effectCleanup_state (h : Host) : state (effectCleanup h) = state h.
Proof. unfold effectCleanup. now destruct (dropIntervalRef h). Qed.

Lemma effectCleanup_ref (h : Host) :
  dropIntervalRef (effectCleanup h) = dropIntervalRef h.
Proof. unfold effectCleanup. now destruct (dropIntervalRef h) eqn:E. Qed.

Lemma effectCleanup_inv (h : Host) : Inv h -> Inv (effectCleanup h).
Proof.
  intros I. pose proof I as [Hl Hb Hc Hs Hi Hn Ht Hpa Hov Hru Hnf Hsc Hln].
  unfold effectCleanup.
  destruct (dropIntervalRef h) as [id|] eqn:R; [|exact I].
  constructor; simpl; auto; rewrite R; auto.
  left. now apply cleared_timers.
Qed.

Lemma reachable_inv (h : Host) : reachable h -> Inv h.
Proof.
  induction 1 as [k1 k2 K1 K2 | h h' e k1 k2 R IH F K1 K2 E | h R IH].
  - now apply initialHost_inv.
  - destruct (handle_inv e h k1 k2 IH K1 K2) as (h2 & E2 & I2).
    rewrite E in E2. now injection E2 as ->.
  - now apply effectCleanup_inv.
Qed.

(** ** Drawing returns *)

Lemma drawCells_returns (b : Board) (bc : ColorBoard) :
  length bc = length b -> drawCells b bc = Ok tt.
Proof.
  intros L.
  destruct (forEachFrom_inv (fun _ : unit => True)
              (fun (row : Row) (y : Z) (acc : unit) =>
                 forEachFrom 0 (fun (cell : Z) (_ : Z) (acc' : unit) =>
                   if cell =? 0 then Ok acc'
                   else
                     match nth_error bc (Z.to_nat y) with
                     | None => Throw
                     | Some _ => Ok acc'
                     end) row acc) b 0 tt I) as ([] & E & _); [|exact E].
  intros n row acc Erow _.
  apply (forEachFrom_inv (fun _ : unit => True)); [exact I|].
  intros dx cell acc' _ _.
  destruct (cell =? 0); [now exists acc'|].
  rewrite Z.add_0_l, Nat2Z.id.
  destruct (nth_error bc n) eqn:E; [now exists acc'|].
  apply nth_error_None in E.
  assert (n < length b)%nat by (apply nth_error_Some; congruence).
  lia.
Qed.

Lemma ghost_loop_returns (fuel : nat) (p : Piece) (b : Board) :
  hasCell p = true ->
  forall ghostY : Z,
    (Z.to_nat (ROWS - ghostY) < fuel)%nat ->
    exists r, ghost_loop fuel p b ghostY = Ok r.
Proof.
  intros H. induction fuel as [|fuel IH]; intros ghostY F; [lia|].
  cbn [ghost_loop].
  destruct (collide (setY p (ghostY + 1)) b) eqn:C; cbn [negb].
  - now exists ghostY.
  - destruct (hasCell_occupied _ H) as (dy & dx & O).
    pose proof (collide_false_cell (setY p (ghostY + 1)) b dy dx C O) as [_ B].
    cbn [setY y] in B.
    apply IH. lia.
Qed.

(** On a host that satisfies the invariant [draw] returns. *)
Lemma draw_returns (h : Host) : Inv h -> draw (state h) = Ok tt.
Proof.
  intros I. unfold draw.
  rewrite drawCells_returns.
  - cbn [bind]. destruct (isGameOver (state h)); [reflexivity|]. cbn [negb].
    destruct (orientation_facts _ (inv_shape h I)) as (_ & H & _).
    destruct (ghost_loop_returns (Z.to_nat (ROWS - y (piece (state h))) + 1)
                (piece (state h)) (board (state h)) H (y (piece (state h))))
      as (r & ->); [lia | reflexivity].
  - destruct (inv_board h I) as [Lb _]. destruct (inv_colors h I) as [Lc _].
    transitivity (Z.to_nat ROWS); [exact Lc | symmetry; exact Lb].
Qed.

Lemma reachable_draw_returns (h : Host) : reachable h -> draw (state h) = Ok tt.
Proof. intros R. apply draw_returns. now apply reachable_inv. Qed.

(** In a reachable host the score is a number: an integer that is a double
    and not negative, or the positive infinity. *)
Lemma reachable_score_number (h : Host) :
  reachable h ->
  (exists z, score (state h) = Num z /\ 0 <= z /\ representable z)
  \/ score (state h) = Infinity false.
Proof.
  intros R. pose proof (inv_score h (reachable_inv h R)) as N.
  destruct (score (state h)) as [z| |n]; cbn [scoreOk] in N.
  - left. exists z. tauto.
  - contradiction.
  - right. now rewrite N.
Qed.

(** In a reachable host a lock clears between 0 and 4 lines. *)
Lemma reachable_lock_lines (h : Host) (b1 b2 : Board) (c1 c2 : ColorBoard) (n : Z) :
  reachable h ->
  merge (piece (state h)) (board (state h)) (boardColors (state h)) = Ok (b1, c1) ->
  clearLines b1 c1 = Ok (n, b2, c2) ->
  0 <= n <= 4.
Proof.
  intros R M L. pose proof (reachable_inv h R) as I.
  destruct (merge_dims (piece (state h)) (board (state h)) (boardColors (state h)))
    as (b1' & c1' & M' & G1 & G2 & Out); try apply I.
  rewrite M in M'. injection M' as <- <-.
  destruct (clearLines_dims b1 c1 G1 G2) as (n' & b2' & c2' & L' & En & _).
  rewrite L in L'. injection L' as <- <- <-.
  rewrite En. now apply (lock_clears_at_most_four h b1 I G1 Out).
Qed.

(** From a reachable host no event raises an exception or hangs. *)
Lemma reachable_handle_returns (e : Event) (h : Host) (k1 k2 : nat) :
  reachable h -> (k1 < 7)%nat -> (k2 < 7)%nat ->
  exists h', handle e k1 k2 h = Ok h'.
Proof.
  intros R K1 K2.
  destruct (handle_inv e h k1 k2 (reachable_inv h R) K1 K2) as (h' & E & _).
  now exists h'.
Qed.

(** ** Runs *)

Lemma run_actions_reachable (evs : list (Event * nat * nat)) :
  forall h h' : Host,
    reachable h -> allActions evs = true -> run evs h = Ok h' -> reachable h'.
Proof.
  induction evs as [|[[e k1] k2] evs IH]; intros h h' R A E; simpl in *.
  - now injection E as <-.
  - destruct e as [action|id]; [|discriminate].
    apply andb_true_iff in A. destruct A as [K A].
    apply andb_true_iff in K. destruct K as [K1 K2].
    apply Nat.ltb_lt in K1, K2.
    cbn [handle] in E.
    destruct (handleAction action k1 k2 h) as [h1| |] eqn:E1; try discriminate.
    cbn [bind] in E. apply (IH h1 h'); [|exact A|exact E].
    now apply (reach_step h h1 (Action action) k1 k2).
Qed.

Lemma pileHost_reachable : reachable pileHost.
Proof.
  apply (run_actions_reachable pileEvents (initialHost 1 1)).
  - apply reach_init; lia.
  - reflexivity.
  - vm_compute. reflexivity.
Qed.

Example line_run :
  match run lineEvents (initialHost 0 0) with
  | Ok h =>
      lines (state h) = 1 /\ level (state h) = 1
      /\ score (state h) = Num (2 * 19 + 2 * 19 + 2 * 18 + 100)
      /\ board (state h)
         = repeat emptyRow 19 ++ [[0; 0; 0; 0; 0; 0; 0; 0; 1; 1]]
      /\ timers h = [(2%positive, 700)]
  | _ => False
  end.
Proof. vm_compute. repeat split. Qed.

(** ** Where [isGameOver] is set *)

Lemma afterClear_over (k : nat) (h : Host) (n : Z) (b : Board) (bc : ColorBoard) :
  isGameOver (state (afterClear k h n b bc)) = isGameOver (state h).
Proof.
  unfold afterClear. destruct (n >? 0); simpl; [|reflexivity].
  destruct (dropIntervalRef h); reflexivity.
Qed.

Lemma drop_sets_over (h h' : Host) (k : nat) :
  drop k h = Ok h' -> isGameOver (state h) = false -> isGameOver (state h') = true ->
  isPaused (state h) = false
  /\ collide (setY (piece (state h)) (y (piece (state h)) + 1)) (board (state h)) = true
  /\ y (piece (state h)) <= 0
  /\ h' = gameOverStep h.
Proof.
  unfold drop. intros E Ho Ho'. rewrite Ho in E.
  destruct (isPaused (state h)); simpl in E; [injection E as <-; congruence|].
  destruct (collide _ _) eqn:C.
  - destruct (y (piece (state h)) <=? 0) eqn:Y.
    + apply Z.leb_le in Y. injection E as <-. auto.
    + destruct (merge _ _ _) as [m| |]; simpl in E; try discriminate.
      destruct (clearLines _ _) as [c| |]; simpl in E; try discriminate.
      injection E as <-. rewrite afterClear_over in Ho'. congruence.
  - injection E as <-. simpl in Ho'. congruence.
Qed.

Lemma move_over (h h' : Host) (dir : Z) :
  move dir h = Ok h' -> isGameOver (state h') = isGameOver (state h).
Proof.
  unfold move.
  destruct (negb (isRunning (state h)) || isPaused (state h) || isGameOver (state h));
    [now intros [= <-]|].
  destruct (collide _ _); simpl; now intros [= <-].
Qed.

Lemma rotate_over (h h' : Host) :
  rotate h = Ok h' -> isGameOver (state h') = isGameOver (state h).
Proof.
  unfold rotate.
  destruct (negb (isRunning (state h)) || isPaused (state h) || isGameOver (state h));
    [now intros [= <-]|].
  destruct (shape (piece (state h))); [discriminate|].
  destruct (collide _ _); cbn [negb]; [|now intros [= <-]].
  match goal with
  | |- context [kick ?np ?b ?offs] => destruct (kick np b offs)
  end; now intros [= <-].
Qed.

Lemma startGame_over (h : Host) (k1 k2 : nat) :
  isGameOver (state h) = false -> isGameOver (state (startGame k1 k2 h)) = false.
Proof.
  intros Ho. unfold startGame. rewrite Ho.
  destruct (isRunning (state h)); simpl; destruct (dropIntervalRef h); simpl; auto.
Qed.

Lemma pauseGame_over (h : Host) :
  isGameOver (state (pauseGame h)) = isGameOver (state h).
Proof.
  unfold pauseGame.
  destruct (negb (isRunning (state h)) || isGameOver (state h)); [reflexivity|].
  simpl. destruct (negb (isPaused (state h))); [|reflexivity].
  destruct (dropIntervalRef h); reflexivity.
Qed.

Lemma hardDrop_loop_keeps (fuel : nat) :
  forall st g : GameState,
    hardDrop_loop fuel st = Ok g ->
    shape (piece g) = shape (piece st) /\ isGameOver g = isGameOver st.
Proof.
  induction fuel as [|fuel IH]; intros st g E; simpl in E; [discriminate|].
  destruct (collide _ _); simpl in E.
  - now injection E as <-.
  - apply IH in E. exact E.
Qed.

(** An event that sets [isGameOver] ran [drop], on a host where the piece
    could not go down and stood at row 0 or above. *)
Lemma gravity_only (e : Event) (h h' : Host) (k1 k2 : nat) :
  handle e k1 k2 h = Ok h' ->
  isGameOver (state h) = false -> isGameOver (state h') = true ->
  exists g,
    gravityEntry e h = Some g
    /\ shape (piece (state g)) = shape (piece (state h))
    /\ isPaused (state g) = false /\ isGameOver (state g) = false
    /\ collide (setY (piece (state g)) (y (piece (state g)) + 1)) (board (state g)) = true
    /\ y (piece (state g)) <= 0
    /\ h' = gameOverStep g.
Proof.
  intros E Ho Ho'.
  destruct e as [action|id]; cbn [handle gravityEntry] in *.
  2:{ exists h. destruct (drop_sets_over h h' k1 E Ho Ho') as (A & B & C & D).
      repeat split; auto. }
  unfold handleAction in E.
  destruct (action =? "start")%string.
  { injection E as <-. rewrite startGame_over in Ho' by exact Ho. discriminate. }
  destruct (action =? "pause")%string.
  { injection E as <-. rewrite pauseGame_over in Ho'. congruence. }
  destruct (action =? "restart")%string.
  { injection E as <-. discriminate. }
  destruct (action =? "left")%string.
  { apply move_over in E. congruence. }
  destruct (action =? "right")%string.
  { apply move_over in E. congruence. }
  destruct (action =? "rotate")%string.
  { apply rotate_over in E. congruence. }
  destruct (action =? "drop")%string eqn:E7.
  { apply String.eqb_eq in E7. subst action. cbn [String.eqb Ascii.eqb Bool.eqb].
    unfold hardDrop in E.
    destruct (negb (isRunning (state h)) || isPaused (state h) || isGameOver (state h));
      [injection E as <-; congruence|].
    destruct (hardDrop_loop _ _) as [st'| |] eqn:L; simpl in E; try discriminate.
    destruct (hardDrop_loop_keeps _ _ _ L) as [Ks Ko].
    assert (Og : isGameOver (state (setState h st')) = false) by (simpl; congruence).
    exists (setState h st').
    destruct (drop_sets_over _ h' k1 E Og Ho') as (A & B & C & D).
    repeat split; auto. }
  destruct (action =? "softdrop")%string.
  { exists h. destruct (drop_sets_over h h' k1 E Ho Ho') as (A & B & C & D).
    repeat split; auto. }
  injection E as <-. congruence.
Qed.

Lemma topRow_orientation (p : Piece) :
  In (shape p) orientations -> topRow p = Some (y p).
Proof.
  intros S. destruct (orientation_facts _ S) as (_ & _ & F & _).
  unfold topRow. rewrite F. simpl. now rewrite Z.add_0_r.
Qed.

(** A live timer means a run that is running, not paused and not over. *)
Lemma tick_flags (h : Host) (id : positive) :
  Inv h -> fires (Tick id) h ->
  isRunning (state h) = true /\ isPaused (state h) = false
  /\ isGameOver (state h) = false.
Proof.
  intros [Hl Hb Hc Hs Hi Hn Ht Hpa Hov Hru Hnf Hsc Hln] (ms & T).
  destruct (dropIntervalRef h) as [id'|] eqn:R.
  - split; [apply Hru; discriminate|].
    split; [destruct (isPaused (state h)) | destruct (isGameOver (state h))];
      auto; [discriminate (Hpa eq_refl) | discriminate (Hov eq_refl)].
  - rewrite Ht in T. contradiction T.
Qed.

Lemma gameOverStep_no_timer (h : Host) : Inv h -> timers (gameOverStep h) = [].
Proof.
  intros [Hl Hb Hc Hs Hi Hn Ht Hpa Hov Hru Hnf Hsc Hln]. unfold gameOverStep. simpl.
  destruct (dropIntervalRef h) as [id|]; simpl; [|exact Ht].
  now apply cleared_timers.
Qed.

(** What the game-over branch does on a reachable host: when [drop], past
    its guard, finds that the piece cannot go down one row and the topmost
    occupied row of the piece is row 0 or above, the run becomes over,
    [isRunning] keeps its value, the timer reference is cleared and no
    gravity timer is left; on a gravity tick that finds this, the run was
    running and stays so; and an event that takes a run that is not over to
    one that is over has run [drop] in exactly that situation. *)
Theorem game_over_trigger :
  (forall (h : Host) (k : nat) (r : Z),
      reachable h ->
      isPaused (state h) = false -> isGameOver (state h) = false ->
      collide (setY (piece (state h)) (y (piece (state h)) + 1)) (board (state h)) = true ->
      topRow (piece (state h)) = Some r -> r <= 0 ->
      exists h',
        drop k h = Ok h'
        /\ isGameOver (state h') = true
        /\ isRunning (state h') = isRunning (state h)
        /\ dropIntervalRef h' = None
        /\ timers h' = [])
  /\
  (forall (h : Host) (id : positive) (k1 k2 : nat) (r : Z),
      reachable h -> fires (Tick id) h ->
      collide (setY (piece (state h)) (y (piece (state h)) + 1)) (board (state h)) = true ->
      topRow (piece (state h)) = Some r -> r <= 0 ->
      exists h',
        handle (Tick id) k1 k2 h = Ok h'
        /\ isGameOver (state h') = true
        /\ isRunning (state h) = true /\ isRunning (state h') = true
        /\ dropIntervalRef h' = None
        /\ timers h' = [])
  /\
  (forall (h h' : Host) (e : Event) (k1 k2 : nat),
      reachable h -> handle e k1 k2 h = Ok h' ->
      isGameOver (state h) = false -> isGameOver (state h') = true ->
      exists g,
        gravityEntry e h = Some g
        /\ isPaused (state g) = false /\ isGameOver (state g) = false
        /\ collide (setY (piece (state g)) (y (piece (state g)) + 1)) (board (state g)) = true
        /\ topRow (piece (state g)) = Some (y (piece (state g)))
        /\ y (piece (state g)) <= 0
        /\ drop k1 g = Ok h').
Proof.
  assert (A : forall (h : Host) (k : nat) (r : Z),
             reachable h ->
             isPaused (state h) = false -> isGameOver (state h) = false ->
             collide (setY (piece (state h)) (y (piece (state h)) + 1))
                     (board (state h)) = true ->
             topRow (piece (state h)) = Some r -> r <= 0 ->
             drop k h = Ok (gameOverStep h)
             /\ isGameOver (state (gameOverStep h)) = true
             /\ isRunning (state (gameOverStep h)) = isRunning (state h)
             /\ dropIntervalRef (gameOverStep h) = None
             /\ timers (gameOverStep h) = []).
  { intros h k r R Hp Ho C T Le.
    pose proof (firstOccupied_topRow _ _ T) as Y.
    split; [apply drop_game_over; auto; lia|].
    rewrite gameOverStep_state, gameOverStep_ref. simpl.
    repeat split. apply gameOverStep_no_timer. now apply reachable_inv. }
  split; [|split].
  - intros h k r R Hp Ho C T Le. exists (gameOverStep h). now apply (A h k r).
  - intros h id k1 k2 r R F C T Le.
    destruct (tick_flags h id (reachable_inv h R) F) as (Hr & Hp & Ho).
    destruct (A h k1 r R Hp Ho C T Le) as (E & O & Ru & Re & Ti).
    exists (gameOverStep h). cbn [handle].
    repeat split; auto. now rewrite Ru.
  - intros h h' e k1 k2 R E Ho Ho'.
    destruct (gravity_only e h h' k1 k2 E Ho Ho') as (g & G & S & Hp & Og & C & Y & ->).
    exists g. repeat split; auto.
    + apply topRow_orientation. rewrite S. apply (inv_shape h). now apply reachable_inv.
    + now apply drop_game_over.
Qed.

Lemma game_over_trigger_witness :
  reachable pileHost
  /\ topRow (piece (state pileHost)) = Some 0
  /\ (exists h',
        drop 1 pileHost = Ok h'
        /\ isGameOver (state h') = true
        /\ isRunning (state h') = isRunning (state pileHost)
        /\ dropIntervalRef h' = None
        /\ timers h' = [])
  /\ (exists h',
        handle (Tick 1) 1 1 pileHost = Ok h'
        /\ isGameOver (state h') = true
        /\ isRunning (state pileHost) = true /\ isRunning (state h') = true
        /\ dropIntervalRef h' = None
        /\ timers h' = [])
  /\ (exists g,
        gravityEntry (Tick 1) pileHost = Some g
        /\ y (piece (state g)) <= 0
        /\ drop 1 g = Ok (gameOverStep pileHost)).
Proof.
  pose proof pileHost_reachable as R.
  assert (F : fires (Tick 1) pileHost) by (exists 700; vm_compute; auto).
  assert (E : handle (Tick 1) 1 1 pileHost = Ok (gameOverStep pileHost))
    by (vm_compute; reflexivity).
  assert (C : collide (setY (piece (state pileHost)) (y (piece (state pileHost)) + 1))
                      (board (state pileHost)) = true)
    by (vm_compute; reflexivity).
  destruct game_over_trigger as (A & B & S).
  split; [exact R|]. split; [reflexivity|].
  split; [apply (A pileHost 1%nat 0 R eq_refl eq_refl C eq_refl); lia|].
  split; [apply (B pileHost 1%positive 1%nat 1%nat 0 R F C eq_refl); lia|].
  destruct (S pileHost (gameOverStep pileHost) (Tick 1) 1%nat 1%nat R E eq_refl eq_refl)
    as (g & G1 & _ & _ & _ & _ & G6 & G7).
  exists g. auto.
Defined.

Lemma idleHost_reachable : reachable idleHost.
Proof.
  apply (run_actions_reachable (repeat (Action "softdrop", 1, 1)%nat 99)
           (initialHost 1 1)).
  - apply reach_init; lia.
  - reflexivity.
  - vm_compute. reflexivity.
Qed.

(** C1.  A gravity step can end a run that is not running.  After 99 soft
    drops from the first render, with no run ever started, the square at the
    top cannot go down a row and its topmost occupied row is row 0; the
    next soft drop, which [handleAction] passes to [drop] without a test of
    [isRunning], sets [isGameOver], clears the timer reference and leaves
    [isRunning] as it was: false before and after, not true. *)
Theorem game_over_without_run :
  reachable idleHost
  /\ isRunning (state idleHost) = false
  /\ isPaused (state idleHost) = false /\ isGameOver (state idleHost) = false
  /\ collide (setY (piece (state idleHost)) (y (piece (state idleHost)) + 1))
             (board (state idleHost)) = true
  /\ topRow (piece (state idleHost)) = Some 0
  /\ exists h',
       handleAction "softdrop" 1 1 idleHost = Ok h'
       /\ drop 1 idleHost = Ok h'
       /\ isGameOver (state h') = true
       /\ isRunning (state h') = false
       /\ dropIntervalRef h' = None /\ timers h' = [].
Proof.
  split; [exact idleHost_reachable|].
  repeat (split; [vm_compute; reflexivity|]).
  exists (gameOverStep idleHost).
  repeat (split; [vm_compute; reflexivity|]). vm_compute. reflexivity.
Qed.

(** ** Level and speed *)

Lemma afterClear_rescheduled (k : nat) (h : Host) (n : Z) (b : Board) (bc : ColorBoard) :
  rescheduled h (afterClear k h n b bc).
Proof.
  intros id ms. unfold afterClear.
  destruct (n >? 0); simpl; [|auto].
  destruct (dropIntervalRef h) as [id'|]; simpl; [|auto].
  intros [[= <- <-] | T]; [right; reflexivity | left].
  apply filter_In in T. apply T.
Qed.

Lemma drop_rescheduled (h h' : Host) (k : nat) :
  drop k h = Ok h' -> rescheduled h h'.
Proof.
  unfold drop.
  destruct (isPaused (state h) || isGameOver (state h)).
  { intros [= <-] id ms T. now left. }
  destruct (collide _ _).
  - destruct (y (piece (state h)) <=? 0).
    + intros [= <-] id ms T. left. revert T. unfold gameOverStep. simpl.
      destruct (dropIntervalRef h); simpl; [|auto].
      intros T. apply filter_In in T. apply T.
    + destruct (merge _ _ _) as [m| |]; simpl; try discriminate.
      destruct (clearLines _ _) as [c| |]; simpl; try discriminate.
      intros [= <-]. apply afterClear_rescheduled.
  - intros [= <-] id ms T. now left.
Qed.

Lemma hardDrop_loop_timeless (fuel : nat) :
  forall st g : GameState, hardDrop_loop fuel st = Ok g -> level g = level st.
Proof.
  induction fuel as [|fuel IH]; intros st g E; simpl in E; [discriminate|].
  destruct (collide _ _); simpl in E.
  - now injection E as <-.
  - now apply IH in E.
Qed.

Lemma hardDrop_rescheduled (h h' : Host) (k : nat) :
  hardDrop k h = Ok h' -> rescheduled h h'.
Proof.
  unfold hardDrop.
  destruct (negb (isRunning (state h)) || isPaused (state h) || isGameOver (state h)).
  { intros [= <-] id ms T. now left. }
  destruct (hardDrop_loop _ _) as [st'| |]; simpl; try discriminate.
  intros E. apply drop_rescheduled in E. exact E.
Qed.

Lemma startGame_rescheduled (h : Host) (k1 k2 : nat) :
  rescheduled h (startGame k1 k2 h).
Proof.
  intros id ms. unfold startGame. simpl.
  destruct (dropIntervalRef h) as [id'|]; simpl.
  - intros [[= <- <-] | T]; [right; reflexivity | left].
    apply filter_In in T. apply T.
  - intros [[= <- <-] | T]; [right; reflexivity | now left].
Qed.

Lemma pauseGame_rescheduled (h : Host) : rescheduled h (pauseGame h).
Proof.
  intros id ms. unfold pauseGame.
  destruct (negb (isRunning (state h)) || isGameOver (state h)); [auto|].
  simpl. destruct (negb (isPaused (state h))).
  - destruct (dropIntervalRef h); simpl; [|auto].
    intros T. left. apply filter_In in T. apply T.
  - simpl. intros [[= <- <-] | T]; [right; reflexivity | now left].
Qed.

Lemma move_timers (h h' : Host) (dir : Z) :
  move dir h = Ok h' -> timers h' = timers h.
Proof.
  unfold move.
  destruct (negb (isRunning (state h)) || isPaused (state h) || isGameOver (state h));
    [now intros [= <-]|].
  destruct (collide _ _); simpl; now intros [= <-].
Qed.

Lemma rotate_timers (h h' : Host) :
  rotate h = Ok h' -> timers h' = timers h.
Proof.
  unfold rotate.
  destruct (negb (isRunning (state h)) || isPaused (state h) || isGameOver (state h));
    [now intros [= <-]|].
  destruct (shape (piece (state h))); [discriminate|].
  destruct (collide _ _); cbn [negb]; [|now intros [= <-]].
  match goal with
  | |- context [kick ?np ?b ?offs] => destruct (kick np b offs)
  end; now intros [= <-].
Qed.

Lemma handle_rescheduled (e : Event) (h h' : Host) (k1 k2 : nat) :
  handle e k1 k2 h = Ok h' -> rescheduled h h'.
Proof.
  destruct e as [action|id]; simpl; [|apply drop_rescheduled].
  unfold handleAction.
  repeat match goal with
  | |- context [if ?c then _ else _] => destruct c
  end.
  - intros [= <-]. apply startGame_rescheduled.
  - intros [= <-]. apply pauseGame_rescheduled.
  - intros [= <-] id ms T. now left.
  - intros E id ms T. left. now rewrite <- (move_timers _ _ _ E).
  - intros E id ms T. left. now rewrite <- (move_timers _ _ _ E).
  - intros E id ms T. left. now rewrite <- (rotate_timers _ _ E).
  - apply hardDrop_rescheduled.
  - apply drop_rescheduled.
  - intros [= <-] id ms T. now left.
Qed.

(** C7.  In every reachable state the level is the lines cleared divided by
    ten, rounded down, plus one, so that 0, 9, 10, 19 and 20 lines go with
    the levels 1, 1, 2, 2 and 3; and a gravity timer that an event has just
    scheduled has the period [max(100, 700 - (level - 1) * 50)] for the
    level the event leaves. *)
Theorem level_and_speed :
  (forall h : Host,
      reachable h ->
      level (state h) = lines (state h) / 10 + 1
      /\ (lines (state h) = 0 -> level (state h) = 1)
      /\ (lines (state h) = 9 -> level (state h) = 1)
      /\ (lines (state h) = 10 -> level (state h) = 2)
      /\ (lines (state h) = 19 -> level (state h) = 2)
      /\ (lines (state h) = 20 -> level (state h) = 3))
  /\
  (forall (h h' : Host) (e : Event) (k1 k2 : nat) (id : positive) (ms : Z),
      handle e k1 k2 h = Ok h' ->
      In (id, ms) (timers h') -> ~ In (id, ms) (timers h) ->
      ms = Z.max 100 (700 - (level (state h') - 1) * 50)).
Proof.
  split.
  - intros h R. pose proof (inv_level h (reachable_inv h R)) as L.
    split; [exact L|]. rewrite L.
    repeat split; intros ->; reflexivity.
  - intros h h' e k1 k2 id ms E T N.
    destruct (handle_rescheduled e h h' k1 k2 E id ms T) as [Old|New];
      [contradiction | exact New].
Qed.

Lemma level_and_speed_witness :
  reachable pileHost
  /\ level (state pileHost) = lines (state pileHost) / 10 + 1
  /\ In (1%positive, 700) (timers startedHost)
  /\ 700 = Z.max 100 (700 - (level (state startedHost) - 1) * 50).
Proof.
  destruct level_and_speed as [A B].
  split; [exact pileHost_reachable|].
  split; [exact (proj1 (A pileHost pileHost_reachable))|].
  assert (T : In (1%positive, 700) (timers startedHost)) by (vm_compute; auto).
  split; [exact T|].
  apply (B (initialHost 0 0) startedHost (Action "start") 2%nat 0%nat 1%positive 700);
    [reflexivity | exact T | intros []].
Defined.

(** ** The relay *)

Lemma delivered_broadcast (peer sender : Relay.SocketId) (event payload : string)
    (l : list Relay.SocketId) :
  Relay.delivered peer
    (map (fun target => Relay.Emit target event payload)
         (filter (fun target => negb (target =? sender)%string) l))
  = if (peer =? sender)%string then []
    else repeat (event, payload) (count_occ string_dec l peer).
Proof.
  unfold Relay.delivered.
  induction l as [|a l IH]; simpl.
  - now destruct (peer =? sender)%string.
  - destruct (a =? sender)%string eqn:Ea; simpl.
    + rewrite IH. apply String.eqb_eq in Ea. subst a.
      destruct (peer =? sender)%string eqn:Ep; [reflexivity|].
      apply String.eqb_neq in Ep.
      destruct (string_dec sender peer) as [->|_]; [congruence | reflexivity].
    + rewrite IH. apply String.eqb_neq in Ea.
      destruct (a =? peer)%string eqn:Eap.
      * apply String.eqb_eq in Eap. subst a.
        apply String.eqb_neq in Ea. rewrite Ea.
        destruct (string_dec peer peer); [reflexivity | congruence].
      * apply String.eqb_neq in Eap.
        destruct (string_dec a peer); [congruence|].
        now destruct (peer =? sender)%string.
Qed.

(** C10.  On a [control] event from a connected peer the relay sends the
    same event with the very payload it received to every other socket of
    the registry, once per socket, sends nothing to the sender, sends
    nothing else to anyone, and is left in the state it was in. *)
Theorem relay_forwards_to_others (srv : Relay.Server) (sender : Relay.SocketId)
    (action : string) :
  fst (Relay.onControl srv sender action) = srv
  /\ Relay.delivered sender (snd (Relay.onControl srv sender action)) = []
  /\ (forall peer : Relay.SocketId,
        peer <> sender ->
        Relay.delivered peer (snd (Relay.onControl srv sender action))
        = repeat ("control"%string, action)
                 (count_occ string_dec (Relay.connected srv) peer))
  /\ (forall peer : Relay.SocketId,
        NoDup (Relay.connected srv) -> In peer (Relay.connected srv) ->
        peer <> sender ->
        Relay.delivered peer (snd (Relay.onControl srv sender action))
        = [("control"%string, action)]).
Proof.
  assert (D : forall peer,
             Relay.delivered peer (snd (Relay.onControl srv sender action))
             = if (peer =? sender)%string then []
               else repeat ("control"%string, action)
                           (count_occ string_dec (Relay.connected srv) peer)).
  { intros peer. unfold Relay.onControl, Relay.broadcastEmit. cbn [snd].
    change (Relay.delivered peer (?e :: ?l)) with (Relay.delivered peer l).
    apply delivered_broadcast. }
  split; [reflexivity|]. split; [|split].
  - rewrite D. now rewrite String.eqb_refl.
  - intros peer N. rewrite D. apply String.eqb_neq in N. now rewrite N.
  - intros peer ND I N. rewrite D. apply String.eqb_neq in N. rewrite N.
    rewrite (proj1 (NoDup_count_occ' string_dec (Relay.connected srv)) ND peer I).
    reflexivity.
Qed.

Lemma relay_forwards_to_others_witness :
  Relay.delivered "display"%string
    (snd (Relay.onControl sampleServer "pad-a"%string "rotate"%string))
  = [("control"%string, "rotate"%string)]
  /\ Relay.delivered "pad-a"%string
       (snd (Relay.onControl sampleServer "pad-a"%string "rotate"%string)) = [].
Proof.
  destruct (relay_forwards_to_others sampleServer "pad-a"%string "rotate"%string)
    as (_ & Self & _ & Others).
  split; [|exact Self].
  apply Others.
  - repeat constructor; simpl; intuition discriminate.
  - simpl. auto.
  - discriminate.
Defined.

(** * Further properties of the engine *)

(** ** Collision *)

Lemma cellNonZero_false (b : Board) (newY newX : Z) :
  cellNonZero b newY newX = false <-> cellAt b (Z.to_nat newY) (Z.to_nat newX) = Some 0.
Proof.
  unfold cellNonZero, cellAt. cbv delta [Board Row].
  destruct (@nth_error (list Z) b (Z.to_nat newY)) as [row|];
    [|split; intros E; discriminate E].
  destruct (nth_error row (Z.to_nat newX)) as [cell|];
    [|split; intros E; discriminate E].
  split.
  - intros E. apply negb_false_iff, Z.eqb_eq in E. now subst.
  - intros [= ->]. reflexivity.
Qed.

(** X1.  [collide] answers [false] exactly when every occupied cell of the
    piece is within the columns of the board, above the floor, and, unless
    it is above row 0, on a board cell that holds [0]. *)
Theorem collide_false_iff_fits (p : Piece) (b : Board) :
  collide p b = false <-> fits p b.
Proof.
  split.
  - intros C dy dx O.
    destruct (collide_false_cell p b dy dx C O) as [Bx By].
    split; [exact Bx|]. split; [exact By|].
    intros Y0. apply cellNonZero_false. apply not_true_iff_false. intros N.
    rewrite <- not_true_iff_false in C. apply C.
    destruct O as (row & v & Erow & Ev & Nv).
    unfold collide.
    apply (someFrom_intro _ _ 0 dy row Erow).
    apply (someFrom_intro _ _ 0 dx v Ev).
    cbn beta. rewrite !Z.add_0_l.
    apply Z.eqb_neq in Nv. rewrite Nv, N.
    replace (y p + Z.of_nat dy >=? 0) with true by (symmetry; apply Z.geb_le; lia).
    now rewrite !orb_true_r.
  - intros F. apply not_true_iff_false. intros C.
    unfold collide in C.
    apply someFrom_elim in C. destruct C as (dy & row & Erow & C).
    apply someFrom_elim in C. destruct C as (dx & v & Ev & C).
    rewrite !Z.add_0_l in C.
    destruct (v =? 0) eqn:Nv; [discriminate|].
    apply Z.eqb_neq in Nv.
    destruct (F dy dx) as (Bx & By & Cell); [now exists row, v|].
    replace (x p + Z.of_nat dx <? 0) with false in C by (symmetry; apply Z.ltb_ge; lia).
    replace (x p + Z.of_nat dx >=? COLS) with false in C
      by (symmetry; rewrite Z.geb_leb; apply Z.leb_gt; lia).
    replace (y p + Z.of_nat dy >=? ROWS) with false in C
      by (symmetry; rewrite Z.geb_leb; apply Z.leb_gt; lia).
    cbn [orb] in C.
    apply andb_true_iff in C. destruct C as [Y0 N].
    apply Z.geb_le in Y0.
    apply Cell in Y0. apply cellNonZero_false in Y0. congruence.
Qed.

(** ** What [merge] writes *)

Lemma forEachFrom_steps {A S : Type} (f : A -> Z -> S -> res S) (l : list A) :
  forall (P : nat -> S -> Prop) (i : Z) (s : S),
    P O s ->
    (forall n a s0, nth_error l n = Some a -> P n s0 ->
       exists s1, f a (i + Z.of_nat n) s0 = Ok s1 /\ P (Datatypes.S n) s1) ->
    exists s', forEachFrom i f l s = Ok s' /\ P (length l) s'.
Proof.
  induction l as [|a l IH]; intros P i s P0 F; simpl.
  - now exists s.
  - destruct (F O a s eq_refl P0) as (s1 & E & P1).
    rewrite Z.add_0_r in E. rewrite E. simpl.
    apply (IH (fun n => P (Datatypes.S n)) (i + 1) s1 P1).
    intros n a' s0 En Pn.
    replace (i + 1 + Z.of_nat n) with (i + Z.of_nat (Datatypes.S n)) by lia.
    now apply F.
Qed.

Lemma setNth_same {A : Type} (v : A) (l : list A) :
  forall i, (i < length l)%nat -> nth_error (setNth i v l) i = Some v.
Proof.
  induction l as [|a l IH]; intros [|i] L; simpl in *; try lia; auto.
  apply IH. lia.
Qed.

Lemma writeCell_cellAt {A : Type} (hole v : A) (r c : Z) (m : list (list A)) :
  gridDims m -> 0 <= r < ROWS -> 0 <= c < COLS ->
  exists m',
    writeCell hole r c v m = Ok m' /\ gridDims m'
    /\ cellAt m' (Z.to_nat r) (Z.to_nat c) = Some v
    /\ (forall r' c', r' <> Z.to_nat r \/ c' <> Z.to_nat c ->
          cellAt m' r' c' = cellAt m r' c').
Proof.
  intros G R C.
  destruct (writeCell_dims hole v r c m G R C) as (m' & E & G' & Oth).
  exists m'. split; [exact E|]. split; [exact G'|].
  destruct G as [L W].
  unfold writeCell in E.
  destruct (nth_error m (Z.to_nat r)) as [row|] eqn:Erow; [|discriminate].
  injection E as <-.
  assert (Lr : length row = Z.to_nat COLS).
  { rewrite Forall_forall in W. apply W. eapply nth_error_In; eauto. }
  assert (Lm : (Z.to_nat r < length m)%nat) by (apply nth_error_Some; congruence).
  assert (Aw : arrayWrite hole c v row = setNth (Z.to_nat c) v row).
  { unfold arrayWrite.
    replace (c <? 0) with false by (symmetry; apply Z.ltb_ge; lia).
    now replace (c <? Z.of_nat (length row)) with true
      by (symmetry; apply Z.ltb_lt; rewrite Lr; unfold COLS in *; lia). }
  rewrite Aw. split.
  - unfold cellAt. rewrite setNth_same by exact Lm.
    apply setNth_same. rewrite Lr. unfold COLS in *. lia.
  - intros r' c' N. unfold cellAt.
    destruct (Nat.eq_dec r' (Z.to_nat r)) as [->|Nr].
    + rewrite setNth_same by exact Lm. rewrite Erow.
      apply setNth_other. destruct N; congruence.
    + now rewrite setNth_other by exact Nr.
Qed.

Lemma coveredBefore_succ (p : Piece) (n m r c : nat) :
  coveredBefore p n (S m) r c
  <-> coveredBefore p n m r c
      \/ (occupied (shape p) n m
          /\ y p + Z.of_nat n = Z.of_nat r /\ x p + Z.of_nat m = Z.of_nat c).
Proof.
  unfold coveredBefore. split.
  - intros (dy' & dx' & O & Lt & Ey & Ex).
    destruct (Nat.eq_dec dy' n) as [->|Nn]; [destruct (Nat.eq_dec dx' m) as [->|Nm]|].
    + right. auto.
    + left. exists n, dx'. repeat split; auto. right. lia.
    + left. exists dy', dx'. repeat split; auto. left. lia.
  - intros [(dy' & dx' & O & Lt & Ey & Ex) | (O & Ey & Ex)].
    + exists dy', dx'. repeat split; auto. lia.
    + exists n, m. repeat split; auto.
Qed.

Lemma coveredBefore_row_end (p : Piece) (n r c : nat) (row : list Z) :
  nth_error (shape p) n = Some row ->
  (coveredBefore p (S n) 0 r c <-> coveredBefore p n (length row) r c).
Proof.
  intros Erow. unfold coveredBefore. split.
  - intros (dy' & dx' & O & Lt & Ey & Ex).
    exists dy', dx'. repeat split; auto.
    destruct (Nat.eq_dec dy' n) as [->|Nn]; [right | left; lia].
    split; [reflexivity|].
    destruct O as (row' & v & Erow' & Ev & _).
    rewrite Erow in Erow'. injection Erow' as <-.
    apply nth_error_Some. congruence.
  - intros (dy' & dx' & O & Lt & Ey & Ex).
    exists dy', dx'. repeat split; auto. lia.
Qed.

Lemma coveredBefore_all (p : Piece) (r c : nat) :
  coveredBefore p (length (shape p)) 0 r c <-> covered p r c.
Proof.
  unfold coveredBefore, covered. split.
  - intros (dy' & dx' & O & _ & Ey & Ex). now exists dy', dx'.
  - intros (dy' & dx' & O & Ey & Ex).
    exists dy', dx'. repeat split; auto. left.
    destruct O as (row & v & Erow & _).
    apply nth_error_Some. congruence.
Qed.

Lemma merge_cell_step (p : Piece) (b : Board) (bc : ColorBoard) (n m : nat)
    (row : list Z) (v : Z) (acc : Board * ColorBoard) :
  inBounds p = true ->
  nth_error (shape p) n = Some row -> nth_error row m = Some v ->
  mergedUpTo p b bc n m acc ->
  exists acc',
    (if negb (v =? 0) && (y p + Z.of_nat n >=? 0) then
       b' <- writeCell (-1) (y p + Z.of_nat n) (x p + Z.of_nat m) 1 (fst acc) ;;
       bc' <- writeCell None (y p + Z.of_nat n) (x p + Z.of_nat m) (Some (color p)) (snd acc) ;;
       Ok (b', bc')
     else Ok acc) = Ok acc'
    /\ mergedUpTo p b bc n (S m) acc'.
Proof.
  intros I Erow Ev (Gb & Gc & Cells).
  destruct (negb (v =? 0) && (y p + Z.of_nat n >=? 0)) eqn:W.
  - apply andb_true_iff in W. destruct W as [Nv Y0].
    apply negb_true_iff, Z.eqb_neq in Nv. apply Z.geb_le in Y0.
    assert (O : occupied (shape p) n m) by (exists row, v; auto).
    destruct (inBounds_cell p n m I O) as [Bx By].
    destruct (writeCell_cellAt (-1) 1 (y p + Z.of_nat n) (x p + Z.of_nat m)
                (fst acc) Gb) as (b1 & E1 & G1 & S1 & O1); [lia | lia |].
    destruct (writeCell_cellAt None (Some (color p)) (y p + Z.of_nat n)
                (x p + Z.of_nat m) (snd acc) Gc) as (c1 & E2 & G2 & S2 & O2); [lia | lia |].
    rewrite E1. cbn [bind]. rewrite E2. cbn [bind].
    exists (b1, c1). split; [reflexivity|].
    split; [exact G1|]. split; [exact G2|]. cbn [fst snd].
    intros r c.
    destruct (Nat.eq_dec r (Z.to_nat (y p + Z.of_nat n))) as [Er|Nr];
      [destruct (Nat.eq_dec c (Z.to_nat (x p + Z.of_nat m))) as [Ec|Nc]|].
    + subst r c. split; [auto|].
      intros N. exfalso. apply N. apply coveredBefore_succ. right.
      repeat split; auto; lia.
    + rewrite O1, O2 by (right; exact Nc).
      split; intros H.
      * apply Cells. apply coveredBefore_succ in H.
        destruct H as [H | (_ & _ & Ex)]; [exact H | lia].
      * apply Cells. intros H'. apply H. apply coveredBefore_succ. now left.
    + rewrite O1, O2 by (left; exact Nr).
      split; intros H.
      * apply Cells. apply coveredBefore_succ in H.
        destruct H as [H | (_ & Ey & _)]; [exact H | lia].
      * apply Cells. intros H'. apply H. apply coveredBefore_succ. now left.
  - exists acc. split; [reflexivity|].
    split; [exact Gb|]. split; [exact Gc|].
    assert (No : forall r c,
               ~ (occupied (shape p) n m
                  /\ y p + Z.of_nat n = Z.of_nat r /\ x p + Z.of_nat m = Z.of_nat c)).
    { intros r c ((row' & v' & Erow' & Ev' & Nv') & Ey & _).
      rewrite Erow in Erow'. injection Erow' as <-.
      rewrite Ev in Ev'. injection Ev' as <-.
      apply andb_false_iff in W. destruct W as [W|W].
      - apply negb_false_iff, Z.eqb_eq in W. contradiction.
      - rewrite Z.geb_leb in W. apply Z.leb_gt in W. lia. }
    intros r c. split; intros H.
    + apply Cells. apply coveredBefore_succ in H.
      destruct H as [H|H]; [exact H | now apply No in H].
    + apply Cells. intros H'. apply H. apply coveredBefore_succ. now left.
Qed.

(** X2.  For a piece within the bounds and grids of [ROWS] by [COLS],
    [merge] returns; it keeps the grids' size, writes [1] and the colour of
    the piece at every board cell under an occupied cell of the piece, and
    leaves every other cell of both boards as it was. *)
Theorem merge_cells (p : Piece) (b : Board) (bc : ColorBoard) :
  inBounds p = true -> gridDims b -> gridDims bc ->
  exists b' bc',
    merge p b bc = Ok (b', bc')
    /\ gridDims b' /\ gridDims bc'
    /\ forall r c,
         (covered p r c ->
            cellAt b' r c = Some 1 /\ cellAt bc' r c = Some (Some (color p)))
         /\ (~ covered p r c ->
            cellAt b' r c = cellAt b r c /\ cellAt bc' r c = cellAt bc r c).
Proof.
  intros I Gb Gc.
  assert (Start : mergedUpTo p b bc 0 0 (b, bc)).
  { split; [exact Gb|]. split; [exact Gc|]. intros r c. split; [|auto].
    intros (dy' & dx' & _ & Lt & _). lia. }
  destruct (forEachFrom_steps
              (fun (row : list Z) (dy : Z) (acc : Board * ColorBoard) =>
                 forEachFrom 0 (fun (value : Z) (dx : Z) (acc' : Board * ColorBoard) =>
                   if negb (value =? 0) && (y p + dy >=? 0) then
                     b' <- writeCell (-1) (y p + dy) (x p + dx) 1 (fst acc') ;;
                     bc' <- writeCell None (y p + dy) (x p + dx) (Some (color p)) (snd acc') ;;
                     Ok (b', bc')
                   else Ok acc') row acc)
              (shape p) (fun n => mergedUpTo p b bc n 0) 0 (b, bc) Start)
    as ([b' bc'] & E & Gb' & Gc' & Cells).
  - intros n row acc Erow Pn. rewrite Z.add_0_l.
    destruct (forEachFrom_steps
                (fun (value : Z) (dx : Z) (acc' : Board * ColorBoard) =>
                   if negb (value =? 0) && (y p + Z.of_nat n >=? 0) then
                     b' <- writeCell (-1) (y p + Z.of_nat n) (x p + dx) 1 (fst acc') ;;
                     bc' <- writeCell None (y p + Z.of_nat n) (x p + dx) (Some (color p)) (snd acc') ;;
                     Ok (b', bc')
                   else Ok acc')
                row (fun m => mergedUpTo p b bc n m) 0 acc Pn)
      as (acc1 & E1 & G1 & G2 & Cells1).
    + intros m v acc0 Ev Pm. rewrite Z.add_0_l.
      now apply (merge_cell_step p b bc n m row v acc0).
    + exists acc1. split; [exact E1|].
      split; [exact G1|]. split; [exact G2|].
      intros r c. split; intros H.
      * apply Cells1. now apply (coveredBefore_row_end p n r c row Erow).
      * apply Cells1. intros H'. apply H.
        now apply (coveredBefore_row_end p n r c row Erow).
  - exists b', bc'. split; [exact E|]. split; [exact Gb'|]. split; [exact Gc'|].
    cbn [fst snd] in Cells.
    intros r c. split; intros H.
    + apply Cells. now apply coveredBefore_all.
    + apply Cells. intros H'. apply H. now apply coveredBefore_all.
Qed.

Lemma merge_cells_witness :
  covered landedBar 19 4
  /\ exists b' bc',
       merge landedBar gapBoard createEmptyColorBoard = Ok (b', bc')
       /\ cellAt b' 19 4 = Some 1
       /\ cellAt bc' 19 4 = Some (Some "#00f5ff"%string).
Proof.
  assert (C : covered landedBar 19 4).
  { exists 0%nat, 1%nat. split; [|split; reflexivity].
    exists [1; 1; 1; 1], 1. repeat split. discriminate. }
  split; [exact C|].
  destruct (merge_cells landedBar gapBoard createEmptyColorBoard)
    as (b' & bc' & E & _ & _ & Cells).
  - reflexivity.
  - split; [reflexivity | vm_compute; repeat constructor].
  - exact gridDims_createEmptyColorBoard.
  - exists b', bc'. split; [exact E|]. now apply Cells.
Defined.

(** ** How the operations change the host *)

Lemma afterClear_fields (k : nat) (h : Host) (n : Z) (b : Board) (bc : ColorBoard) :
  board (state (afterClear k h n b bc)) = b
  /\ boardColors (state (afterClear k h n b bc)) = bc
  /\ piece (state (afterClear k h n b bc)) = nextPiece (state h)
  /\ nextPiece (state (afterClear k h n b bc)) = randomPiece k
  /\ isRunning (state (afterClear k h n b bc)) = isRunning (state h)
  /\ isPaused (state (afterClear k h n b bc)) = isPaused (state h)
  /\ lines (state (afterClear k h n b bc))
     = (if n >? 0 then lines (state h) + n else lines (state h))
  /\ level (state (afterClear k h n b bc))
     = (if n >? 0 then (lines (state h) + n) / 10 + 1 else level (state h)).
Proof.
  unfold afterClear. destruct (n >? 0); simpl.
  - destruct (dropIntervalRef h); simpl; repeat split.
  - repeat split.
Qed.

(** The four ways [drop] returns on a host that satisfies the invariant. *)
Lemma drop_cases (h h' : Host) (k : nat) :
  Inv h -> drop k h = Ok h' ->
  h' = h
  \/ (isPaused (state h) = false /\ isGameOver (state h) = false
      /\ h' = setState h (setPiece (state h)
                            (setY (piece (state h)) (y (piece (state h)) + 1))))
  \/ (isPaused (state h) = false /\ isGameOver (state h) = false
      /\ h' = gameOverStep h)
  \/ (exists (b1 b2 : Board) (c1 c2 : ColorBoard) (n : Z),
        isPaused (state h) = false /\ isGameOver (state h) = false
        /\ merge (piece (state h)) (board (state h)) (boardColors (state h)) = Ok (b1, c1)
        /\ gridDims b1 /\ gridDims c1
        /\ clearLines b1 c1 = Ok (n, b2, c2)
        /\ n = Z.of_nat (countFull b1) /\ 0 <= n <= 4
        /\ b2 = repeat emptyRow (countFull b1) ++ filter notFull b1
        /\ c2 = repeat emptyColorRow (countFull b1) ++ keepColors b1 c1
        /\ h' = afterClear k h n b2 c2).
Proof.
  intros I. unfold drop.
  destruct (isPaused (state h)) eqn:Hp; simpl; [intros [= <-]; now left|].
  destruct (isGameOver (state h)) eqn:Ho; simpl; [intros [= <-]; now left|].
  destruct (collide _ _) eqn:C.
  - destruct (y (piece (state h)) <=? 0).
    + intros [= <-]. right. right. left. auto.
    + destruct (merge_dims (piece (state h)) (board (state h)) (boardColors (state h)))
        as (b1 & c1 & M & G1 & G2 & Out); try apply I.
      rewrite M. cbn [bind fst snd].
      pose proof (clearLines_spec b1 c1 (proj1 G1) (proj1 G2)) as L.
      rewrite L. cbn [bind fst snd].
      intros [= <-]. right. right. right.
      exists b1, (repeat emptyRow (countFull b1) ++ filter notFull b1),
             c1, (repeat emptyColorRow (countFull b1) ++ keepColors b1 c1),
             (Z.of_nat (countFull b1)).
      repeat split; auto; try apply G1; try apply G2;
        apply (lock_clears_at_most_four h b1 I G1 Out).
  - intros [= <-]. right. left. auto.
Qed.

Lemma move_cases (h h' : Host) (dir : Z) :
  move dir h = Ok h' ->
  h' = h
  \/ (collide (setX (piece (state h)) (x (piece (state h)) + dir)) (board (state h)) = false
      /\ h' = setState h (setPiece (state h)
                            (setX (piece (state h)) (x (piece (state h)) + dir)))).
Proof.
  unfold move.
  destruct (negb (isRunning (state h)) || isPaused (state h) || isGameOver (state h));
    [intros [= <-]; now left|].
  destruct (collide _ _); simpl; intros [= <-]; [now left | now right].
Qed.

Lemma rotate_cases (h h' : Host) :
  rotate h = Ok h' ->
  h' = h
  \/ exists p',
       shape p' = rotatedCells (shape (piece (state h)))
       /\ y p' = y (piece (state h))
       /\ collide p' (board (state h)) = false
       /\ h' = setState h (setPiece (state h) p').
Proof.
  unfold rotate.
  destruct (negb (isRunning (state h)) || isPaused (state h) || isGameOver (state h));
    [intros [= <-]; now left|].
  destruct (shape (piece (state h))) as [|row rest] eqn:E; [discriminate|].
  destruct (collide _ _) eqn:C; cbn [negb].
  - match goal with
    | |- context [kick ?np ?b ?offs] => destruct (kick np b offs) as [kp|] eqn:Ek
    end; intros [= <-]; [|now left].
    right. exists kp. pose proof Ek as Ek'. apply kick_some in Ek. destruct Ek as [Es Ec].
    split; [exact Es|]. split; [|split; [exact Ec | reflexivity]].
    clear - Ek'. revert Ek'.
    generalize [-1; 1; -2; 2].
    induction l as [|o l IH]; simpl; [discriminate|].
    destruct (collide _ _); simpl; [exact IH | intros [= <-]; reflexivity].
  - intros [= <-]. right.
    exists (setShape (piece (state h)) (rotatedCells (row :: rest))).
    split; [reflexivity|]. split; [reflexivity|]. split; [exact C | reflexivity].
Qed.

Lemma hardDrop_cases (h h' : Host) (k : nat) :
  Inv h -> hardDrop k h = Ok h' ->
  h' = h
  \/ exists g d,
       isRunning (state h) = true /\ isPaused (state h) = false
       /\ isGameOver (state h) = false
       /\ descended (state h) g d /\ drop k (setState h g) = Ok h'.
Proof.
  intros I E.
  destruct (negb (isRunning (state h)) || isPaused (state h) || isGameOver (state h))
    eqn:G.
  - left. unfold hardDrop in E. rewrite G in E. now injection E.
  - apply orb_false_iff in G. destruct G as [G Ho].
    apply orb_false_iff in G. destruct G as [Hr Hp].
    apply negb_false_iff in Hr.
    destruct (orientation_facts _ (inv_shape h I)) as (_ & H & _).
    destruct (hardDrop_descent h k Hr Hp Ho H) as (g & d & D & Eq).
    right. exists g, d. rewrite Eq in E. auto.
Qed.

(** ** Colours follow the cells *)

Lemma Forall2_setNth {A B : Type} (R : A -> B -> Prop) (a : A) (b : B)
    (l1 : list A) (l2 : list B) :
  Forall2 R l1 l2 -> R a b -> forall i, Forall2 R (setNth i a l1) (setNth i b l2).
Proof.
  intros F Rab. induction F as [|a' b' l1 l2 Rh F IH]; intros [|i]; simpl;
    constructor; auto.
Qed.

Lemma Forall2_at {A B : Type} (R : A -> B -> Prop) (l1 : list A) (l2 : list B) :
  Forall2 R l1 l2 ->
  forall i a b, nth_error l1 i = Some a -> nth_error l2 i = Some b -> R a b.
Proof.
  intros F. induction F as [|a' b' l1 l2 Rh F IH]; intros [|i] a b E1 E2;
    simpl in *; try discriminate.
  - injection E1 as <-. injection E2 as <-. exact Rh.
  - eapply IH; eauto.
Qed.

Lemma arrayWrite_in_range {A : Type} (hole v : A) (c : Z) (row : list A) :
  0 <= c < Z.of_nat (length row) ->
  arrayWrite hole c v row = setNth (Z.to_nat c) v row.
Proof.
  intros R. unfold arrayWrite.
  replace (c <? 0) with false by (symmetry; apply Z.ltb_ge; lia).
  now replace (c <? Z.of_nat (length row)) with true by (symmetry; apply Z.ltb_lt; lia).
Qed.

Lemma writeCell_agree (b0 : Board) (c0 : ColorBoard) (r c : Z) (col : string) :
  gridDims b0 -> gridDims c0 -> coloursAgree b0 c0 ->
  0 <= r < ROWS -> 0 <= c < COLS ->
  exists b1 c1,
    writeCell (-1) r c 1 b0 = Ok b1
    /\ writeCell None r c (Some col) c0 = Ok c1
    /\ gridDims b1 /\ gridDims c1 /\ coloursAgree b1 c1.
Proof.
  intros Gb Gc Ag R C.
  destruct (writeCell_dims (-1) 1 r c b0 Gb R C) as (b1 & E1 & G1 & _).
  destruct (writeCell_dims None (Some col) r c c0 Gc R C) as (c1 & E2 & G2 & _).
  exists b1, c1. split; [exact E1|]. split; [exact E2|].
  split; [exact G1|]. split; [exact G2|].
  unfold writeCell in E1, E2.
  destruct (@nth_error (list Z) b0 (Z.to_nat r)) as [row|] eqn:Er; [|discriminate].
  destruct (@nth_error (list (option string)) c0 (Z.to_nat r)) as [crow|] eqn:Ec;
    [|discriminate].
  injection E1 as <-. injection E2 as <-.
  assert (Lr : length row = Z.to_nat COLS).
  { destruct Gb as [_ W]. rewrite Forall_forall in W. apply W.
    eapply nth_error_In; eauto. }
  assert (Lc : length crow = Z.to_nat COLS).
  { destruct Gc as [_ W]. rewrite Forall_forall in W. apply W.
    eapply nth_error_In; eauto. }
  rewrite !arrayWrite_in_range by (rewrite ?Lr, ?Lc; unfold COLS in *; lia).
  apply Forall2_setNth; [exact Ag|].
  apply Forall2_setNth; [exact (Forall2_at _ _ _ Ag _ _ _ Er Ec)|].
  unfold cellAgrees. split; intros _ H; discriminate H.
Qed.

Lemma merge_agree (p : Piece) (b b' : Board) (bc bc' : ColorBoard) :
  inBounds p = true -> gridDims b -> gridDims bc -> coloursAgree b bc ->
  merge p b bc = Ok (b', bc') -> coloursAgree b' bc'.
Proof.
  intros I Gb Gc Ag M.
  set (P := fun acc : Board * ColorBoard =>
              gridDims (fst acc) /\ gridDims (snd acc)
              /\ coloursAgree (fst acc) (snd acc)).
  assert (E : exists acc, merge p b bc = Ok acc /\ P acc).
  { unfold merge.
    apply (forEachFrom_inv P); [split; [exact Gb | split; [exact Gc | exact Ag]]|].
    intros dy row acc Erow Pacc.
    apply (forEachFrom_inv P); [exact Pacc|].
    intros dx v [b0 c0] Ev (Gb' & Gc' & Ag').
    cbn [fst snd] in *. rewrite !Z.add_0_l.
    destruct (v =? 0) eqn:N; simpl negb; simpl andb; cbv iota.
    - exists (b0, c0). split; [reflexivity | split; [exact Gb' | split; [exact Gc' | exact Ag']]].
    - destruct (y p + Z.of_nat dy >=? 0) eqn:Y.
      + apply Z.geb_le in Y.
        assert (O : occupied (shape p) dy dx).
        { exists row, v. repeat split; auto. now apply Z.eqb_neq. }
        destruct (inBounds_cell p dy dx I O) as [Bx By].
        destruct (writeCell_agree b0 c0 (y p + Z.of_nat dy) (x p + Z.of_nat dx)
                    (color p) Gb' Gc' Ag') as (b1 & c1 & E1 & E2 & G1 & G2 & Ag1);
          [lia | lia |].
        rewrite E1. simpl. rewrite E2. simpl.
        exists (b1, c1). split; [reflexivity | split; [exact G1 | split; [exact G2 | exact Ag1]]].
      + exists (b0, c0). split; [reflexivity | split; [exact Gb' | split; [exact Gc' | exact Ag']]]. }
  destruct E as (acc & E & _ & _ & Ag1).
  rewrite M in E. injection E as <-. exact Ag1.
Qed.

Lemma emptyRows_agree (k : nat) :
  coloursAgree (repeat emptyRow k) (repeat emptyColorRow k).
Proof.
  induction k as [|k IH]; [constructor|].
  simpl. constructor; [|exact IH].
  unfold emptyRow, emptyColorRow. simpl.
  repeat (constructor; [unfold cellAgrees; split; intros N; now contradiction N|]).
  constructor.
Qed.

Lemma cleared_agree (b : Board) (bc : ColorBoard) (k : nat) :
  coloursAgree b bc ->
  coloursAgree (repeat emptyRow k ++ filter notFull b)
               (repeat emptyColorRow k ++ keepColors b bc).
Proof.
  intros Ag. apply Forall2_app; [apply emptyRows_agree|].
  unfold notFull.
  induction Ag as [|row crow b bc R Ag IH]; simpl; [constructor|].
  destruct (fullRow row); simpl; [exact IH | constructor; assumption].
Qed.

Lemma randomPiece_y (k : nat) : y (randomPiece k) = 0.
Proof. unfold randomPiece. now destruct (nth k SHAPES ([], EmptyString)). Qed.

Lemma initialHost_inv2 (k1 k2 : nat) : Inv2 (initialHost k1 k2).
Proof.
  split; [|split]; simpl; [| lia | rewrite randomPiece_y; lia].
  apply (emptyRows_agree (Z.to_nat ROWS)).
Qed.

Lemma drop_inv2 (h h' : Host) (k : nat) :
  Inv h -> Inv2 h -> drop k h = Ok h' -> Inv2 h'.
Proof.
  intros I (Ag & Ln & Y0) E.
  destruct (drop_cases h h' k I E)
    as [-> | [(_ & _ & ->) | [(_ & _ & ->)
        | (b1 & b2 & c1 & c2 & n & _ & _ & M & G1 & G2 & _ & En & Rn & -> & -> & ->)]]].
  - now repeat split.
  - repeat split; simpl; auto. lia.
  - unfold Inv2. rewrite (gameOverStep_state h). now repeat split.
  - unfold Inv2.
    destruct (afterClear_fields k h n
                (repeat emptyRow (countFull b1) ++ filter notFull b1)
                (repeat emptyColorRow (countFull b1) ++ keepColors b1 c1))
      as (Fb & Fc & Fp & _ & _ & _ & Fl & _).
    split; [|split].
    + rewrite Fb, Fc. apply cleared_agree.
      apply (merge_agree (piece (state h)) (board (state h)) b1 (boardColors (state h)) c1);
        auto; apply I.
    + rewrite Fl. destruct (n >? 0); lia.
    + rewrite Fp. destruct (inv_next h I) as (k' & _ & ->).
      rewrite randomPiece_y. lia.
Qed.

Lemma startGame_state (h : Host) (k1 k2 : nat) :
  state (startGame k1 k2 h)
  = (if isGameOver (state h) || negb (isRunning (state h))
     then setFlags (freshRun (state h) k1 k2) true false false
     else setFlags (state h) true false (isGameOver (state h))).
Proof.
  unfold startGame. simpl.
  destruct (dropIntervalRef h); simpl;
    now destruct (isGameOver (state h) || negb (isRunning (state h))).
Qed.

Lemma pauseGame_state (h : Host) :
  state (pauseGame h)
  = (if negb (isRunning (state h)) || isGameOver (state h) then state h
     else setFlags (state h) (isRunning (state h)) (negb (isPaused (state h)))
                   (isGameOver (state h))).
Proof.
  unfold pauseGame.
  destruct (negb (isRunning (state h)) || isGameOver (state h)); [reflexivity|].
  simpl. destruct (negb (isPaused (state h))); [|reflexivity].
  now destruct (dropIntervalRef h).
Qed.

Lemma handle_inv2 (e : Event) (h h' : Host) (k1 k2 : nat) :
  Inv h -> Inv2 h -> handle e k1 k2 h = Ok h' -> Inv2 h'.
Proof.
  intros I I2. destruct e as [action|id]; cbn [handle]; [|now apply drop_inv2].
  unfold handleAction.
  repeat match goal with
  | |- context [if ?c then _ else _] => destruct c
  end.
  - intros [= <-]. unfold Inv2. rewrite startGame_state.
    destruct (isGameOver (state h) || negb (isRunning (state h))); [|exact I2].
    split; [|split]; simpl; [| lia | rewrite randomPiece_y; lia].
    apply (emptyRows_agree (Z.to_nat ROWS)).
  - intros [= <-]. unfold Inv2. rewrite pauseGame_state.
    destruct (negb (isRunning (state h)) || isGameOver (state h)); exact I2.
  - intros [= <-]. split; [|split]; simpl; [| lia | rewrite randomPiece_y; lia].
    apply (emptyRows_agree (Z.to_nat ROWS)).
  - intros E. destruct (move_cases _ _ _ E) as [-> | (_ & ->)]; exact I2.
  - intros E. destruct (move_cases _ _ _ E) as [-> | (_ & ->)]; exact I2.
  - intros E. destruct (rotate_cases _ _ E) as [-> | (p' & _ & Ey & _ & ->)];
      [exact I2|].
    destruct I2 as (Ag & Ln & Y0). repeat split; simpl; auto. now rewrite Ey.
  - intros E. destruct (hardDrop_cases _ _ _ I E)
      as [-> | (g & d & _ & _ & _ & D & Ed)]; [exact I2|].
    apply (drop_inv2 (setState h g) h' k1); [now apply (descended_inv h g d) | | exact Ed].
    destruct D as (D0 & D1 & _ & D3 & D4 & _ & D6 & _).
    destruct I2 as (Ag & Ln & Y0).
    split; [|split]; simpl; [now rewrite D3, D4 | now rewrite D6 |].
    rewrite D1. simpl. lia.
  - now apply drop_inv2.
  - now intros [= <-].
Qed.

Lemma reachable_inv2 (h : Host) : reachable h -> Inv2 h.
Proof.
  induction 1 as [k1 k2 K1 K2 | h h' e k1 k2 R IH F K1 K2 E | h R IH].
  - apply initialHost_inv2.
  - apply (handle_inv2 e h h' k1 k2); auto. now apply reachable_inv.
  - unfold Inv2. now rewrite effectCleanup_state.
Qed.

(** X4.  In every reachable state a cell of the board is occupied exactly
    when the colour board holds a colour at the same place. *)
Theorem colours_follow_cells (h : Host) (r c : nat) (v : Z) :
  reachable h ->
  cellAt (board (state h)) r c = Some v ->
  exists col,
    cellAt (boardColors (state h)) r c = Some col /\ (v <> 0 <-> col <> None).
Proof.
  intros R E. destruct (reachable_inv2 h R) as (Ag & _).
  unfold cellAt in *. cbv delta [Board Row ColorBoard ColorRow] in *.
  destruct (@nth_error (list Z) (board (state h)) r) as [row|] eqn:Er; [|discriminate].
  destruct (@nth_error (list (option string)) (boardColors (state h)) r)
    as [crow|] eqn:Ec.
  - pose proof (Forall2_at _ _ _ Ag r row crow Er Ec) as Rw.
    destruct (nth_error crow c) as [col|] eqn:Ecol.
    + exists col. split; [reflexivity|]. exact (Forall2_at _ _ _ Rw c v col E Ecol).
    + apply nth_error_None in Ecol. apply Forall2_length in Rw.
      assert (c < length row)%nat by (apply nth_error_Some; rewrite E; discriminate).
      lia.
  - apply nth_error_None in Ec. apply Forall2_length in Ag.
    assert (r < @length (list Z) (board (state h)))%nat
      by (apply (proj1 (@nth_error_Some (list Z) (board (state h)) r));
          rewrite Er; discriminate).
    lia.
Qed.

Lemma colours_follow_cells_witness :
  cellAt (board (state pileHost)) 5 4 = Some 1
  /\ exists col,
       cellAt (boardColors (state pileHost)) 5 4 = Some col
       /\ (1 <> 0 <-> col <> None).
Proof.
  assert (E : cellAt (board (state pileHost)) 5 4 = Some 1) by (vm_compute; reflexivity).
  split; [exact E|].
  exact (colours_follow_cells pileHost 5 4 1 pileHost_reachable E).
Defined.

(** ** What holds of every reachable state *)

(** X3.  The board and the colour board keep [ROWS] rows of [COLS] cells in
    every state the event loop can reach. *)
Theorem boards_keep_dimensions (h : Host) :
  reachable h ->
  gridDims (board (state h)) /\ gridDims (boardColors (state h)).
Proof.
  intros R. pose proof (reachable_inv h R) as I. split; apply I.
Qed.

Lemma boards_keep_dimensions_witness :
  gridDims (board (state pileHost)) /\ gridDims (boardColors (state pileHost)).
Proof. exact (boards_keep_dimensions pileHost pileHost_reachable). Defined.

Lemma staleHost_reachable : reachable staleHost.
Proof.
  apply reach_cleanup.
  apply (reach_step overHost (startGame 1 1 overHost) (Action "start") 1 1);
    try lia; try exact I; try reflexivity.
  apply (reach_step pileHost overHost (Tick 1) 1 1); try lia.
  - apply pileHost_reachable.
  - exists 700. vm_compute. auto.
  - vm_compute. reflexivity.
Qed.

(** X5.  There is never more than one gravity timer.  A timer that is live
    is the one whose handle the reference holds; while the reference holds
    a handle the game is running, not paused and not over; and with the
    reference [null] no timer is live.  The handle in the reference can be
    that of a timer that is live no more, once the cleanup of the transport
    effect has run. *)
Theorem one_gravity_timer (h : Host) :
  reachable h ->
  (timers h = []
   \/ exists id ms, timers h = [(id, ms)] /\ dropIntervalRef h = Some id)
  /\ (dropIntervalRef h = None -> timers h = [])
  /\ (dropIntervalRef h <> None ->
      isRunning (state h) = true /\ isPaused (state h) = false
      /\ isGameOver (state h) = false).
Proof.
  intros R. pose proof (reachable_inv h R) as I.
  pose proof (inv_timers h I) as T.
  split; [|split].
  - destruct (dropIntervalRef h) as [id|] eqn:Ed; [|now left].
    destruct T as [T | [ms T]]; [now left|]. right. now exists id, ms.
  - intros Ed. now rewrite Ed in T.
  - intros N. split; [now apply (inv_running h I)|].
    split; [destruct (isPaused (state h)) eqn:P
           | destruct (isGameOver (state h)) eqn:O]; auto; exfalso; apply N.
    + now apply (inv_paused h I).
    + now apply (inv_over h I).
Qed.

Lemma one_gravity_timer_witness :
  (timers staleHost = [] /\ dropIntervalRef staleHost = Some 2%positive)
  /\ (timers pileHost = [(1%positive, 700)] /\ dropIntervalRef pileHost = Some 1%positive)
  /\ (dropIntervalRef staleHost <> None ->
      isRunning (state staleHost) = true /\ isPaused (state staleHost) = false
      /\ isGameOver (state staleHost) = false)
  /\ (timers pileHost = []
      \/ exists id ms, timers pileHost = [(id, ms)] /\ dropIntervalRef pileHost = Some id).
Proof.
  split; [split; vm_compute; reflexivity|].
  split; [split; vm_compute; reflexivity|].
  split.
  - apply (one_gravity_timer staleHost staleHost_reachable).
  - apply (one_gravity_timer pileHost pileHost_reachable).
Defined.

(** X6.  From a reachable state no event makes the engine raise or loop
    for ever: the handler returns a host, and [draw] returns on it. *)
Theorem events_and_draw_return (h : Host) (e : Event) (k1 k2 : nat) :
  reachable h -> (k1 < 7)%nat -> (k2 < 7)%nat ->
  exists h', handle e k1 k2 h = Ok h' /\ draw (state h') = Ok tt.
Proof.
  intros R K1 K2.
  destruct (handle_inv e h k1 k2 (reachable_inv h R) K1 K2) as (h' & E & I').
  exists h'. split; [exact E | now apply draw_returns].
Qed.

Lemma events_and_draw_return_witness :
  exists h', handle (Action "drop") 1 1 pileHost = Ok h' /\ draw (state h') = Ok tt.
Proof.
  apply (events_and_draw_return pileHost (Action "drop") 1 1 pileHost_reachable); lia.
Defined.

Lemma fullRow_false_zero (row : Row) : fullRow row = false -> In 0 row.
Proof.
  unfold fullRow. induction row as [|v row IH]; simpl; [discriminate|].
  destruct (Z.eqb_spec v 0) as [->|N]; simpl.
  - intros _. now left.
  - intros E. right. now apply IH.
Qed.

(** X15.  No complete row is ever left on the board: in every reachable
    state each row of the board has an empty cell. *)
Theorem no_full_row_survives (h : Host) (r : nat) (row : Row) :
  reachable h -> nth_error (board (state h)) r = Some row -> In 0 row.
Proof.
  intros R E. pose proof (inv_nofull h (reachable_inv h R)) as N.
  unfold countFull in N. apply length_zero_iff_nil in N.
  apply fullRow_false_zero.
  destruct (fullRow row) eqn:F; [|reflexivity].
  apply nth_error_In in E.
  assert (In row (filter fullRow (board (state h)))) as Hin
    by (apply filter_In; split; assumption).
  rewrite N in Hin. destruct Hin.
Qed.

Lemma no_full_row_survives_witness :
  nth_error (board (state pileHost)) 19 = Some [0; 0; 0; 0; 1; 1; 0; 0; 0; 0]
  /\ In 0 [0; 0; 0; 0; 1; 1; 0; 0; 0; 0].
Proof.
  assert (E : nth_error (board (state pileHost)) 19 = Some [0; 0; 0; 0; 1; 1; 0; 0; 0; 0])
    by (vm_compute; reflexivity).
  split; [exact E|].
  exact (no_full_row_survives pileHost 19 _ pileHost_reachable E).
Defined.

(** X16.  The active piece is one of the orientations of the seven shapes
    and never leaves the board: each of its occupied cells lies in a row
    from 0 to [ROWS - 1] and a column from 0 to [COLS - 1]. *)
Theorem piece_stays_on_board (h : Host) (dy dx : nat) :
  reachable h ->
  occupied (shape (piece (state h))) dy dx ->
  In (shape (piece (state h))) orientations
  /\ 0 <= y (piece (state h)) + Z.of_nat dy < ROWS
  /\ 0 <= x (piece (state h)) + Z.of_nat dx < COLS.
Proof.
  intros R Oc. pose proof (reachable_inv h R) as I.
  destruct (reachable_inv2 h R) as (_ & _ & Y0).
  destruct (inBounds_cell _ dy dx (inv_bounds h I) Oc) as [Hx Hy].
  split; [apply I|]. split; [lia | exact Hx].
Qed.

Lemma piece_stays_on_board_witness :
  occupied (shape (piece (state pileHost))) 1 1
  /\ In (shape (piece (state pileHost))) orientations
  /\ 0 <= y (piece (state pileHost)) + Z.of_nat 1 < ROWS
  /\ 0 <= x (piece (state pileHost)) + Z.of_nat 1 < COLS.
Proof.
  assert (Oc : occupied (shape (piece (state pileHost))) 1 1).
  { exists [1; 1], 1. repeat split; try (vm_compute; reflexivity). discriminate. }
  split; [exact Oc|].
  exact (piece_stays_on_board pileHost 1 1 pileHost_reachable Oc).
Defined.

(** ** Start, pause and restart *)

Lemma overHost_reachable : reachable overHost.
Proof.
  apply (reach_step pileHost overHost (Tick 1) 1 1); try lia.
  - apply pileHost_reachable.
  - exists 700. vm_compute. auto.
  - vm_compute. reflexivity.
Qed.

(** X7.  Pausing a running game clears the gravity timer, and pausing again
    gives back the state as it was, with one new timer at the period of the
    level. *)
Theorem pause_twice_resumes (h : Host) :
  reachable h ->
  isRunning (state h) = true -> isPaused (state h) = false ->
  isGameOver (state h) = false ->
  isPaused (state (pauseGame h)) = true
  /\ dropIntervalRef (pauseGame h) = None /\ timers (pauseGame h) = []
  /\ state (pauseGame (pauseGame h)) = state h
  /\ dropIntervalRef (pauseGame (pauseGame h)) = Some (nextHandle h)
  /\ timers (pauseGame (pauseGame h)) = [(nextHandle h, speed (level (state h)))].
Proof.
  intros R Hr Hp Ho. pose proof (inv_timers h (reachable_inv h R)) as T.
  destruct h as [st ref tm nh]. simpl in *.
  destruct st as [b bc p np sc ln lv r pa ov]. simpl in *. subst r pa ov.
  unfold pauseGame. simpl.
  destruct ref as [id|]; simpl.
  - destruct T as [-> | [ms ->]]; simpl; rewrite ?Pos.eqb_refl; simpl; auto 10.
  - subst tm. simpl. auto 10.
Qed.

Lemma pause_twice_resumes_witness :
  isPaused (state (pauseGame startedHost)) = true
  /\ dropIntervalRef (pauseGame startedHost) = None
  /\ timers (pauseGame startedHost) = []
  /\ state (pauseGame (pauseGame startedHost)) = state startedHost
  /\ dropIntervalRef (pauseGame (pauseGame startedHost)) = Some (nextHandle startedHost)
  /\ timers (pauseGame (pauseGame startedHost))
     = [(nextHandle startedHost, speed (level (state startedHost)))].
Proof.
  apply (pause_twice_resumes startedHost); try reflexivity.
  apply (reach_step (initialHost 0 0) startedHost (Action "start") 2 0);
    try lia; try exact I; try reflexivity.
  apply reach_init; lia.
Defined.

(** X8.  After [startGame], from any reachable state, exactly one gravity
    timer is live: the one just made, with the period of the level.  Timers
    made by earlier presses do not pile up. *)
Theorem start_leaves_one_timer (h : Host) (k1 k2 : nat) :
  reachable h ->
  dropIntervalRef (startGame k1 k2 h) = Some (nextHandle h)
  /\ timers (startGame k1 k2 h)
     = [(nextHandle h, speed (level (state (startGame k1 k2 h))))]
  /\ nextHandle (startGame k1 k2 h) = Pos.succ (nextHandle h).
Proof.
  intros R. pose proof (inv_timers h (reachable_inv h R)) as T.
  unfold startGame. destruct h as [st ref tm nh]. simpl in *.
  destruct ref as [id|]; simpl.
  - destruct T as [-> | [ms ->]]; simpl; rewrite ?Pos.eqb_refl; simpl; auto.
  - subst tm. auto.
Qed.

Lemma start_leaves_one_timer_witness :
  dropIntervalRef (startGame 3 4 pileHost) = Some (nextHandle pileHost)
  /\ timers (startGame 3 4 pileHost)
     = [(nextHandle pileHost, speed (level (state (startGame 3 4 pileHost))))]
  /\ nextHandle (startGame 3 4 pileHost) = Pos.succ (nextHandle pileHost).
Proof. exact (start_leaves_one_timer pileHost 3 4 pileHost_reachable). Defined.

(** X9.  [restartGame] resets the run and sets it running but never makes
    a gravity timer: restarting a game that is over, paused or not yet
    started gives a run that is shown as running and unpaused in which no
    tick can fire. *)
Theorem restart_makes_no_timer (h : Host) (k1 k2 : nat) :
  reachable h ->
  isRunning (state h) = false \/ isPaused (state h) = true
  \/ isGameOver (state h) = true ->
  isRunning (state (restartGame k1 k2 h)) = true
  /\ isPaused (state (restartGame k1 k2 h)) = false
  /\ isGameOver (state (restartGame k1 k2 h)) = false
  /\ dropIntervalRef (restartGame k1 k2 h) = None
  /\ timers (restartGame k1 k2 h) = []
  /\ forall id, ~ fires (Tick id) (restartGame k1 k2 h).
Proof.
  intros R G. pose proof (reachable_inv h R) as I.
  assert (Ref : dropIntervalRef h = None).
  { destruct G as [G | [G | G]].
    - destruct (dropIntervalRef h) as [id|] eqn:E; [|reflexivity].
      assert (isRunning (state h) = true) by (apply (inv_running h I); congruence).
      congruence.
    - now apply (inv_paused h I).
    - now apply (inv_over h I). }
  pose proof (inv_timers h I) as T. rewrite Ref in T.
  unfold restartGame. simpl. rewrite Ref, T.
  repeat split. intros id [ms []].
Qed.

Lemma restart_makes_no_timer_witness :
  isGameOver (state overHost) = true
  /\ isRunning (state (restartGame 0 1 overHost)) = true
  /\ isPaused (state (restartGame 0 1 overHost)) = false
  /\ isGameOver (state (restartGame 0 1 overHost)) = false
  /\ dropIntervalRef (restartGame 0 1 overHost) = None
  /\ timers (restartGame 0 1 overHost) = []
  /\ forall id, ~ fires (Tick id) (restartGame 0 1 overHost).
Proof.
  split; [reflexivity|].
  apply (restart_makes_no_timer overHost 0 1 overHost_reachable).
  right. right. reflexivity.
Defined.

(** ** Moves *)

(** X10.  A sideways move that succeeds is undone by the opposite move:
    when the piece overlaps nothing before and after the shift, [move dir]
    followed by [move (- dir)] gives back the host as it was. *)
Theorem move_round_trip (h : Host) (dir : Z) :
  isRunning (state h) = true -> isPaused (state h) = false ->
  isGameOver (state h) = false ->
  collide (piece (state h)) (board (state h)) = false ->
  collide (setX (piece (state h)) (x (piece (state h)) + dir)) (board (state h)) = false ->
  exists h1,
    move dir h = Ok h1
    /\ x (piece (state h1)) = x (piece (state h)) + dir
    /\ move (- dir) h1 = Ok h.
Proof.
  intros Hr Hp Ho C0 C1.
  destruct h as [st ref tm nh]. destruct st as [b bc p np sc ln lv r pa ov].
  destruct p as [sh col px py]. simpl in *. subst r pa ov.
  eexists. unfold move. simpl. unfold setX in C1 |- *. simpl in *. rewrite C1. simpl.
  split; [reflexivity|]. split; [reflexivity|].
  cbn [setState setPiece state piece board isRunning isPaused isGameOver
       negb orb x y shape color].
  replace (px + dir + - dir) with px by lia.
  now rewrite C0.
Qed.

Lemma move_round_trip_witness :
  exists h1,
    move 1 startedHost = Ok h1
    /\ x (piece (state h1)) = x (piece (state startedHost)) + 1
    /\ move (- 1) h1 = Ok startedHost.
Proof.
  apply (move_round_trip startedHost 1); vm_compute; reflexivity.
Defined.

(** ** Locking *)

Lemma drop_blocked (h : Host) (k : nat) :
  Inv h -> isPaused (state h) = false -> isGameOver (state h) = false ->
  collide (setY (piece (state h)) (y (piece (state h)) + 1)) (board (state h)) = true ->
  (y (piece (state h)) <= 0 /\ drop k h = Ok (gameOverStep h))
  \/ (0 < y (piece (state h))
      /\ exists (b1 : Board) (c1 : ColorBoard),
           merge (piece (state h)) (board (state h)) (boardColors (state h)) = Ok (b1, c1)
           /\ 0 <= Z.of_nat (countFull b1) <= 4
           /\ drop k h
              = Ok (afterClear k h (Z.of_nat (countFull b1))
                      (repeat emptyRow (countFull b1) ++ filter notFull b1)
                      (repeat emptyColorRow (countFull b1) ++ keepColors b1 c1))).
Proof.
  intros I Hp Ho C. unfold drop. rewrite Hp, Ho, C. simpl.
  destruct (Z.leb_spec (y (piece (state h))) 0) as [L|L].
  - left. auto.
  - right. split; [exact L|].
    destruct (merge_dims (piece (state h)) (board (state h)) (boardColors (state h)))
      as (b1 & c1 & M & G1 & G2 & Out); try apply I.
    exists b1, c1. rewrite M. cbn [bind fst snd].
    rewrite (clearLines_spec b1 c1 (proj1 G1) (proj1 G2)). cbn [bind fst snd].
    split; [reflexivity|]. split; [|reflexivity].
    apply (lock_clears_at_most_four h b1 I G1 Out).
Qed.

Lemma reachable_hasCell (h : Host) : reachable h -> hasCell (piece (state h)) = true.
Proof.
  intros R. unfold hasCell.
  now destruct (orientation_facts _ (inv_shape h (reachable_inv h R))) as (_ & E & _).
Qed.

(** X13.  A hard drop always ends the turn of the piece.  It falls [d] rows
    through free cells to the first place where it can fall no further;
    there it is merged into the board and the next piece comes into play,
    unless it could not fall at all from the top row, which ends the run. *)
Theorem hard_drop_ends_the_turn (h : Host) (k : nat) :
  reachable h ->
  isRunning (state h) = true -> isPaused (state h) = false ->
  isGameOver (state h) = false ->
  exists h' d,
    hardDrop k h = Ok h' /\ 0 <= d
    /\ (forall j, 1 <= j <= d ->
          collide (setY (piece (state h)) (y (piece (state h)) + j)) (board (state h))
          = false)
    /\ collide (setY (piece (state h)) (y (piece (state h)) + d + 1)) (board (state h))
       = true
    /\ ((y (piece (state h)) = 0 /\ d = 0 /\ isGameOver (state h') = true)
        \/ (0 < y (piece (state h)) + d
            /\ isGameOver (state h') = false
            /\ piece (state h') = nextPiece (state h)
            /\ nextPiece (state h') = randomPiece k
            /\ exists (b1 : Board) (c1 : ColorBoard),
                 merge (setY (piece (state h)) (y (piece (state h)) + d))
                       (board (state h)) (boardColors (state h)) = Ok (b1, c1)
                 /\ board (state h')
                    = repeat emptyRow (countFull b1) ++ filter notFull b1)).
Proof.
  intros R Hr Hp Ho. pose proof (reachable_inv h R) as I.
  destruct (reachable_inv2 h R) as (_ & _ & Y0).
  destruct (hardDrop_descent h k Hr Hp Ho (reachable_hasCell h R)) as (g & d & D & E).
  pose proof (descended_inv h g d I D) as Ig.
  pose proof (descended_blocked _ _ _ D) as B.
  destruct D as (D0 & D1 & D2 & D3 & D4 & D5 & D6 & D7 & D8 & D9 & D10 & D11 & D12).
  assert (Pg : isPaused (state (setState h g)) = false) by (simpl; congruence).
  assert (Og : isGameOver (state (setState h g)) = false) by (simpl; congruence).
  destruct (drop_blocked (setState h g) k Ig Pg Og B)
    as [(L & Ed) | (L & b1 & c1 & M & N & Ed)]; simpl in L.
  - exists (gameOverStep (setState h g)), d. rewrite E.
    split; [exact Ed|]. split; [exact D0|]. split; [exact D11|]. split; [exact D12|].
    left. rewrite D1 in L. simpl in L.
    split; [lia|]. split; [lia|]. now rewrite gameOverStep_state.
  - eexists. exists d. rewrite E.
    split; [exact Ed|]. split; [exact D0|]. split; [exact D11|]. split; [exact D12|].
    right. rewrite D1 in L. simpl in L. split; [exact L|].
    rewrite afterClear_over.
    destruct (afterClear_fields k (setState h g) (Z.of_nat (countFull b1))
                (repeat emptyRow (countFull b1) ++ filter notFull b1)
                (repeat emptyColorRow (countFull b1) ++ keepColors b1 c1))
      as (Fb & _ & Fp & Fn & _).
    split; [exact Og|]. split; [rewrite Fp; simpl; exact D5|]. split; [exact Fn|].
    exists b1, c1. split; [|exact Fb].
    simpl in M. rewrite D1, D3, D4 in M. exact M.
Qed.

Lemma hard_drop_ends_the_turn_witness :
  exists h' d,
    hardDrop 3 startedHost = Ok h' /\ 0 <= d
    /\ (forall j, 1 <= j <= d ->
          collide (setY (piece (state startedHost)) (y (piece (state startedHost)) + j))
                  (board (state startedHost)) = false)
    /\ collide (setY (piece (state startedHost)) (y (piece (state startedHost)) + d + 1))
               (board (state startedHost)) = true
    /\ ((y (piece (state startedHost)) = 0 /\ d = 0 /\ isGameOver (state h') = true)
        \/ (0 < y (piece (state startedHost)) + d
            /\ isGameOver (state h') = false
            /\ piece (state h') = nextPiece (state startedHost)
            /\ nextPiece (state h') = randomPiece 3
            /\ exists (b1 : Board) (c1 : ColorBoard),
                 merge (setY (piece (state startedHost))
                             (y (piece (state startedHost)) + d))
                       (board (state startedHost)) (boardColors (state startedHost))
                 = Ok (b1, c1)
                 /\ board (state h')
                    = repeat emptyRow (countFull b1) ++ filter notFull b1)).
Proof.
  apply (hard_drop_ends_the_turn startedHost 3); try reflexivity.
  apply (reach_step (initialHost 0 0) startedHost (Action "start") 2 0);
    try lia; try exact I; try reflexivity.
  apply reach_init; lia.
Defined.

(** ** Score, lines and level *)

Lemma scoreLe_refl (a : jsnum) : scoreOk a -> scoreLe a a.
Proof.
  destruct a as [v| |n]; cbn [scoreOk scoreLe]; [lia | tauto | now intros ->].
Qed.

Lemma scoreLe_trans (a b c : jsnum) : scoreLe a b -> scoreLe b c -> scoreLe a c.
Proof.
  destruct a as [u| |[|]], b as [v| |[|]], c as [w| |[|]]; cbn [scoreLe];
    try tauto; lia.
Qed.

(** Adding a score that is not negative never lowers a score: the sum is
    rounded to a double, and the score it started from is one. *)
Lemma scoreLe_jadd (a b : jsnum) : scoreOk a -> scoreOk b -> scoreLe a (jadd a b).
Proof.
  destruct a as [u| |n], b as [v| |n']; cbn [scoreOk jadd]; try tauto.
  - intros (Pu & Ru & _) (Pv & _). unfold toDouble. cbv zeta.
    pose proof (roundEven_above u (u + v) Pu Ru) as A.
    destruct (2 ^ 1024 <=? Z.abs (roundEven (u + v))); cbn [scoreLe].
    + replace (roundEven (u + v) <? 0) with false; [exact I|].
      symmetry. apply Z.ltb_ge. lia.
    + lia.
  - now intros _ ->.
  - now intros -> _.
  - now intros -> ->.
Qed.

Lemma scoreLe_iter (n : nat) (s : jsnum) :
  scoreOk s -> scoreLe s (Nat.iter n (fun a => jadd a (Num 2)) s).
Proof.
  intros S. induction n as [|n IH]; [now apply scoreLe_refl|].
  rewrite Nat.iter_succ.
  apply (scoreLe_trans _ (Nat.iter n (fun a => jadd a (Num 2)) s)); [exact IH|].
  apply scoreLe_jadd; [now apply iter_add2_ok|].
  apply scoreOk_safe. split; [lia|]. now apply (Z.pow_lt_mono_r 2 1 53).
Qed.

Lemma drop_monotone (h h' : Host) (k : nat) :
  Inv h -> Inv2 h -> drop k h = Ok h' ->
  lines (state h) <= lines (state h') /\ level (state h) <= level (state h')
  /\ scoreLe (score (state h)) (score (state h')).
Proof.
  intros I (_ & Ln & _) E. pose proof (inv_score h I) as Sc.
  pose proof (inv_level h I) as Lv.
  destruct (drop_cases h h' k I E)
    as [-> | [(_ & _ & ->) | [(_ & _ & ->)
        | (b1 & b2 & c1 & c2 & n & _ & _ & _ & _ & _ & _ & _ & Rn & _ & _ & ->)]]].
  - split; [lia|]. split; [lia|]. now apply scoreLe_refl.
  - simpl. split; [lia|]. split; [lia|]. now apply scoreLe_refl.
  - rewrite gameOverStep_state. simpl. split; [lia|]. split; [lia|].
    now apply scoreLe_refl.
  - destruct (afterClear_fields k h n b2 c2) as (_ & _ & _ & _ & _ & _ & Fl & Fv).
    rewrite Fl, Fv, (afterClear_score k h n b2 c2 Rn).
    assert (Lv1 : 1 <= level (state h))
      by (rewrite Lv; pose proof (Z.div_pos (lines (state h)) 10); lia).
    split; [destruct (n >? 0); lia|]. split.
    + destruct (n >? 0); [|lia]. rewrite Lv.
      pose proof (Z.div_le_mono (lines (state h)) (lines (state h) + n) 10). lia.
    + destruct (n >? 0); [|now apply scoreLe_refl].
      apply scoreLe_jadd; [exact Sc|].
      rewrite <- lineScore_table by exact Rn. apply lineScore_ok; [exact Rn | lia].
Qed.

Lemma startedHost_reachable : reachable startedHost.
Proof.
  apply (reach_step (initialHost 0 0) startedHost (Action "start") 2 0);
    try lia; try exact I; try reflexivity.
  apply reach_init; lia.
Qed.

(** X14.  The score, the line count and the level never go down, whatever
    the event, unless it is [start] or [restart]. *)
Theorem progress_never_goes_back (e : Event) (h h' : Host) (k1 k2 : nat) :
  reachable h -> e <> Action "start" -> e <> Action "restart" ->
  handle e k1 k2 h = Ok h' ->
  lines (state h) <= lines (state h') /\ level (state h) <= level (state h')
  /\ scoreLe (score (state h)) (score (state h')).
Proof.
  intros R N1 N2. pose proof (reachable_inv h R) as I.
  pose proof (reachable_inv2 h R) as I2. pose proof (inv_score h I) as Sc.
  assert (Same : forall g : Host,
             state g = state h \/ (lines (state g) = lines (state h)
                                   /\ level (state g) = level (state h)
                                   /\ score (state g) = score (state h)) ->
             lines (state h) <= lines (state g) /\ level (state h) <= level (state g)
             /\ scoreLe (score (state h)) (score (state g))).
  { intros g [-> | (-> & -> & ->)]; (split; [lia|]; split; [lia|]);
      now apply scoreLe_refl. }
  destruct e as [action|id]; cbn [handle]; [|now apply drop_monotone].
  unfold handleAction.
  destruct (String.eqb_spec action "start") as [->|_]; [congruence|].
  destruct (String.eqb_spec action "restart") as [->|_];
    [congruence|].
  repeat match goal with
  | |- context [if ?c then _ else _] => destruct c
  end.
  - intros [= <-]. apply Same. right. rewrite pauseGame_state.
    destruct (negb (isRunning (state h)) || isGameOver (state h)); auto.
  - intros E. destruct (move_cases _ _ _ E) as [-> | (_ & ->)]; apply Same; auto.
  - intros E. destruct (move_cases _ _ _ E) as [-> | (_ & ->)]; apply Same; auto.
  - intros E. destruct (rotate_cases _ _ E) as [-> | (p' & _ & _ & _ & ->)];
      apply Same; auto.
  - intros E. destruct (hardDrop_cases _ _ _ I E)
      as [-> | (g & d & _ & _ & _ & D & Ed)]; [apply Same; auto|].
    pose proof (descended_inv h g d I D) as Ig.
    destruct D as (D0 & D1 & D2 & D3 & D4 & _ & D6 & D7 & _).
    destruct I2 as (Ag & Ln & Y0).
    assert (I2g : Inv2 (setState h g)).
    { split; [|split]; simpl; [now rewrite D3, D4 | now rewrite D6 |].
      rewrite D1. simpl. lia. }
    destruct (drop_monotone _ _ _ Ig I2g Ed) as (M1 & M2 & M3). simpl in M1, M2, M3.
    split; [lia|]. split; [lia|].
    apply (scoreLe_trans _ (score g)); [|exact M3].
    rewrite D2. now apply scoreLe_iter.
  - now apply drop_monotone.
  - intros [= <-]. apply Same. auto.
Qed.

Lemma progress_never_goes_back_witness :
  match handle (Action "drop") 3 3 startedHost with
  | Ok h' =>
      lines (state startedHost) <= lines (state h')
      /\ level (state startedHost) <= level (state h')
      /\ scoreLe (score (state startedHost)) (score (state h'))
  | _ => False
  end.
Proof.
  destruct (handle (Action "drop") 3 3 startedHost) as [h'| |] eqn:E.
  - apply (progress_never_goes_back (Action "drop") startedHost h' 3 3
             startedHost_reachable); [discriminate | discriminate | exact E].
  - vm_compute in E. discriminate E.
  - vm_compute in E. discriminate E.
Defined.

(** X17.  A run that is over stays as it is until [start] or [restart]:
    every other action leaves the whole host unchanged, and no gravity tick
    can fire. *)
Theorem game_over_is_final (e : Event) (h h' : Host) (k1 k2 : nat) :
  reachable h -> isGameOver (state h) = true ->
  e <> Action "start" -> e <> Action "restart" ->
  handle e k1 k2 h = Ok h' ->
  h' = h /\ forall id, ~ fires (Tick id) h.
Proof.
  intros R Ho N1 N2 E. pose proof (reachable_inv h R) as I.
  split.
  - assert (Dr : forall k, drop k h = Ok h)
      by (intros k; unfold drop; rewrite Ho, orb_true_r; reflexivity).
    destruct e as [action|id]; cbn [handle] in E; [|rewrite Dr in E; congruence].
    unfold handleAction in E.
    destruct (String.eqb_spec action "start") as [->|_]; [congruence|].
    destruct (String.eqb_spec action "restart") as [->|_];
      [congruence|].
    unfold pauseGame, move, rotate, hardDrop in E.
    rewrite Ho, ?orb_true_r in E. rewrite Dr in E.
    repeat match type of E with
    | context [if ?c then _ else _] => destruct c
    end; congruence.
  - intros id [ms Hin]. pose proof (inv_timers h I) as T.
    rewrite (inv_over h I Ho) in T. rewrite T in Hin. destruct Hin.
Qed.

Lemma game_over_is_final_witness :
  handle (Action "softdrop") 0 0 overHost = Ok overHost
  /\ overHost = overHost /\ forall id, ~ fires (Tick id) overHost.
Proof.
  assert (E : handle (Action "softdrop") 0 0 overHost = Ok overHost)
    by (vm_compute; reflexivity).
  split; [exact E|].
  apply (game_over_is_final (Action "softdrop") overHost overHost 0 0
           overHost_reachable); [reflexivity | discriminate | discriminate | exact E].
Defined.

(** ** Turning a shape four times *)

Lemma hasDims_hd (m : list (list Z)) (h w : nat) :
  hasDims m h w -> (0 < h)%nat -> length (hd [] m) = w.
Proof.
  intros [L F] H. destruct m as [|r m]; simpl in *; [lia|]. now inversion F.
Qed.

Lemma hasDims_row (m : list (list Z)) (h w i : nat) :
  hasDims m h w -> (i < h)%nat -> length (nth i m []) = w.
Proof.
  intros [L F] H. rewrite Forall_forall in F. apply F. apply nth_In. lia.
Qed.

Lemma rotatedCells_dims (m : list (list Z)) (h w : nat) :
  hasDims m h w -> (0 < h)%nat -> hasDims (rotatedCells m) w h.
Proof.
  intros D H. pose proof (hasDims_hd m h w D H) as W. destruct D as [L F].
  unfold rotatedCells. split.
  - now rewrite length_map, length_seq.
  - apply Forall_forall. intros row Hin. apply in_map_iff in Hin.
    destruct Hin as (i & <- & _). now rewrite length_rev, length_map.
Qed.

Lemma rotatedCells_cell (m : list (list Z)) (h w i j : nat) :
  hasDims m h w -> (i < w)%nat -> (j < h)%nat ->
  nth j (nth i (rotatedCells m) []) 0 = nth i (nth (h - 1 - j) m []) 0.
Proof.
  intros D Hi Hj. assert (H : (0 < h)%nat) by lia.
  pose proof (hasDims_hd m h w D H) as W. destruct D as [L F].
  unfold rotatedCells. rewrite W.
  set (f := fun i0 : nat => rev (map (fun row : list Z => nth i0 row 0) m)).
  rewrite (nth_indep _ [] (f 0%nat)) by (now rewrite length_map, length_seq).
  rewrite map_nth, seq_nth by exact Hi. simpl. unfold f.
  rewrite rev_nth by (rewrite length_map; lia).
  rewrite length_map, L.
  set (g := fun row : list Z => nth i row 0).
  rewrite (nth_indep _ 0 (g [])) by (rewrite length_map; lia).
  rewrite map_nth. unfold g. f_equal. f_equal. lia.
Qed.

Lemma hasDims_ext (a b : list (list Z)) (h w : nat) :
  hasDims a h w -> hasDims b h w ->
  (forall i j, (i < h)%nat -> (j < w)%nat ->
     nth j (nth i a []) 0 = nth j (nth i b []) 0) ->
  a = b.
Proof.
  intros Da Db E. apply (nth_ext a b [] []).
  - destruct Da, Db. congruence.
  - intros i Hi. assert (Hh : (i < h)%nat) by (destruct Da; lia).
    apply (nth_ext _ _ 0 0).
    + now rewrite (hasDims_row a h w i Da Hh), (hasDims_row b h w i Db Hh).
    + intros j Hj. rewrite (hasDims_row a h w i Da Hh) in Hj. now apply E.
Qed.

(** X12.  Turning a cell matrix four times gives it back: for every
    matrix whose rows all have the length of the first, which is not empty,
    the map that [rotate] applies to the shape is the identity when applied
    four times in a row. *)
Theorem four_turns_are_identity (m : list (list Z)) :
  rectangular m -> hd [] m <> [] ->
  rotatedCells (rotatedCells (rotatedCells (rotatedCells m))) = m.
Proof.
  intros [Ne F] Hd.
  set (h := length m). set (w := length (hd [] m)).
  assert (H : (0 < h)%nat) by (subst h; destruct m; simpl; [congruence | lia]).
  assert (W : (0 < w)%nat) by (subst w; destruct (hd [] m); simpl; [congruence | lia]).
  assert (D0 : hasDims m h w) by (split; [reflexivity | exact F]).
  pose proof (rotatedCells_dims _ _ _ D0 H) as D1.
  pose proof (rotatedCells_dims _ _ _ D1 W) as D2.
  pose proof (rotatedCells_dims _ _ _ D2 H) as D3.
  pose proof (rotatedCells_dims _ _ _ D3 W) as D4.
  apply (hasDims_ext _ _ h w D4 D0). intros i j Hi Hj.
  rewrite (rotatedCells_cell _ w h i j D3) by lia.
  rewrite (rotatedCells_cell _ h w (w - 1 - j) i D2) by lia.
  rewrite (rotatedCells_cell _ w h (h - 1 - i) (w - 1 - j) D1) by lia.
  rewrite (rotatedCells_cell _ h w (w - 1 - (w - 1 - j)) (h - 1 - i) D0) by lia.
  replace (w - 1 - (w - 1 - j))%nat with j by lia.
  replace (h - 1 - (h - 1 - i))%nat with i by lia.
  reflexivity.
Qed.

Lemma four_turns_are_identity_witness :
  rotatedCells (rotatedCells (rotatedCells (rotatedCells [[0; 1; 0]; [1; 1; 1]])))
  = [[0; 1; 0]; [1; 1; 1]].
Proof.
  apply four_turns_are_identity.
  - split; [discriminate|]. repeat constructor.
  - discriminate.
Defined.

(** * The controller and the transports *)

Lemma delivered_onControl (srv : Relay.Server) (pad display : Relay.SocketId)
    (action : string) :
  pad <> display ->
  Relay.delivered display (snd (Relay.onControl srv pad action))
  = repeat ("control"%string, action)
           (count_occ string_dec (Relay.connected srv) display).
Proof.
  intros N. unfold Relay.onControl, Relay.broadcastEmit. cbn [snd].
  change (Relay.delivered display (?e :: ?l)) with (Relay.delivered display l).
  rewrite delivered_broadcast.
  assert (E : (display =? pad)%string = false) by (apply String.eqb_neq; congruence).
  now rewrite E.
Qed.

Lemma sendAction_outputs (action : string) (c : Controller.State) :
  exists sounds,
    fst (Controller.sendAction action c)
    = Controller.SocketEmit "control"%string action
        :: Controller.ChannelPost (ActionData action) :: sounds
    /\ Forall (fun o => exists name, o = Controller.Sound name) sounds.
Proof.
  unfold Controller.sendAction.
  repeat match goal with
  | |- context [if ?b then _ else _] => destruct b
  end; simpl; eexists; (split; [reflexivity|]); repeat constructor; eexists; reflexivity.
Qed.

Lemma displayRuns_sounds (srv : Relay.Server) (pad display : Relay.SocketId)
    (sameBrowser : bool) (sounds : list Controller.Out) (h : Host) :
  Forall (fun o => exists name, o = Controller.Sound name) sounds ->
  forall ks, displayRuns srv pad display sameBrowser sounds ks h = Ok h.
Proof.
  induction 1 as [|o sounds [name ->] _ IH]; intros ks.
  - now destruct ks.
  - destruct ks as [|[k1 k2] ks]; simpl; apply IH.
Qed.

Lemma displayRuns_press (srv : Relay.Server) (pad display : Relay.SocketId)
    (sameBrowser : bool) (action : string) (c : Controller.State)
    (k1 k2 k3 k4 : nat) (h : Host) :
  pad <> display -> action <> EmptyString ->
  displayRuns srv pad display sameBrowser (fst (Controller.sendAction action c))
              [(k1, k2); (k3, k4)] h
  = (h1 <- socketDeliveries
             (repeat ("control"%string, action)
                     (count_occ string_dec (Relay.connected srv) display)) k1 k2 h ;;
     if sameBrowser then handleAction action k3 k4 h1 else Ok h1).
Proof.
  intros N Ne. destruct (sendAction_outputs action c) as (sounds & -> & S).
  cbn [displayRuns displayReceives]. rewrite String.eqb_refl.
  rewrite (delivered_onControl srv pad display action N).
  destruct (socketDeliveries _ k1 k2 h) as [h1| |]; cbn [bind]; try reflexivity.
  apply String.eqb_neq in Ne.
  destruct sameBrowser; cbn [displayOnMessage]; [rewrite Ne|].
  - destruct (handleAction action k3 k4 h1); cbn [bind]; try reflexivity.
    now apply displayRuns_sounds.
  - cbn [bind]. now apply displayRuns_sounds.
Qed.



Lemma pauseGame_twice_state (h : Host) :
  state (pauseGame (pauseGame h)) = state h.
Proof.
  rewrite !pauseGame_state.
  destruct (state h) as [b bc p np sc ln lv r pa ov]. simpl.
  destruct r, ov, pa; reflexivity.
Qed.

(** X19.  With the controller in the display's browser and both on the
    relay, a press on pause reaches a running game twice and leaves it
    unpaused, while the controller, which was in step with the display,
    now shows the game as paused. *)
Theorem shared_browser_pause_is_undone (srv : Relay.Server)
    (pad display : Relay.SocketId) (c : Controller.State)
    (k1 k2 k3 k4 : nat) (h : Host) :
  NoDup (Relay.connected srv) -> In display (Relay.connected srv) ->
  pad <> display ->
  flagsAgree c (state h) ->
  isRunning (state h) = true -> isPaused (state h) = false ->
  isGameOver (state h) = false ->
  displayRuns srv pad display true (fst (Controller.sendAction "pause"%string c))
              [(k1, k2); (k3, k4)] h
  = Ok (pauseGame (pauseGame h))
  /\ state (pauseGame (pauseGame h)) = state h
  /\ Controller.isPaused (snd (Controller.sendAction "pause"%string c)) = true
  /\ ~ flagsAgree (snd (Controller.sendAction "pause"%string c))
                  (state (pauseGame (pauseGame h))).
Proof.
  intros ND Hin N (A1 & A2 & A3) Hr Hp Ho.
  split; [|split; [apply pauseGame_twice_state|]].
  - rewrite displayRuns_press by (assumption || discriminate).
    rewrite (proj1 (NoDup_count_occ' string_dec (Relay.connected srv)) ND display Hin).
    reflexivity.
  - assert (P : Controller.isPaused (snd (Controller.sendAction "pause"%string c)) = true)
      by (simpl; rewrite A2, Hp; reflexivity).
    split; [exact P|]. intros (_ & B2 & _).
    rewrite pauseGame_twice_state in B2. congruence.
Qed.

Lemma shared_browser_pause_is_undone_witness :
  displayRuns pairServer "pad"%string "display"%string true
    (fst (Controller.sendAction "pause"%string
            (Controller.onChannelMessage (broadcastState (state startedHost))
                                         Controller.firstRender)))
    [(0, 0); (0, 0)]%nat startedHost
  = Ok (pauseGame (pauseGame startedHost))
  /\ state (pauseGame (pauseGame startedHost)) = state startedHost
  /\ Controller.isPaused
       (snd (Controller.sendAction "pause"%string
               (Controller.onChannelMessage (broadcastState (state startedHost))
                                            Controller.firstRender))) = true
  /\ ~ flagsAgree
         (snd (Controller.sendAction "pause"%string
                 (Controller.onChannelMessage (broadcastState (state startedHost))
                                              Controller.firstRender)))
         (state (pauseGame (pauseGame startedHost))).
Proof.
  assert (ND : NoDup (Relay.connected pairServer)).
  { repeat constructor; simpl; intuition discriminate. }
  apply (shared_browser_pause_is_undone pairServer "pad"%string "display"%string _ 0 0 0 0
           startedHost ND); try reflexivity; try discriminate.
  - simpl. auto.
  - repeat split.
Defined.

(** X20.  Once the controller has read a state message of the display its
    flags are the display's, and a button it shows as disabled stands for
    an action the display would not carry out in that state. *)
Theorem synced_controller_disables_only_noops (c : Controller.State) (h : Host) :
  let c' := Controller.onChannelMessage (broadcastState (state h)) c in
  flagsAgree c' (state h)
  /\ Controller.isConnected c' = true
  /\ forall (id a : string) (k1 k2 : nat),
       In (id, a, true) Controller.buttons -> Controller.disabled c' = true ->
       handleAction a k1 k2 h = Ok h.
Proof.
  intros c'. subst c'. split; [repeat split|]. split; [reflexivity|].
  intros id a k1 k2 Hin D. unfold Controller.disabled in D. simpl in D.
  unfold Controller.buttons in Hin. simpl in Hin.
  repeat match type of Hin with
  | _ \/ _ => destruct Hin as [Hin|Hin]
  end; try (inversion Hin; subst; clear Hin); try contradiction;
    try discriminate;
    unfold handleAction; simpl; try reflexivity;
    unfold move, rotate, hardDrop; rewrite D; reflexivity.
Qed.

(** X21.  The flags the controller sets on its own when a button is
    pressed match what the display does with the action for [start]; for
    [pause] only if the game is running and not over; for [restart] only if
    the game was running, unpaused and not over already. *)
Theorem optimistic_flags (c : Controller.State) (h : Host) (k1 k2 : nat) :
  flagsAgree c (state h) ->
  flagsAgree (snd (Controller.sendAction "start"%string c)) (state (startGame k1 k2 h))
  /\ (flagsAgree (snd (Controller.sendAction "pause"%string c)) (state (pauseGame h))
      <-> isRunning (state h) = true /\ isGameOver (state h) = false)
  /\ (flagsAgree (snd (Controller.sendAction "restart"%string c))
                 (state (restartGame k1 k2 h))
      <-> isRunning (state h) = true /\ isPaused (state h) = false
          /\ isGameOver (state h) = false).
Proof.
  intros (A1 & A2 & A3). unfold flagsAgree.
  rewrite startGame_state, pauseGame_state. simpl.
  destruct c as [cc cr cp co]. simpl in *.
  destruct (state h) as [b bc p np sc ln lv r pa ov]. simpl in *. subst cr cp co.
  split; [|split].
  - destruct ov, r; simpl; auto.
  - destruct r, ov, pa; simpl; intuition congruence.
  - destruct r, ov, pa; simpl; intuition congruence.
Qed.

Lemma optimistic_flags_witness :
  flagsAgree (snd (Controller.sendAction "start"%string Controller.firstRender))
             (state (startGame 0 0 (initialHost 0 0)))
  /\ (flagsAgree (snd (Controller.sendAction "pause"%string Controller.firstRender))
                 (state (pauseGame (initialHost 0 0)))
      <-> isRunning (state (initialHost 0 0)) = true
          /\ isGameOver (state (initialHost 0 0)) = false)
  /\ (flagsAgree (snd (Controller.sendAction "restart"%string Controller.firstRender))
                 (state (restartGame 0 0 (initialHost 0 0)))
      <-> isRunning (state (initialHost 0 0)) = true
          /\ isPaused (state (initialHost 0 0)) = false
          /\ isGameOver (state (initialHost 0 0)) = false).
Proof.
  apply (optimistic_flags Controller.firstRender (initialHost 0 0) 0 0).
  repeat split.
Defined.

(** X11.  Every action a key can send is one [handleAction] has a case
    for, on a first press only; of the buttons of the pad all but [up] and
    [down] send such an action; and an action without a case, as these two
    are, leaves the display as it is. *)
Theorem controls_and_handler :
  (forall (repeat : bool) (key a : string),
      handleKeyDown repeat key = Some a -> repeat = false /\ In a handledActions)
  /\ (forall (id a : string) (g : bool),
        In (id, a, g) Controller.buttons ->
        In a handledActions \/ a = "up"%string \/ a = "down"%string)
  /\ (forall (a : string) (k1 k2 : nat) (h : Host),
        ~ In a handledActions -> handleAction a k1 k2 h = Ok h).
Proof.
  split; [|split].
  - intros repeat key a. unfold handleKeyDown, keyAction.
    destruct repeat; [discriminate|].
    repeat match goal with
    | |- context [if ?b then _ else _] => destruct b
    end; intros [= <-]; (split; [reflexivity|]); simpl; auto 10.
  - intros id a g Hin. unfold Controller.buttons in Hin. simpl in Hin.
    repeat match type of Hin with
    | _ \/ _ => destruct Hin as [Hin|Hin]
    end; try contradiction; inversion Hin; subst; simpl; auto 12.
  - intros a k1 k2 h N. unfold handleAction.
    repeat match goal with
    | |- context [(a =? ?s)%string] =>
        destruct (String.eqb_spec a s) as [->|_];
        [exfalso; apply N; simpl; auto 10|]
    end.
    reflexivity.
Qed.

(** * The background music *)

Lemma musicNotes_length : length Music.musicNotes = 39%nat.
Proof. reflexivity. Qed.

Lemma playMusicNote_wf (audio : bool) (s : Music.State) :
  (Music.musicNoteIndex s < length Music.musicNotes)%nat ->
  Music.pending s = [] ->
  Music.Wf (Music.playMusicNote audio s).
Proof.
  intros Hi Hp. unfold Music.playMusicNote.
  destruct (Music.isMusicPlaying s) eqn:Pl; cbn [negb];
    [|split; [exact Hi | now left]].
  destruct audio; cbn [negb]; [|split; [exact Hi | now left]].
  destruct (nth_error Music.musicNotes (Music.musicNoteIndex s)) as [[freq dur]|];
    [|split; [exact Hi | now left]].
  split; cbn [Music.musicNoteIndex Music.pending Music.musicInterval
              Music.isMusicPlaying].
  - apply Nat.mod_upper_bound. rewrite musicNotes_length. discriminate.
  - right. exists (Music.nextHandle s), dur. rewrite Hp. auto.
Qed.

Lemma wf_silent (s : Music.State) :
  Music.Wf s -> Music.isMusicPlaying s = false -> Music.pending s = [].
Proof.
  intros [_ [E | (id & d & _ & _ & P)]] Pl; [exact E | congruence].
Qed.

Lemma wf_expire (s : Music.State) (id : positive) :
  Music.Wf s -> Music.enabled (Music.NoteDue id true) s ->
  Music.pending (Music.expire id s) = []
  /\ Music.musicInterval s = Some id /\ Music.isMusicPlaying s = true.
Proof.
  intros [_ [E | (id' & d & E & Mi & Pl)]] [delay Hin]; rewrite E in Hin.
  - destruct Hin.
  - destruct Hin as [[= -> ->] | []].
    unfold Music.expire. cbn [Music.pending]. rewrite E. simpl.
    rewrite Pos.eqb_refl. auto.
Qed.

Lemma stopBackgroundMusic_wf (s : Music.State) :
  Music.Wf s ->
  Music.Wf (Music.stopBackgroundMusic s)
  /\ Music.pending (Music.stopBackgroundMusic s) = []
  /\ Music.isMusicPlaying (Music.stopBackgroundMusic s) = false.
Proof.
  intros [Hi Hp].
  assert (E : Music.pending (Music.stopBackgroundMusic s) = []).
  { unfold Music.stopBackgroundMusic.
    destruct Hp as [E | (id & d & E & Mi & _)].
    - destruct (Music.musicInterval s); cbn [Music.pending]; rewrite E; reflexivity.
    - rewrite Mi. cbn [Music.pending]. rewrite E. simpl.
      now rewrite Pos.eqb_refl. }
  split; [|split]; [| exact E |].
  - split; [|now left]. unfold Music.stopBackgroundMusic.
    now destruct (Music.musicInterval s).
  - unfold Music.stopBackgroundMusic. now destruct (Music.musicInterval s).
Qed.

Lemma startBackgroundMusic_wf (audio : bool) (s : Music.State) :
  Music.Wf s -> Music.Wf (Music.startBackgroundMusic audio s).
Proof.
  intros W. unfold Music.startBackgroundMusic.
  destruct (Music.isMusicPlaying s) eqn:Pl; [exact W|].
  apply playMusicNote_wf; cbn [Music.musicNoteIndex Music.pending].
  - rewrite musicNotes_length. lia.
  - now apply wf_silent.
Qed.

Lemma step_wf (e : Music.Trigger) (s : Music.State) :
  Music.Wf s -> Music.enabled e s -> Music.Wf (Music.step e s).
Proof.
  intros W En. destruct e as [audio| |id audio]; cbn [Music.step].
  - now apply startBackgroundMusic_wf.
  - now apply stopBackgroundMusic_wf.
  - destruct (wf_expire s id W En) as (E & _). apply playMusicNote_wf; [|exact E].
    apply W.
Qed.

Lemma reached_wf (s : Music.State) : Music.reached s -> Music.Wf s.
Proof.
  induction 1 as [|s e R IH En].
  - split; [rewrite musicNotes_length; simpl; lia | now left].
  - now apply step_wf.
Qed.

(** X22.  The music never runs two melodies at once: at every point at
    most one timeout is waiting to play a note, it is the one whose handle
    the module holds, it waits only while the music is on, and the index
    points into the table of notes. *)
Theorem one_melody_at_a_time (s : Music.State) :
  Music.reached s ->
  (length (Music.pending s) <= 1)%nat
  /\ (forall id delay,
        In (id, delay) (Music.pending s) ->
        Music.musicInterval s = Some id /\ Music.isMusicActive s = true)
  /\ nth_error Music.musicNotes (Music.musicNoteIndex s) <> None.
Proof.
  intros R. destruct (reached_wf s R) as [Hi Hp].
  split; [|split].
  - destruct Hp as [-> | (id & d & -> & _)]; simpl; lia.
  - intros id delay Hin. destruct Hp as [E | (id' & d & E & Mi & Pl)];
      rewrite E in Hin; [destruct Hin|].
    destruct Hin as [[= -> ->] | []]. auto.
  - now apply nth_error_Some.
Qed.

Lemma one_melody_at_a_time_witness :
  (length (Music.pending (Music.step (Music.Start true) Music.loaded)) <= 1)%nat
  /\ (forall id delay,
        In (id, delay) (Music.pending (Music.step (Music.Start true) Music.loaded)) ->
        Music.musicInterval (Music.step (Music.Start true) Music.loaded) = Some id
        /\ Music.isMusicActive (Music.step (Music.Start true) Music.loaded) = true)
  /\ nth_error Music.musicNotes
       (Music.musicNoteIndex (Music.step (Music.Start true) Music.loaded)) <> None.
Proof.
  apply (one_melody_at_a_time (Music.step (Music.Start true) Music.loaded)).
  apply Music.reached_step; [apply Music.reached_loaded | exact I].
Defined.

(** X23.  [stopBackgroundMusic] silences the music for good: afterwards the
    music is off and no timeout is left that could play a note. *)
Theorem stop_silences (s : Music.State) :
  Music.reached s ->
  Music.isMusicActive (Music.stopBackgroundMusic s) = false
  /\ Music.pending (Music.stopBackgroundMusic s) = []
  /\ Music.sounded (Music.stopBackgroundMusic s) = Music.sounded s
  /\ forall id audio,
       ~ Music.enabled (Music.NoteDue id audio) (Music.stopBackgroundMusic s).
Proof.
  intros R. destruct (stopBackgroundMusic_wf s (reached_wf s R)) as (_ & E & Pl).
  split; [exact Pl|]. split; [exact E|]. split.
  - unfold Music.stopBackgroundMusic. now destruct (Music.musicInterval s).
  - intros id audio [delay Hin]. rewrite E in Hin. destruct Hin.
Qed.

Lemma stop_silences_witness :
  Music.isMusicActive
    (Music.stopBackgroundMusic (Music.step (Music.Start true) Music.loaded)) = false
  /\ Music.pending
       (Music.stopBackgroundMusic (Music.step (Music.Start true) Music.loaded)) = []
  /\ Music.sounded
       (Music.stopBackgroundMusic (Music.step (Music.Start true) Music.loaded))
     = Music.sounded (Music.step (Music.Start true) Music.loaded)
  /\ forall id audio,
       ~ Music.enabled (Music.NoteDue id audio)
           (Music.stopBackgroundMusic (Music.step (Music.Start true) Music.loaded)).
Proof.
  apply (stop_silences (Music.step (Music.Start true) Music.loaded)).
  apply Music.reached_step; [apply Music.reached_loaded | exact I].
Defined.

Lemma melody_step (i n : nat) :
  Music.melody i (S n)
  = Music.melody i 1 ++ Music.melody ((i + 1) mod length Music.musicNotes) n.
Proof.
  unfold Music.melody.
  change (seq 0 (S n)) with ([0%nat] ++ seq 1 n).
  rewrite map_app, filter_app. f_equal.
  rewrite <- seq_shift, map_map. f_equal. apply map_ext. intros j.
  rewrite Nat.Div0.add_mod_idemp_l. do 3 f_equal. lia.
Qed.

Lemma playMusicNote_next (s : Music.State) :
  Music.isMusicPlaying s = true ->
  (Music.musicNoteIndex s < length Music.musicNotes)%nat ->
  Music.pending s = [] ->
  Music.isMusicPlaying (Music.playMusicNote true s) = true
  /\ Music.musicNoteIndex (Music.playMusicNote true s)
     = ((Music.musicNoteIndex s + 1) mod length Music.musicNotes)%nat
  /\ Music.sounded (Music.playMusicNote true s)
     = Music.sounded s ++ Music.melody (Music.musicNoteIndex s) 1
  /\ exists freq delay,
       nth_error Music.musicNotes (Music.musicNoteIndex s) = Some (freq, delay)
       /\ Music.pending (Music.playMusicNote true s) = [(Music.nextHandle s, delay)].
Proof.
  intros Pl Hi Hp. unfold Music.playMusicNote. rewrite Pl. cbn [negb].
  destruct (nth_error Music.musicNotes (Music.musicNoteIndex s)) as [[freq dur]|] eqn:E;
    [|apply nth_error_None in E; lia].
  cbn [Music.isMusicPlaying Music.musicNoteIndex Music.sounded Music.pending].
  assert (M : Music.melody (Music.musicNoteIndex s) 1
              = if freq >? 0 then [freq] else []).
  { unfold Music.melody. cbn [seq map filter]. rewrite Nat.add_0_r.
    rewrite Nat.mod_small by exact Hi.
    rewrite (nth_error_nth _ _ (0, 0) E). cbn [fst].
    now destruct (freq >? 0). }
  split; [reflexivity|]. split; [reflexivity|]. split.
  - rewrite M. destruct (freq >? 0); [reflexivity | now rewrite app_nil_r].
  - exists freq, dur. rewrite Hp. split; reflexivity.
Qed.

Lemma playOn_spec (n : nat) :
  forall s : Music.State,
    Music.Wf s -> Music.isMusicPlaying s = true -> Music.pending s <> [] ->
    Music.isMusicPlaying (Music.playOn n s) = true
    /\ Music.musicNoteIndex (Music.playOn n s)
       = ((Music.musicNoteIndex s + n) mod length Music.musicNotes)%nat
    /\ Music.sounded (Music.playOn n s)
       = Music.sounded s ++ Music.melody (Music.musicNoteIndex s) n
    /\ (length (Music.pending (Music.playOn n s)) = 1)%nat.
Proof.
  induction n as [|n IH]; intros s W Pl Ne.
  - cbn [Music.playOn]. destruct W as [Hi [E | (id & d & E & _)]]; [congruence|].
    split; [exact Pl|]. split; [now rewrite Nat.add_0_r, Nat.mod_small|].
    split; [unfold Music.melody; simpl; now rewrite app_nil_r|].
    now rewrite E.
  - destruct W as [Hi Hp]. pose proof Hp as Hp'.
    destruct Hp' as [E | (id & d & E & Mi & _)]; [congruence|].
    cbn [Music.playOn]. rewrite E.
    assert (En : Music.enabled (Music.NoteDue id true) s)
      by (exists d; rewrite E; now left).
    destruct (wf_expire s id (conj Hi Hp) En) as (Ex & _).
    cbn [Music.step].
    destruct (playMusicNote_next (Music.expire id s) Pl Hi Ex)
      as (N1 & N2 & N3 & freq & delay & _ & N4).
    assert (W1 : Music.Wf (Music.playMusicNote true (Music.expire id s)))
      by (apply playMusicNote_wf; assumption).
    assert (Ne1 : Music.pending (Music.playMusicNote true (Music.expire id s)) <> [])
      by (rewrite N4; discriminate).
    destruct (IH _ W1 N1 Ne1) as (I1 & I2 & I3 & I4).
    split; [exact I1|]. split; [|split; [|exact I4]].
    + rewrite I2, N2. cbn [Music.expire Music.musicNoteIndex].
      rewrite Nat.Div0.add_mod_idemp_l. f_equal. lia.
    + rewrite I3, N3, N2. cbn [Music.expire Music.musicNoteIndex Music.sounded].
      rewrite (melody_step _ n). now rewrite app_assoc.
Qed.

(** X24.  Started from silence with the audio working, the music plays
    the notes of the table in order and goes round it: after the start and
    [n] further notes the index is [(n + 1) mod 39], the frequencies
    sounded are those of the first [n + 1] notes, rests left out, and one
    timeout waits for the next note. *)
Theorem melody_in_order (s : Music.State) (n : nat) :
  Music.reached s -> Music.isMusicActive s = false ->
  let s' := Music.playOn n (Music.startBackgroundMusic true s) in
  Music.isMusicActive s' = true
  /\ Music.musicNoteIndex s' = ((n + 1) mod length Music.musicNotes)%nat
  /\ Music.sounded s' = Music.sounded s ++ Music.melody 0 (n + 1)
  /\ (length (Music.pending s') = 1)%nat.
Proof.
  intros R Pl s'. subst s'. pose proof (reached_wf s R) as W.
  unfold Music.isMusicActive in *.
  unfold Music.startBackgroundMusic. rewrite Pl.
  set (s0 := {| Music.isMusicPlaying := true; Music.musicNoteIndex := 0;
                Music.musicInterval := Music.musicInterval s;
                Music.pending := Music.pending s;
                Music.nextHandle := Music.nextHandle s;
                Music.sounded := Music.sounded s |}).
  assert (Hi : (Music.musicNoteIndex s0 < length Music.musicNotes)%nat)
    by (rewrite musicNotes_length; simpl; lia).
  assert (Hp : Music.pending s0 = []) by (simpl; now apply wf_silent).
  destruct (playMusicNote_next s0 eq_refl Hi Hp) as (N1 & N2 & N3 & freq & delay & _ & N4).
  assert (W1 : Music.Wf (Music.playMusicNote true s0))
    by (apply playMusicNote_wf; assumption).
  assert (Ne1 : Music.pending (Music.playMusicNote true s0) <> [])
    by (rewrite N4; discriminate).
  destruct (playOn_spec n _ W1 N1 Ne1) as (I1 & I2 & I3 & I4).
  split; [exact I1|]. split; [|split; [|exact I4]].
  - rewrite I2, N2. cbn [s0 Music.musicNoteIndex].
    rewrite Nat.Div0.add_mod_idemp_l. f_equal. lia.
  - rewrite I3, N3, N2. cbn [s0 Music.musicNoteIndex Music.sounded].
    replace (n + 1)%nat with (S n) by lia. rewrite (melody_step 0 n).
    now rewrite app_assoc.
Qed.

Lemma melody_in_order_witness :
  Music.isMusicActive
    (Music.playOn 20 (Music.startBackgroundMusic true Music.loaded)) = true
  /\ Music.musicNoteIndex
       (Music.playOn 20 (Music.startBackgroundMusic true Music.loaded))
     = ((20 + 1) mod length Music.musicNotes)%nat
  /\ Music.sounded (Music.playOn 20 (Music.startBackgroundMusic true Music.loaded))
     = Music.sounded Music.loaded ++ Music.melody 0 (20 + 1)
  /\ (length (Music.pending
                (Music.playOn 20 (Music.startBackgroundMusic true Music.loaded)))
      = 1)%nat.
Proof.
  apply (melody_in_order Music.loaded 20); [apply Music.reached_loaded | reflexivity].
Defined.

(** X25.  When the audio fails while a note is due, the music stalls: it
    still counts as playing, no timeout is left to play a further note, and
    [startBackgroundMusic] does nothing; only a stop followed by a start
    sets it going again, from the first note. *)
Theorem audio_failure_stalls (s : Music.State) (id : positive) :
  Music.reached s -> Music.enabled (Music.NoteDue id false) s ->
  let s' := Music.step (Music.NoteDue id false) s in
  Music.isMusicActive s' = true
  /\ Music.pending s' = []
  /\ (forall audio, Music.startBackgroundMusic audio s' = s')
  /\ Music.musicNoteIndex
       (Music.startBackgroundMusic true (Music.stopBackgroundMusic s')) = 1%nat
  /\ Music.pending (Music.startBackgroundMusic true (Music.stopBackgroundMusic s'))
     = [(Music.nextHandle s, 200)].
Proof.
  intros R En s'. subst s'. pose proof (reached_wf s R) as W.
  destruct (wf_expire s id W En) as (Ex & Mi & Pl).
  cbn [Music.step]. unfold Music.playMusicNote, Music.isMusicActive.
  cbn [Music.expire Music.isMusicPlaying]. rewrite Pl. cbn [negb].
  split; [exact Pl|]. split; [exact Ex|]. split.
  - intros audio. unfold Music.startBackgroundMusic.
    cbn [Music.expire Music.isMusicPlaying]. now rewrite Pl.
  - unfold Music.stopBackgroundMusic. cbn [Music.expire Music.musicInterval].
    rewrite Mi. unfold Music.startBackgroundMusic. cbn [Music.isMusicPlaying].
    unfold Music.playMusicNote. cbn [Music.isMusicPlaying negb Music.musicNoteIndex].
    cbn [Music.musicNotes nth_error].
    cbn [Music.musicNoteIndex Music.pending Music.nextHandle Music.expire].
    unfold Music.expire in Ex. cbn [Music.pending] in Ex.
    split; [reflexivity|].
    assert (F : forall l : list (positive * Z),
               filter (fun t => negb (fst t =? id)%positive) l = [] ->
               filter (fun t => negb (fst t =? id)%positive)
                 (filter (fun t => negb (fst t =? id)%positive) l) = [])
      by (intros l ->; reflexivity).
    now rewrite (F _ Ex).
Qed.

Lemma audio_failure_stalls_witness :
  Music.isMusicActive
    (Music.step (Music.NoteDue 1 false) (Music.step (Music.Start true) Music.loaded))
  = true
  /\ Music.pending
       (Music.step (Music.NoteDue 1 false) (Music.step (Music.Start true) Music.loaded))
     = [].
Proof.
  assert (R : Music.reached (Music.step (Music.Start true) Music.loaded))
    by (apply Music.reached_step; [apply Music.reached_loaded | exact I]).
  assert (En : Music.enabled (Music.NoteDue 1 false)
                 (Music.step (Music.Start true) Music.loaded))
    by (exists 200; simpl; auto).
  destruct (audio_failure_stalls _ 1 R En) as (A & B & _).
  split; [exact A | exact B].
Defined.

(** ** The music of the display *)

Lemma startBackgroundMusic_playing (audio : bool) (m : Music.State) :
  Music.isMusicPlaying (Music.startBackgroundMusic audio m) = true.
Proof.
  unfold Music.startBackgroundMusic.
  destruct (Music.isMusicPlaying m) eqn:Pl; [exact Pl|].
  unfold Music.playMusicNote. cbn [Music.isMusicPlaying negb Music.musicNoteIndex].
  destruct audio; reflexivity.
Qed.

Lemma stopBackgroundMusic_playing (m : Music.State) :
  Music.isMusicPlaying (Music.stopBackgroundMusic m) = false.
Proof. unfold Music.stopBackgroundMusic. now destruct (Music.musicInterval m). Qed.

Lemma playMusicNote_playing (audio : bool) (m : Music.State) :
  Music.isMusicPlaying (Music.playMusicNote audio m) = Music.isMusicPlaying m.
Proof.
  unfold Music.playMusicNote.
  destruct (Music.isMusicPlaying m) eqn:Pl; cbn [negb]; [|exact Pl].
  destruct audio; cbn [negb]; [|exact Pl].
  destruct (nth_error Music.musicNotes (Music.musicNoteIndex m)) as [[freq dur]|];
    [reflexivity | exact Pl].
Qed.

Lemma afterClear_ref (k : nat) (h : Host) (n : Z) (b : Board) (bc : ColorBoard) :
  dropIntervalRef (afterClear k h n b bc) = None <-> dropIntervalRef h = None.
Proof.
  unfold afterClear. destruct (n >? 0); simpl; [|tauto].
  destruct (dropIntervalRef h) eqn:Ed; simpl; [split; discriminate|].
  now rewrite Ed.
Qed.

Lemma drop_music_ref (h h' : Host) (k : nat) (audio : bool) (m : Music.State) :
  drop k h = Ok h' ->
  (Music.isMusicPlaying m = true <-> dropIntervalRef h <> None) ->
  (Music.isMusicPlaying (applyCalls audio (drop_music h) m) = true
   <-> dropIntervalRef h' <> None).
Proof.
  unfold drop, drop_music.
  destruct (isPaused (state h) || isGameOver (state h)); [now intros [= <-]|].
  destruct (collide _ _).
  - destruct (y (piece (state h)) <=? 0).
    + intros [= <-] _. cbn [applyCalls fold_left applyCall].
      rewrite stopBackgroundMusic_playing, gameOverStep_ref. split; congruence.
    + destruct (merge _ _ _) as [mm| |]; cbn [bind]; try discriminate.
      destruct (clearLines _ _) as [cc| |]; cbn [bind]; try discriminate.
      intros [= <-] M. cbn [applyCalls fold_left]. rewrite M.
      pose proof (afterClear_ref k h (fst (fst cc)) (snd (fst cc)) (snd cc)). tauto.
  - now intros [= <-].
Qed.

Lemma handle_music_ref (e : Event) (h h' : Host) (k1 k2 : nat) (audio : bool)
    (m : Music.State) :
  handle e k1 k2 h = Ok h' ->
  (Music.isMusicPlaying m = true <-> dropIntervalRef h <> None) ->
  (Music.isMusicPlaying (applyCalls audio (handle_music e h) m) = true
   <-> dropIntervalRef h' <> None).
Proof.
  destruct e as [action|id]; cbn [handle handle_music]; [|apply drop_music_ref].
  unfold handleAction, handleAction_music.
  repeat match goal with
  | |- context [if (action =? ?s)%string then _ else _] =>
      destruct (action =? s)%string
  end.
  - intros [= <-] _. cbn [applyCalls fold_left applyCall].
    rewrite startBackgroundMusic_playing. unfold startGame, scheduleDrop.
    cbn [dropIntervalRef]. split; [discriminate | reflexivity].
  - intros [= <-] M. unfold pauseGame, pauseGame_music.
    destruct (negb (isRunning (state h)) || isGameOver (state h)); [exact M|].
    cbn [state setState setFlags isPaused].
    destruct (isPaused (state h)); cbn [negb applyCalls fold_left applyCall].
    + rewrite startBackgroundMusic_playing. unfold scheduleDrop.
      cbn [dropIntervalRef]. split; [discriminate | reflexivity].
    + rewrite stopBackgroundMusic_playing. cbn [setState dropIntervalRef].
      destruct (dropIntervalRef h) eqn:Ed;
        cbn [forgetInterval setState dropIntervalRef]; [|rewrite Ed];
        (split; [discriminate | intros N; now destruct N]).
  - now intros [= <-].
  - intros E. destruct (move_cases _ _ _ E) as [-> | (_ & ->)]; tauto.
  - intros E. destruct (move_cases _ _ _ E) as [-> | (_ & ->)]; tauto.
  - intros E. destruct (rotate_cases _ _ E) as [-> | (p' & _ & _ & _ & ->)]; tauto.
  - unfold hardDrop, hardDrop_music.
    destruct (negb (isRunning (state h)) || isPaused (state h) || isGameOver (state h));
      [now intros [= <-]|].
    destruct (hardDrop_loop _ _) as [st'| |]; cbn [bind]; try discriminate.
    intros E M. now apply (drop_music_ref (setState h st') h' k1).
  - apply drop_music_ref.
  - now intros [= <-].
Qed.

Lemma pageReachable_host (h : Host) (m : Music.State) :
  pageReachable h m -> reachable h.
Proof.
  induction 1 as [k1 k2 K1 K2 | h h' m e k1 k2 audio R IH F K1 K2 E
                 | h m id audio R IH En | h m R IH].
  - now apply reach_init.
  - now apply (reach_step h h' e k1 k2).
  - exact IH.
  - now apply reach_cleanup.
Qed.

Lemma runMusic_reachable (evs : list (Event * nat * nat)) :
  forall (h h' : Host) (m : Music.State),
    pageReachable h m -> allActions evs = true -> run evs h = Ok h' ->
    pageReachable h' (runMusic evs h m).
Proof.
  induction evs as [|[[e k1] k2] evs IH]; intros h h' m R A E.
  - injection E as <-. exact R.
  - cbn [run runMusic] in *. destruct e as [action|id]; [|discriminate].
    cbn [allActions forallb] in A. apply andb_true_iff in A. destruct A as [K A].
    apply andb_true_iff in K. destruct K as [K1 K2].
    apply Nat.ltb_lt in K1. apply Nat.ltb_lt in K2.
    destruct (handle (Action action) k1 k2 h) as [h1| |] eqn:E1; try discriminate.
    apply (IH h1 h'); [|exact A | exact E].
    now apply (page_game h h1 m (Action action) k1 k2 true).
Qed.

Lemma stalePage_reachable : pageReachable staleHost staleMusic.
Proof.
  apply page_cleanup.
  apply (page_game overHost (startGame 1 1 overHost) _ (Action "start") 1 1 true);
    try lia; try exact I; try reflexivity.
  apply (page_game pileHost overHost _ (Tick 1) 1 1 true); try lia.
  - apply (runMusic_reachable pileEvents (initialHost 1 1)).
    + apply page_init; lia.
    + reflexivity.
    + vm_compute. reflexivity.
  - exists 700. vm_compute. auto.
  - vm_compute. reflexivity.
Qed.



(** * The network address *)

Lemma firstExternal_spec (l : list Network.Interface) :
  match Network.firstExternal l with
  | Some a =>
      exists pre net post,
        l = pre ++ net :: post /\ Network.external net = true
        /\ Network.address net = a
        /\ Forall (fun n => Network.external n = false) pre
  | None => Forall (fun n => Network.external n = false) l
  end.
Proof.
  induction l as [|net l IH]; simpl; [constructor|].
  destruct (Network.external net) eqn:E.
  - exists [], net, l. repeat split; auto.
  - destruct (Network.firstExternal l) as [a|].
    + destruct IH as (pre & n & post & -> & En & Ea & F).
      exists (net :: pre), n, post. repeat split; auto.
    + constructor; assumption.
Qed.

Lemma getLocalNetworkAddress_spec (nets : Network.Nets) :
  match Network.getLocalNetworkAddress nets with
  | Some a =>
      exists pre net post,
        Network.visited nets = pre ++ net :: post /\ Network.external net = true
        /\ Network.address net = a
        /\ Forall (fun n => Network.external n = false) pre
  | None => Forall (fun n => Network.external n = false) (Network.visited nets)
  end.
Proof.
  induction nets as [|[name entry] nets IH]; [constructor|].
  cbn [Network.getLocalNetworkAddress Network.visited flat_map snd].
  fold (Network.visited nets).
  pose proof (firstExternal_spec (match entry with Some l => l | None => [] end)) as F.
  destruct (Network.firstExternal _) as [a|].
  - destruct F as (pre & net & post & -> & En & Ea & Fp).
    exists pre, net, (post ++ Network.visited nets).
    rewrite <- app_assoc. repeat split; auto.
  - destruct (Network.getLocalNetworkAddress nets) as [a|].
    + destruct IH as (pre & net & post & -> & En & Ea & Fp).
      exists ((match entry with Some l => l | None => [] end) ++ pre), net, post.
      rewrite <- app_assoc. repeat split; auto. apply Forall_app. auto.
    + apply Forall_app. auto.
Qed.

(** X27.  [getLocalNetworkAddress] gives the address of the first entry,
    in the order of the interfaces, that is IPv4 and not internal, and
    [null] exactly when there is no such entry: it never gives a loopback
    or an IPv6 address. *)
Theorem local_address_is_first_external (nets : Network.Nets) :
  (forall a, Network.getLocalNetworkAddress nets = Some a ->
     exists pre net post,
       Network.visited nets = pre ++ net :: post
       /\ Network.family net = "IPv4"%string /\ Network.internal net = false
       /\ Network.address net = a
       /\ Forall (fun n => Network.external n = false) pre)
  /\ (Network.getLocalNetworkAddress nets = None <->
      Forall (fun n => Network.external n = false) (Network.visited nets)).
Proof.
  pose proof (getLocalNetworkAddress_spec nets) as S.
  destruct (Network.getLocalNetworkAddress nets) as [a|].
  - destruct S as (pre & net & post & E & En & Ea & Fp). split.
    + intros a' [= <-]. exists pre, net, post.
      unfold Network.external in En. apply andb_true_iff in En.
      destruct En as [Ef Ei]. apply String.eqb_eq in Ef.
      apply negb_true_iff in Ei. auto.
    + split; [discriminate|]. intros F. rewrite E in F.
      apply Forall_app in F. destruct F as [_ F]. inversion F. congruence.
  - split; [discriminate|]. split; auto.
Qed.

(** X28.  The home page shows the address panel exactly when the server
    found an external IPv4 address that is not the empty string, and the
    panel then shows [http://], the address, a colon and the port, which is
    [PORT] from the environment, or 5000 when that is unset or empty. *)
Theorem panel_shows_the_address (nets : Network.Nets) (envPort : option string) :
  (forall url,
      Network.panelShown (Some (Network.networkInfo nets envPort)) = Some url <->
      exists a,
        Network.getLocalNetworkAddress nets = Some a /\ a <> EmptyString
        /\ url = ("http://" ++ a ++ ":"
                  ++ Network.port (Network.networkInfo nets envPort))%string)
  /\ Network.port (Network.networkInfo nets envPort) <> EmptyString
  /\ (forall v, envPort = Some v -> v <> EmptyString ->
        Network.port (Network.networkInfo nets envPort) = v)
  /\ (envPort = None \/ envPort = Some EmptyString ->
        Network.port (Network.networkInfo nets envPort) = "5000"%string).
Proof.
  split; [|split; [|split]].
  - intros url. unfold Network.panelShown, Network.networkInfo.
    cbn [Network.connectionUrl Network.port].
    destruct (Network.getLocalNetworkAddress nets) as [a|].
    + destruct (String.eqb_spec a "") as [->|Na].
      * split; [discriminate|]. intros (a' & [= <-] & N & _). congruence.
      * cbn [String.append String.eqb Ascii.eqb]. simpl.
        split.
        -- intros [= <-]. exists a. auto.
        -- intros (a' & [= <-] & _ & ->). reflexivity.
    + split; [discriminate|]. intros (a' & E & _). discriminate.
  - unfold Network.networkInfo. cbn [Network.port].
    destruct envPort as [v|]; [|discriminate].
    destruct (String.eqb_spec v ""); [discriminate | assumption].
  - intros v -> Nv. unfold Network.networkInfo. cbn [Network.port].
    apply String.eqb_neq in Nv. now rewrite Nv.
  - intros [-> | ->]; reflexivity.
Qed.

Lemma local_address_is_first_external_witness :
  Network.getLocalNetworkAddress Network.sampleNets = Some "192.168.1.20"%string
  /\ exists pre net post,
       Network.visited Network.sampleNets = pre ++ net :: post
       /\ Network.family net = "IPv4"%string /\ Network.internal net = false
       /\ Network.address net = "192.168.1.20"%string
       /\ Forall (fun n => Network.external n = false) pre.
Proof.
  destruct (local_address_is_first_external Network.sampleNets) as [A _].
  split; [reflexivity | apply A; reflexivity].
Defined.

(** * The ghost piece *)

Lemma ghost_follows_hardDrop (fuel : nat) :
  forall (st : GameState) (p : Piece),
    piece st = setY p (y (piece st)) ->
    forall g, hardDrop_loop fuel st = Ok g ->
    ghost_loop fuel p (board st) (y (piece st)) = Ok (y (piece g)).
Proof.
  induction fuel as [|fuel IH]; intros st p Hp g; cbn [hardDrop_loop ghost_loop];
    [discriminate|].
  assert (E : setY (piece st) (y (piece st) + 1) = setY p (y (piece st) + 1))
    by (unfold setY; rewrite Hp; reflexivity).
  rewrite E.
  destruct (collide (setY p (y (piece st) + 1)) (board st)); cbn [negb].
  - now intros [= <-].
  - intros L. rewrite <- E in L.
    apply (IH _ p) in L; [exact L|]. cbn [setScore setPiece piece setY y]. exact E.
Qed.

(** X29.  The ghost outline [draw] paints is where a hard drop would put
    the piece: in every reachable state the loop of [draw] ends at the row
    at which the loop of [hardDrop] stops, the first one from which the
    piece can fall no further. *)
Theorem ghost_marks_hard_drop (h : Host) :
  reachable h ->
  exists g d,
    hardDrop_loop (Z.to_nat (ROWS - y (piece (state h))) + 1) (state h) = Ok g
    /\ descended (state h) g d
    /\ ghost_loop (Z.to_nat (ROWS - y (piece (state h))) + 1) (piece (state h))
                  (board (state h)) (y (piece (state h)))
       = Ok (y (piece (state h)) + d).
Proof.
  intros R.
  destruct (hardDrop_loop_returns (Z.to_nat (ROWS - y (piece (state h))) + 1)
              (state h) (reachable_hasCell h R)) as (g & d & L & D); [lia|].
  exists g, d. split; [exact L|]. split; [exact D|].
  rewrite (ghost_follows_hardDrop _ (state h) (piece (state h))) with (g := g);
    [| now destruct (piece (state h)) | exact L].
  destruct D as (_ & -> & _). reflexivity.
Qed.

Lemma ghost_marks_hard_drop_witness :
  exists g d,
    hardDrop_loop (Z.to_nat (ROWS - y (piece (state startedHost))) + 1)
                  (state startedHost) = Ok g
    /\ descended (state startedHost) g d
    /\ ghost_loop (Z.to_nat (ROWS - y (piece (state startedHost))) + 1)
                  (piece (state startedHost)) (board (state startedHost))
                  (y (piece (state startedHost)))
       = Ok (y (piece (state startedHost)) + d).
Proof. exact (ghost_marks_hard_drop startedHost startedHost_reachable). Defined.
